(** * imgrid: numbered coordinate grids on raster images

    A shallow embedding of [imgrid.go] (package [imgrid]), the proofs of the
    properties its specification states about it (the claims C1, C2, ...),
    and the proofs of further properties of the code (the properties X1, X2,
    ...).  [drawCircle] of the example program [examples/custom/main.go] is
    embedded with it.

    Conventions of the embedding.
    - Go's [int] is taken at its 64-bit width (amd64, arm64): a value is a [Z]
      in [[min_int, max_int]] and every arithmetic operation wraps around
      ([GoInt.wrap]).  Division and remainder truncate toward zero and panic
      on a zero divisor.
    - A Go function that can panic returns an [outcome]; loops whose
      termination depends on the data take a [fuel] bound and end in
      [OutOfFuel] when it is exhausted.
    - The canvas is an [image.RGBA]: a rectangle and a pixel store.  [Set]
      outside the rectangle is a no-op, as in the standard library.  The
      canvas also records the history of [Set] calls, a ghost field used to
      state which writes a drawing routine issues.
    - The colours of a [Config] are [color.RGBA] values, which [Set] stores
      as they are; the source image is seen through the colours [draw.Draw]
      copies from it.  In Go the three colours are [color.Color] interface
      values and the image an [image.Image]: a [Config] with a nil colour
      (the zero value of the struct), on which [Set] panics, and a nil image,
      on which [Bounds] panics, are outside the embedding, and every
      statement below is about non-nil colours and images.
    - [AddGrid] is modelled up to the canvas it encodes; [png.Encode] and its
      error are outside the embedding. *)

From Stdlib Require Import ZArith List Lia Bool String Ascii.
From Stdlib Require Import DecimalString.
From Stdlib Require NArith DecimalFacts DecimalPos.
Import ListNotations.
Local Open Scope Z_scope.

(** ** Go's [int] *)

Module GoInt.

Definition modulus : Z := 18446744073709551616.
Definition half_modulus : Z := 9223372036854775808.
Definition min_int : Z := - half_modulus.
Definition max_int : Z := half_modulus - 1.

(** [in_int z]: [z] is a value of type [int]. *)
Definition in_int (z : Z) : Prop := min_int <= z <= max_int.

(** Two's-complement wrap-around of a mathematical integer. *)
Definition wrap (z : Z) : Z := (z + half_modulus) mod modulus - half_modulus.

Definition add (x y : Z) : Z := wrap (x + y).
Definition sub (x y : Z) : Z := wrap (x - y).
Definition mul (x y : Z) : Z := wrap (x * y).

(** [x / c] for a non-zero literal [c]: truncated, and it cannot panic. *)
Definition quo_lit (x c : Z) : Z := wrap (Z.quot x c).

End GoInt.

(** ** Results of running Go code *)

Inductive outcome (A : Type) : Type :=
| Returns (a : A)
| Panics (msg : string)
| OutOfFuel.
Arguments Returns {A} a.
Arguments Panics {A} msg.
Arguments OutOfFuel {A}.

Definition bind {A B : Type} (m : outcome A) (k : A -> outcome B) : outcome B :=
  match m with
  | Returns a => k a
  | Panics msg => Panics msg
  | OutOfFuel => OutOfFuel
  end.

Notation "x <- m ;; k" := (bind m (fun x => k))
  (at level 61, m at next level, right associativity).

Module GoDiv.
Import GoInt.

(** [x / y]: truncated quotient; the runtime panics when [y] is zero.
    [min_int / -1] wraps to [min_int]. *)
Definition quo (x y : Z) : outcome Z :=
  if y =? 0 then Panics "runtime error: integer divide by zero"
  else Returns (wrap (Z.quot x y)).

(** [x % y]: remainder with the sign of the dividend. *)
Definition rem (x y : Z) : outcome Z :=
  if y =? 0 then Panics "runtime error: integer divide by zero"
  else Returns (Z.rem x y).

End GoDiv.

(** ** [fmt.Sprintf("%d", n)] *)

Definition Sprintf_d (n : Z) : string := NilZero.string_of_int (Z.to_int n).

(** ** The coordinate mapper *)

Import GoInt GoDiv.

(** The three results of [CellToPixel]: [(pixelX, pixelY, err)] where [err]
    is [None] for Go's [nil] and [Some msg] for [fmt.Errorf(msg)]. *)
Definition CellToPixel (cellNumber imageWidth cellSize : Z)
  : outcome (Z * Z * option string) :=
  if cellNumber <? 0 then
    Returns (0, 0, Some ("invalid cell number: " ++ Sprintf_d cellNumber)%string)
  else
    q <- quo imageWidth cellSize ;;
    let columnsPerRow := if q =? 0 then 1 else q in
    gridX <- rem cellNumber columnsPerRow ;;
    gridY <- quo cellNumber columnsPerRow ;;
    let pixelX := add (mul gridX cellSize) (quo_lit cellSize 2) in
    let pixelY := add (mul gridY cellSize) (quo_lit cellSize 2) in
    Returns (pixelX, pixelY, None).

Definition PixelToCell (x y imageWidth cellSize : Z) : outcome Z :=
  q <- quo imageWidth cellSize ;;
  let columnsPerRow := if q =? 0 then 1 else q in
  gridX <- quo x cellSize ;;
  gridY <- quo y cellSize ;;
  Returns (add (mul gridY columnsPerRow) gridX).

(** ** Colours, configuration, images *)

(** [color.RGBA]: four 8-bit channels. *)
Record RGBA : Type := mkRGBA { R : Z; G : Z; B : Z; A : Z }.

(** [Config], with its three colours set ([color.RGBA] values, never nil). *)
Record Config : Type := mkConfig {
  CellSize : Z;
  GridColor : RGBA;
  NumberColor : RGBA;
  NumberBG : RGBA;
  LineWidth : Z;
  NumberScale : Z
}.

Definition DefaultConfig : Config :=
  {| CellSize := 100;
     GridColor := mkRGBA 0 255 255 100;
     NumberColor := mkRGBA 255 255 255 255;
     NumberBG := mkRGBA 0 0 0 200;
     LineWidth := 2;
     NumberScale := 3 |}.

(** [image.Rectangle]: [Min] inclusive, [Max] exclusive. *)
Record Rectangle : Type := mkRect { MinX : Z; MinY : Z; MaxX : Z; MaxY : Z }.

Definition Dx (r : Rectangle) : Z := sub (MaxX r) (MinX r).
Definition Dy (r : Rectangle) : Z := sub (MaxY r) (MinY r).

(** [image.Point{x, y}.In(r)] *)
Definition In_rect (x y : Z) (r : Rectangle) : bool :=
  (MinX r <=? x) && (x <? MaxX r) && (MinY r <=? y) && (y <? MaxY r).

(** The source image, an [image.Image]: its bounds and, for every point, the
    colour [draw.Draw] copies from it into an RGBA canvas. *)
Record Image : Type := mkImage { Bounds : Rectangle; ColorAt : Z -> Z -> RGBA }.

(** The canvas, an [image.RGBA].  [Calls] is the history of [Set] calls,
    most recent first. *)
Record Canvas : Type := mkCanvas {
  Rect : Rectangle;
  Pix : Z -> Z -> RGBA;
  Calls : list (Z * Z * RGBA)
}.

Definition transparent : RGBA := mkRGBA 0 0 0 0.

(** [Set] of [image.RGBA]: a point outside the rectangle is ignored. *)
Definition RGBA_Set (img : Canvas) (x y : Z) (c : RGBA) : Canvas :=
  {| Rect := Rect img;
     Pix := if In_rect x y (Rect img)
            then fun px py => if (px =? x) && (py =? y) then c else Pix img px py
            else Pix img;
     Calls := (x, y, c) :: Calls img |}.

(** [At] of [image.RGBA] *)
Definition RGBA_At (img : Canvas) (x y : Z) : RGBA :=
  if In_rect x y (Rect img) then Pix img x y else transparent.

(** [image.mul3NonNeg]: the product, or -1 when an argument is negative or
    the product does not fit an [int]. *)
Definition mul3NonNeg (x y z : Z) : Z :=
  if (x <? 0) || (y <? 0) || (z <? 0) then -1
  else if modulus <=? x * y then -1
  else if modulus <=? x * y * z then -1
  else if max_int <? x * y * z then -1
  else x * y * z.

(** [image.NewRGBA] *)
Definition NewRGBA (r : Rectangle) : outcome Canvas :=
  if mul3NonNeg 4 (Dx r) (Dy r) <? 0 then
    Panics "image: NewRGBA Rectangle has huge or negative dimensions"
  else Returns {| Rect := r; Pix := fun _ _ => transparent; Calls := [] |}.

(** [draw.Draw(dst, r, src, r.Min, draw.Src)] for [r] the bounds of both:
    the pixels of [r] are copied, the rest is left. *)
Definition Draw_Src (dst : Canvas) (r : Rectangle) (src : Image) : Canvas :=
  {| Rect := Rect dst;
     Pix := fun x y =>
       if In_rect x y r && In_rect x y (Rect dst) && In_rect x y (Bounds src)
       then ColorAt src x y else Pix dst x y;
     Calls := Calls dst |}.

(** ** Loops *)

(** [for i := init; cond(i); i = post(i) { body }], [fuel] iterations at
    most. *)
Fixpoint for_loop {St : Type} (fuel : nat) (cond : Z -> bool) (post : Z -> Z)
  (body : Z -> St -> outcome St) (i : Z) (s : St) : outcome St :=
  match fuel with
  | O => OutOfFuel
  | S fuel' =>
      if cond i then
        s' <- body i s ;; for_loop fuel' cond post body (post i) s'
      else Returns s
  end.

Fixpoint count_loop {St : Type} (n : nat) (i : Z) (guard : Z -> bool)
  (body : Z -> St -> St) (s : St) : St :=
  match n with
  | O => s
  | S n' => if guard i then count_loop n' (i + 1) guard body (body i s) else s
  end.

(** [for i := lo; i < hi && guard(i); i++ { body }]: the counter stays below
    [hi], so [i++] never wraps and the loop ends after [hi - lo] rounds. *)
Definition for_upto {St : Type} (lo hi : Z) (guard : Z -> bool)
  (body : Z -> St -> St) (s : St) : St :=
  count_loop (Z.to_nat (hi - lo)) lo guard body s.

Definition always (_ : Z) : bool := true.

Fixpoint range_from {E St : Type} (i : Z) (l : list E)
  (body : Z -> E -> St -> St) (s : St) : St :=
  match l with
  | [] => s
  | e :: l' => range_from (i + 1) l' body (body i e s)
  end.

(** [for i, e := range l { body }] *)
Definition range_loop {E St : Type} (l : list E)
  (body : Z -> E -> St -> St) (s : St) : St :=
  range_from 0 l body s.

(** ** Digit glyphs *)

(** [getDigitPattern]: the 5x7 bitmap of a digit, empty for any other
    character (the sign of a negative number). *)
Definition getDigitPattern (digit : ascii) : list string :=
  match digit with
  | "0"%char =>
      [" ### "; "#   #"; "#   #"; "#   #"; "#   #"; "#   #"; " ### "]%string
  | "1"%char =>
      ["  #  "; " ##  "; "  #  "; "  #  "; "  #  "; "  #  "; "#####"]%string
  | "2"%char =>
      [" ### "; "#   #"; "    #"; "   # "; "  #  "; " #   "; "#####"]%string
  | "3"%char =>
      [" ### "; "#   #"; "    #"; "  ## "; "    #"; "#   #"; " ### "]%string
  | "4"%char =>
      ["   # "; "  ## "; " # # "; "#  # "; "#####"; "   # "; "   # "]%string
  | "5"%char =>
      ["#####"; "#    "; "#    "; "#### "; "    #"; "#   #"; " ### "]%string
  | "6"%char =>
      [" ### "; "#   #"; "#    "; "#### "; "#   #"; "#   #"; " ### "]%string
  | "7"%char =>
      ["#####"; "    #"; "   # "; "  #  "; " #   "; " #   "; " #   "]%string
  | "8"%char =>
      [" ### "; "#   #"; "#   #"; " ### "; "#   #"; "#   #"; " ### "]%string
  | "9"%char =>
      [" ### "; "#   #"; "#   #"; " ####"; "    #"; "#   #"; " ### "]%string
  | _ => []
  end.

(** ** Labels *)

(** The guarded write both drawing phases of [drawLargeNumber] use. *)
Definition set_clipped (img : Canvas) (px py : Z) (c : RGBA) : Canvas :=
  if (0 <=? px) && (0 <=? py) && (px <? MaxX (Rect img)) && (py <? MaxY (Rect img))
  then RGBA_Set img px py c
  else img.

(** The geometry [drawLargeNumber] computes before it draws. *)
Record label : Type := mkLabel {
  digitWidth : Z;
  digitHeight : Z;
  spacing : Z;
  padding : Z;
  totalWidth : Z;
  totalHeight : Z;
  startX : Z;
  startY : Z
}.

Definition label_of (x y : Z) (numStr : string) (config : Config) : label :=
  let len := Z.of_nat (String.length numStr) in
  let digitWidth := mul 5 (NumberScale config) in
  let digitHeight := mul 7 (NumberScale config) in
  let spacing := mul 2 (NumberScale config) in
  let padding := mul 2 (NumberScale config) in
  let totalWidth :=
    add (add (mul len digitWidth) (mul (sub len 1) spacing)) (mul 2 padding) in
  let totalHeight := add digitHeight (mul 2 padding) in
  {| digitWidth := digitWidth;
     digitHeight := digitHeight;
     spacing := spacing;
     padding := padding;
     totalWidth := totalWidth;
     totalHeight := totalHeight;
     startX := sub x (quo_lit totalWidth 2);
     startY := sub y (quo_lit totalHeight 2) |}.

(** First phase: the background rectangle. *)
Definition draw_background (img : Canvas) (l : label) (config : Config) : Canvas :=
  for_upto 0 (totalWidth l) always (fun dx img =>
    for_upto 0 (totalHeight l) always (fun dy img =>
      let px := add (startX l) dx in
      let py := add (startY l) dy in
      set_clipped img px py (NumberBG config)) img) img.

(** The scaled block drawn for one lit glyph cell. *)
Definition draw_block (img : Canvas) (digitX digitY row col : Z)
  (config : Config) : Canvas :=
  for_upto 0 (NumberScale config) always (fun sx img =>
    for_upto 0 (NumberScale config) always (fun sy img =>
      let px := add (add digitX (mul col (NumberScale config))) sx in
      let py := add (add digitY (mul row (NumberScale config))) sy in
      set_clipped img px py (NumberColor config)) img) img.

(** Second phase: the digits. *)
Definition draw_digits (img : Canvas) (l : label) (numStr : string)
  (config : Config) : Canvas :=
  range_loop (list_ascii_of_string numStr) (fun i digit img =>
    let pattern := getDigitPattern digit in
    let digitX :=
      add (add (startX l) (padding l)) (mul i (add (digitWidth l) (spacing l))) in
    let digitY := add (startY l) (padding l) in
    range_loop pattern (fun row line img =>
      range_loop (list_ascii_of_string line) (fun col char img =>
        if Ascii.eqb char "#" then draw_block img digitX digitY row col config
        else img) img) img) img.

(** [drawLargeNumber], on the [image.RGBA] canvas [AddGrid] passes to it. *)
Definition drawLargeNumber (img : Canvas) (x y number : Z) (config : Config)
  : Canvas :=
  let numStr := Sprintf_d number in
  let l := label_of x y numStr config in
  draw_digits (draw_background img l config) l numStr config.

(** ** AddGrid *)

(** The body of the first line loop: the band of one vertical separator,
    [LineWidth] pixels leftward from [x], over all rows. *)
Definition draw_vertical_line (config : Config) (height x : Z) (overlay : Canvas)
  : Canvas :=
  for_upto 0 height always (fun y overlay =>
    for_upto 0 (LineWidth config) (fun i => 0 <=? sub x i) (fun i overlay =>
      RGBA_Set overlay (sub x i) y (GridColor config)) overlay) overlay.

(** Vertical separators: [for x := CellSize; x < width; x += CellSize]. *)
Definition draw_vertical_lines (fuel : nat) (config : Config) (width height : Z)
  (overlay : Canvas) : outcome Canvas :=
  for_loop fuel (fun x => x <? width) (fun x => add x (CellSize config))
    (fun x overlay => Returns (draw_vertical_line config height x overlay))
    (CellSize config) overlay.

(** The body of the second line loop: the band of one horizontal separator,
    [LineWidth] pixels upward from [y], over all columns. *)
Definition draw_horizontal_line (config : Config) (width y : Z) (overlay : Canvas)
  : Canvas :=
  for_upto 0 width always (fun x overlay =>
    for_upto 0 (LineWidth config) (fun i => 0 <=? sub y i) (fun i overlay =>
      RGBA_Set overlay x (sub y i) (GridColor config)) overlay) overlay.

(** Horizontal separators: [for y := CellSize; y < height; y += CellSize]. *)
Definition draw_horizontal_lines (fuel : nat) (config : Config) (width height : Z)
  (overlay : Canvas) : outcome Canvas :=
  for_loop fuel (fun y => y <? height) (fun y => add y (CellSize config))
    (fun y overlay => Returns (draw_horizontal_line config width y overlay))
    (CellSize config) overlay.

(** One round of the numbering loop, as the loop saw it. *)
Record visit : Type := mkVisit {
  v_gridX : Z;
  v_gridY : Z;
  v_centerX : Z;
  v_centerY : Z;
  v_number : Z;
  v_drawn : bool
}.

(** State of the numbering loop: the canvas, the counter, and the rounds made
    so far, most recent first (a ghost field). *)
Record numbering : Type := mkNumbering {
  overlay : Canvas;
  cellNumber : Z;
  visited : list visit
}.

Definition number_cell (config : Config) (width height gridX gridY : Z)
  (st : numbering) : numbering :=
  let centerX := add (mul gridX (CellSize config)) (quo_lit (CellSize config) 2) in
  let centerY := add (mul gridY (CellSize config)) (quo_lit (CellSize config) 2) in
  let drawn := (centerX <? width) && (centerY <? height) in
  {| overlay :=
       if drawn
       then drawLargeNumber (overlay st) centerX centerY (cellNumber st) config
       else overlay st;
     cellNumber := add (cellNumber st) 1;
     visited := mkVisit gridX gridY centerX centerY (cellNumber st) drawn
                  :: visited st |}.

(** The numbering loop of [AddGrid]. *)
Definition number_cells (fuel : nat) (config : Config) (width height : Z)
  (ov : Canvas) : outcome numbering :=
  for_loop fuel (fun gridY => mul gridY (CellSize config) <? height)
    (fun gridY => add gridY 1)
    (fun gridY st =>
       for_loop fuel (fun gridX => mul gridX (CellSize config) <? width)
         (fun gridX => add gridX 1)
         (fun gridX st => Returns (number_cell config width height gridX gridY st))
         0 st)
    0 {| overlay := ov; cellNumber := 0; visited := [] |}.

(** [AddGrid] up to the end of the line-drawing phase. *)
Definition AddGrid_lines (fuel : nat) (img : Image) (config : Config)
  : outcome Canvas :=
  let bounds := Bounds img in
  let width := MaxX bounds in
  let height := MaxY bounds in
  ov <- NewRGBA bounds ;;
  let ov := Draw_Src ov bounds img in
  ov <- draw_vertical_lines fuel config width height ov ;;
  draw_horizontal_lines fuel config width height ov.

(** [AddGrid] up to the canvas it hands to [png.Encode]. *)
Definition AddGrid_canvas (fuel : nat) (img : Image) (config : Config)
  : outcome numbering :=
  ov <- AddGrid_lines fuel img config ;;
  number_cells fuel config (MaxX (Bounds img)) (MaxY (Bounds img)) ov.

(** The rounds a run of the numbering loop made, first round first; none when
    the run did not return. *)
Definition rounds_of (o : outcome numbering) : list visit :=
  match o with
  | Returns st => rev (visited st)
  | _ => []
  end.

(** ** The example program

    [drawCircle] of [examples/custom/main.go], on the [image.RGBA] canvas the
    example passes to it. *)
Definition drawCircle (fuel : nat) (img : Canvas) (centerX centerY radius : Z)
  (col : RGBA) : outcome Canvas :=
  for_loop fuel (fun y => y <=? add centerY radius) (fun y => add y 1)
    (fun y img =>
       for_loop fuel (fun x => x <=? add centerX radius) (fun x => add x 1)
         (fun x img =>
            let dx := sub x centerX in
            let dy := sub y centerY in
            Returns
              (if add (mul dx dx) (mul dy dy) <=? mul radius radius
               then set_clipped img x y col
               else img))
         (sub centerX radius) img)
    (sub centerY radius) img.

(** ** Vocabulary of the proofs *)

(** [count_any n i guard p]: some round of
    [for j := i; j < i + n && guard(j); j++] has [p j]. *)
Fixpoint count_any (n : nat) (i : Z) (guard p : Z -> bool) : bool :=
  match n with
  | O => false
  | S n' => guard i && (p i || count_any n' (i + 1) guard p)
  end.

(** [paints c p s s']: the canvas [s'] is [s] with the pixels of [p] that lie
    in its rectangle overwritten by [c]. *)
Definition paints (c : RGBA) (p : Z -> Z -> bool) (s s' : Canvas) : Prop :=
  Rect s' = Rect s /\
  forall px py,
    Pix s' px py = if In_rect px py (Rect s) && p px py then c else Pix s px py.

(** The pixels one separator at [x] paints, along the axis it crosses:
    [lineWidth] of them ending at [x], as far as they are not negative. *)
Definition band_at (lineWidth x p : Z) : bool :=
  (0 <=? p) && (x - lineWidth <? p) && (p <=? x).

(** [writes_within ok s s']: the canvas [s'] comes from [s] by [Set] calls
    whose points all satisfy [ok]; the rectangle is the same and every pixel
    outside [ok] is unchanged. *)
Definition writes_within (ok : Z -> Z -> Prop) (s s' : Canvas) : Prop :=
  Rect s' = Rect s /\
  (exists new,
      Calls s' = new ++ Calls s /\
      Forall (fun w : Z * Z * RGBA => ok (fst (fst w)) (snd (fst w))) new) /\
  (forall px py, ~ ok px py -> Pix s' px py = Pix s px py).

(** What the round [v] of the numbering loop did to the canvas. *)
Definition draw_round (config : Config) (ov : Canvas) (v : visit) : Canvas :=
  if v_drawn v
  then drawLargeNumber ov (v_centerX v) (v_centerY v) (v_number v) config
  else ov.

(** One pixel [(px, py)] through a drawing step [f] on canvases of rectangle
    [R].  [keeps]: the step leaves the rectangle as it is and the pixel at
    the colour [c] if it has it.  [hits]: it gives the pixel the colour [c].
    [misses]: it leaves the pixel as it is. *)
Definition keeps (c : RGBA) (R : Rectangle) (px py : Z)
  (f : Canvas -> Canvas) : Prop :=
  forall s, Rect s = R ->
            Rect (f s) = R /\ (Pix s px py = c -> Pix (f s) px py = c).

Definition hits (c : RGBA) (R : Rectangle) (px py : Z)
  (f : Canvas -> Canvas) : Prop :=
  forall s, Rect s = R -> Rect (f s) = R /\ Pix (f s) px py = c.

Definition misses (R : Rectangle) (px py : Z) (f : Canvas -> Canvas) : Prop :=
  forall s, Rect s = R -> Rect (f s) = R /\ Pix (f s) px py = Pix s px py.

(** ** The specification's formulas

    Definitions that follow the words of the specification, over the
    mathematical integers, to compare with the code above. *)

(** "columnsPerRow = max(1, imageWidth / cellSize) (integer division)" *)
Definition columnsPerRow_spec (imageWidth cellSize : Z) : Z :=
  Z.max 1 (Z.quot imageWidth cellSize).

(** "col = cellIndex mod columnsPerRow, row = cellIndex / columnsPerRow;
    returns (col*cellSize + cellSize/2, row*cellSize + cellSize/2)" *)
Definition CellToPixel_spec (cellIndex imageWidth cellSize : Z) : Z * Z :=
  let columnsPerRow := columnsPerRow_spec imageWidth cellSize in
  let col := cellIndex mod columnsPerRow in
  let row := Z.quot cellIndex columnsPerRow in
  (col * cellSize + Z.quot cellSize 2, row * cellSize + Z.quot cellSize 2).

(** "col = x / cellSize, row = y / cellSize; returns row*columnsPerRow + col" *)
Definition PixelToCell_spec (x y imageWidth cellSize : Z) : Z :=
  let columnsPerRow := columnsPerRow_spec imageWidth cellSize in
  let col := Z.quot x cellSize in
  let row := Z.quot y cellSize in
  row * columnsPerRow + col.

(** ceil(a / b) for [b > 0] *)
Definition ceil_div (a b : Z) : Z := (a + b - 1) / b.

(** "total cell count = ceil(height/cellSize) x ceil(width/cellSize)" *)
Definition cell_count_spec (width height cellSize : Z) : Z :=
  ceil_div height cellSize * ceil_div width cellSize.

(** A band of [lineWidth] pixels ending at a positive multiple of [cellSize]
    below [limit]: "k*cellSize < limit and k*cellSize - lineWidth < p <=
    k*cellSize" for some [k >= 1]. *)
Definition in_band (cellSize lineWidth limit p : Z) : Prop :=
  exists k, 1 <= k /\ k * cellSize < limit /\
            k * cellSize - lineWidth < p <= k * cellSize.

Definition on_grid_line (config : Config) (width height px py : Z) : Prop :=
  in_band (CellSize config) (LineWidth config) width px \/
  in_band (CellSize config) (LineWidth config) height py.

(** The background rectangle of a label. *)
Definition in_label_rect (l : label) (px py : Z) : Prop :=
  startX l <= px < startX l + totalWidth l /\
  startY l <= py < startY l + totalHeight l.

(** The pixels [drawLargeNumber] may touch according to the specification:
    inside the canvas and inside the background rectangle. *)
Definition label_target (img : Canvas) (l : label) (px py : Z) : Prop :=
  0 <= px < MaxX (Rect img) /\ 0 <= py < MaxY (Rect img) /\ in_label_rect l px py.

(** ** Descriptions of the output

    Definitions over the mathematical integers with which the theorems that
    go beyond the specification compare what the code computes. *)

(** The round of the numbering loop at column [k] of row [r] in a layout of
    [ncols] columns per row: the centre of the cell, its number in row-major
    order, and whether the centre lies in the image. *)
Definition round_of (config : Config) (width height ncols k r : Z) : visit :=
  let centerX := k * CellSize config + Z.quot (CellSize config) 2 in
  let centerY := r * CellSize config + Z.quot (CellSize config) 2 in
  mkVisit k r centerX centerY (r * ncols + k)
    ((centerX <? width) && (centerY <? height)).

(** The rounds of a grid of [ceil(height/cellSize)] rows of
    [ceil(width/cellSize)] columns, row by row. *)
Definition row_major_rounds (config : Config) (width height : Z) : list visit :=
  let ncols := ceil_div width (CellSize config) in
  let nrows := ceil_div height (CellSize config) in
  flat_map
    (fun r =>
       map (fun k => round_of config width height ncols (Z.of_nat k) (Z.of_nat r))
         (seq 0 (Z.to_nat ncols)))
    (seq 0 (Z.to_nat nrows)).

(** The characters ['0'] to ['9']. *)
Definition is_digit (c : ascii) : bool :=
  (48 <=? nat_of_ascii c)%nat && (nat_of_ascii c <=? 57)%nat.

(** [glyph_lit digit row col]: the glyph of [digit] has a ['#'] in column
    [col] of row [row]. *)
Definition glyph_lit (digit : ascii) (row col : Z) : bool :=
  (0 <=? row) && (0 <=? col) &&
  match nth_error (getDigitPattern digit) (Z.to_nat row) with
  | Some line =>
      match nth_error (list_ascii_of_string line) (Z.to_nat col) with
      | Some char => Ascii.eqb char "#"
      | None => false
      end
  | None => false
  end.

(** The digits of a label at scale [s], as a picture: the point [(u, v)],
    counted from the top left corner of the first digit, lies in a lit glyph
    cell.  Digit [i] occupies the columns [7*s*i .. 7*s*i + 5*s - 1] (a glyph
    of 5 cells and a gap of 2), glyph cell [(row, col)] the block of [s] by
    [s] pixels at [(col*s, row*s)] in it. *)
Definition label_lit (numStr : string) (s u v : Z) : bool :=
  (0 <=? u) && (0 <=? v) &&
  match nth_error (list_ascii_of_string numStr) (Z.to_nat (u / (7 * s))) with
  | Some digit => glyph_lit digit (v / s) ((u mod (7 * s)) / s)
  | None => false
  end.

(** The background rectangle of a label, as a test. *)
Definition in_label_rectb (l : label) (px py : Z) : bool :=
  (startX l <=? px) && (px <? startX l + totalWidth l) &&
  (startY l <=? py) && (py <? startY l + totalHeight l).

(** The label of the round [v]. *)
Definition label_of_round (config : Config) (v : visit) : label :=
  label_of (v_centerX v) (v_centerY v) (Sprintf_d (v_number v)) config.

(** The colour of the pixel [(px, py)] after the round [v], given its colour
    [c] before: inside the rectangle of a drawn label the digit colour on the
    lit glyph cells and the background colour elsewhere, [c] outside. *)
Definition paint_round (config : Config) (px py : Z) (c : RGBA) (v : visit)
  : RGBA :=
  let s := NumberScale config in
  let l := label_of_round config v in
  if v_drawn v && in_label_rectb l px py
  then if label_lit (Sprintf_d (v_number v)) s
            (px - startX l - 2 * s) (py - startY l - 2 * s)
       then NumberColor config
       else NumberBG config
  else c.

(** * Proofs *)

(** ** Running the embedding *)

Example wrap_around : add max_int 1 = min_int /\ sub min_int 1 = max_int.
Proof. split; reflexivity. Qed.

Example division_truncates :
  quo (-7) 2 = Returns (-3) /\ rem (-7) 2 = Returns (-1) /\
  quo min_int (-1) = Returns min_int /\
  quo 7 0 = Panics "runtime error: integer divide by zero".
Proof. repeat split; reflexivity. Qed.

Example Sprintf_d_examples :
  Sprintf_d 0 = "0"%string /\ Sprintf_d 120 = "120"%string /\
  Sprintf_d (-5) = "-5"%string.
Proof. repeat split; reflexivity. Qed.

Example CellToPixel_examples :
  CellToPixel 13 600 100 = Returns (150, 250, None) /\
  CellToPixel (-1) 600 100
  = Returns (0, 0, Some "invalid cell number: -1"%string) /\
  CellToPixel 0 600 0 = Panics "runtime error: integer divide by zero".
Proof. repeat split; reflexivity. Qed.

Example label_of_example :
  label_of 15 15 "7" DefaultConfig = mkLabel 15 21 6 6 27 33 2 (-1).
Proof. reflexivity. Qed.

(** The label "7" drawn around (15, 15) on a canvas of 30 by 30: of the
    background, 27 columns from x = 2 and 33 rows from y = -1, the 30 rows
    inside the canvas are written, then the 11 lit glyph cells, 9 pixels
    each. *)
Example drawLargeNumber_example :
  let img := {| Rect := mkRect 0 0 30 30; Pix := fun _ _ => transparent;
                Calls := [] |} in
  let img' := drawLargeNumber img 15 15 7 DefaultConfig in
  List.length (Calls img') = (27 * 30 + 11 * 9)%nat /\
  Pix img' 1 5 = transparent /\
  Pix img' 2 5 = NumberBG DefaultConfig /\
  Pix img' 8 5 = NumberColor DefaultConfig.
Proof. vm_compute. repeat split; reflexivity. Qed.

(** ** Arithmetic of [int] *)

Module GoIntFacts.
Import GoInt.

Lemma wrap_in_int (z : Z) : in_int (wrap z).
Proof.
  unfold in_int, wrap, min_int, max_int.
  pose proof (Z.mod_pos_bound (z + half_modulus) modulus eq_refl) as Hb.
  unfold modulus, half_modulus in *. lia.
Qed.

Lemma wrap_id (z : Z) : in_int z -> wrap z = z.
Proof.
  unfold in_int, wrap, min_int, max_int, modulus, half_modulus. intros Hz.
  rewrite Z.mod_small by lia. lia.
Qed.

Lemma wrap_id_eq (z r : Z) : z = r /\ in_int r -> wrap z = r.
Proof. intros [-> Hr]. now apply wrap_id. Qed.

(** [wrap z] differs from [z] by a multiple of the modulus. *)
Lemma wrap_shift (z : Z) : exists k, wrap z = z + k * modulus.
Proof.
  exists (- ((z + half_modulus) / modulus)). unfold wrap.
  pose proof (Z.div_mod (z + half_modulus) modulus) as Hd.
  unfold modulus, half_modulus in *. lia.
Qed.

(** Two [int]s that differ by a multiple of the modulus are equal. *)
Lemma in_int_congr (a b k : Z) :
  in_int a -> in_int b -> a = b + k * modulus -> a = b.
Proof.
  unfold in_int, min_int, max_int, modulus, half_modulus. intros Ha Hb E.
  assert (k = 0) by lia. subst k. lia.
Qed.

Lemma wrap_congr (a b k : Z) : a = b + k * modulus -> wrap a = wrap b.
Proof.
  intros ->. unfold wrap.
  replace (b + k * modulus + half_modulus) with (b + half_modulus + k * modulus) by ring.
  now rewrite Z.mod_add by (unfold modulus; lia).
Qed.

Lemma wrap_add_l (a b : Z) : wrap (wrap a + b) = wrap (a + b).
Proof.
  destruct (wrap_shift a) as [k Hk]. apply (wrap_congr _ _ k). lia.
Qed.

Lemma wrap_add_ll (a b c : Z) : wrap (wrap a + b + c) = wrap (a + b + c).
Proof.
  destruct (wrap_shift a) as [k Hk]. apply (wrap_congr _ _ k). lia.
Qed.

Lemma wrap_add_r (a b : Z) : wrap (a + wrap b) = wrap (a + b).
Proof.
  destruct (wrap_shift b) as [k Hk]. apply (wrap_congr _ _ k). lia.
Qed.

Lemma wrap_sub_l (a b : Z) : wrap (wrap a - b) = wrap (a - b).
Proof.
  destruct (wrap_shift a) as [k Hk]. apply (wrap_congr _ _ k). lia.
Qed.

Lemma wrap_sub_r (a b : Z) : wrap (a - wrap b) = wrap (a - b).
Proof.
  destruct (wrap_shift b) as [k Hk]. apply (wrap_congr _ _ (- k)). lia.
Qed.

Lemma wrap_mul_l (a b : Z) : wrap (wrap a * b) = wrap (a * b).
Proof.
  destruct (wrap_shift a) as [k Hk]. apply (wrap_congr _ _ (k * b)).
  rewrite Hk. ring.
Qed.

Lemma wrap_mul_r (a b : Z) : wrap (a * wrap b) = wrap (a * b).
Proof.
  destruct (wrap_shift b) as [k Hk]. apply (wrap_congr _ _ (a * k)).
  rewrite Hk. ring.
Qed.

Lemma add_exact (a b : Z) : in_int (a + b) -> add a b = a + b.
Proof. apply wrap_id. Qed.

Lemma sub_exact (a b : Z) : in_int (a - b) -> sub a b = a - b.
Proof. apply wrap_id. Qed.

Lemma mul_exact (a b : Z) : in_int (a * b) -> mul a b = a * b.
Proof. apply wrap_id. Qed.

(** A truncated quotient by a positive divisor stays between 0 and the
    dividend. *)
Lemma quot_between (a b : Z) :
  0 < b -> (0 <= a -> 0 <= Z.quot a b <= a) /\ (a <= 0 -> a <= Z.quot a b <= 0).
Proof.
  intros Hb. split; intros Ha.
  - rewrite Z.quot_div_nonneg by lia. split.
    + apply Z.div_pos; lia.
    + apply Z.div_le_upper_bound; nia.
  - replace a with (- (- a)) at 2 3 by lia.
    rewrite Z.quot_opp_l by lia.
    rewrite Z.quot_div_nonneg by lia.
    assert (0 <= - a / b) by (apply Z.div_pos; lia).
    assert (- a / b <= - a) by (apply Z.div_le_upper_bound; nia).
    lia.
Qed.

Lemma quot_in_int (a b : Z) : in_int a -> 0 < b -> in_int (Z.quot a b).
Proof.
  unfold in_int. intros Ha Hb.
  destruct (quot_between a b Hb) as [Hp Hn].
  destruct (Z.le_gt_cases 0 a); [specialize (Hp ltac:(lia)) | specialize (Hn ltac:(lia))];
    unfold min_int, max_int, half_modulus in *; lia.
Qed.

Lemma quo_lit_2 (a : Z) : in_int a -> quo_lit a 2 = Z.quot a 2.
Proof. intros Ha. apply wrap_id, quot_in_int; [assumption | lia]. Qed.

Lemma half_bounds (a : Z) : 0 < a -> 0 <= Z.quot a 2 < a.
Proof.
  intros Ha. rewrite Z.quot_div_nonneg by lia. split.
  - apply Z.div_pos; lia.
  - apply Z.div_lt; lia.
Qed.

End GoIntFacts.

(** ** The coordinate mapper *)

Section Mapper.
Import GoIntFacts.

Lemma quo_positive_divisor (a b : Z) :
  in_int a -> 0 < b -> quo a b = Returns (Z.quot a b).
Proof.
  intros Ha Hb. unfold quo.
  destruct (Z.eqb_spec b 0) as [E | _]; [lia |].
  now rewrite wrap_id by (apply quot_in_int; assumption).
Qed.

(** The guard [if columnsPerRow == 0] of the code agrees with the
    specification's [max(1, _)] exactly on the non-negative quotients. *)
Lemma guard_is_max (q : Z) : 0 <= q -> (if q =? 0 then 1 else q) = Z.max 1 q.
Proof. intros Hq. destruct (Z.eqb_spec q 0); lia. Qed.

Lemma columnsPerRow_spec_pos (W cs : Z) : 1 <= columnsPerRow_spec W cs.
Proof. unfold columnsPerRow_spec. lia. Qed.

(** For a non-negative width the columns fit in the width, unless there is
    only the one column the guard forces. *)
Lemma columnsPerRow_spec_fits (W cs : Z) :
  0 <= W -> 0 < cs ->
  columnsPerRow_spec W cs = 1 \/ columnsPerRow_spec W cs * cs <= W.
Proof.
  intros HW Hcs. unfold columnsPerRow_spec.
  rewrite Z.quot_div_nonneg by lia.
  destruct (Z.max_spec 1 (W / cs)) as [[_ ->] | [_ ->]]; [right | now left].
  pose proof (Z.mul_div_le W cs Hcs). lia.
Qed.

(** What [CellToPixel] computes for a valid index and a non-negative
    width, before the two coordinates are reduced into [int]. *)
Lemma CellToPixel_unfolded (idx W cs : Z) :
  in_int idx -> in_int W -> in_int cs -> 0 <= idx -> 0 < cs -> 0 <= W ->
  CellToPixel idx W cs =
  Returns (wrap (fst (CellToPixel_spec idx W cs)),
           wrap (snd (CellToPixel_spec idx W cs)), None).
Proof.
  intros Hidx HW Hcs Hidx0 Hcs0 HW0. unfold CellToPixel.
  destruct (Z.ltb_spec idx 0) as [? | _]; [lia |].
  rewrite quo_positive_divisor by assumption. cbn [bind].
  assert (Hq : 0 <= Z.quot W cs) by (apply quot_between; lia).
  rewrite guard_is_max by assumption.
  fold (columnsPerRow_spec W cs).
  pose proof (columnsPerRow_spec_pos W cs) as Hc.
  unfold rem. destruct (Z.eqb_spec (columnsPerRow_spec W cs) 0) as [? | _]; [lia |].
  cbn [bind]. rewrite quo_positive_divisor by (assumption || lia). cbn [bind].
  rewrite Z.rem_mod_nonneg by lia.
  unfold CellToPixel_spec, add, mul. cbn [fst snd].
  rewrite quo_lit_2 by assumption.
  now rewrite !wrap_add_l.
Qed.

(** The x coordinate never overflows for a non-negative width. *)
Lemma CellToPixel_spec_x_bounds (idx W cs : Z) :
  in_int W -> in_int cs -> 0 <= idx -> 0 < cs -> 0 <= W ->
  0 <= fst (CellToPixel_spec idx W cs) <= max_int.
Proof.
  intros HW Hcs Hidx0 Hcs0 HW0. unfold CellToPixel_spec. cbn [fst].
  pose proof (columnsPerRow_spec_pos W cs) as Hc.
  pose proof (Z.mod_pos_bound idx (columnsPerRow_spec W cs) ltac:(lia)) as Hm.
  pose proof (half_bounds cs Hcs0) as Hh.
  unfold in_int, min_int, max_int, half_modulus in *.
  destruct (columnsPerRow_spec_fits W cs HW0 Hcs0) as [E | Hfit].
  - rewrite E in *. assert (idx mod 1 = 0) by lia. lia.
  - nia.
Qed.

Lemma CellToPixel_spec_y_nonneg (idx W cs : Z) :
  0 <= idx -> 0 < cs -> 0 <= snd (CellToPixel_spec idx W cs).
Proof.
  intros Hidx0 Hcs0. unfold CellToPixel_spec. cbn [snd].
  pose proof (columnsPerRow_spec_pos W cs) as Hc.
  pose proof (half_bounds cs Hcs0) as Hh.
  assert (0 <= Z.quot idx (columnsPerRow_spec W cs)) by (apply quot_between; lia).
  nia.
Qed.

Lemma CellToPixel_exact (idx W cs : Z) :
  in_int idx -> in_int W -> in_int cs -> 0 <= idx -> 0 < cs -> 0 <= W ->
  snd (CellToPixel_spec idx W cs) <= max_int ->
  CellToPixel idx W cs = Returns (CellToPixel_spec idx W cs, None).
Proof.
  intros Hidx HW Hcs Hidx0 Hcs0 HW0 Hy.
  rewrite CellToPixel_unfolded by assumption.
  pose proof (CellToPixel_spec_x_bounds idx W cs HW Hcs Hidx0 Hcs0 HW0) as Hx.
  pose proof (CellToPixel_spec_y_nonneg idx W cs Hidx0 Hcs0) as Hy0.
  rewrite !wrap_id by (unfold in_int, min_int, max_int, half_modulus in *; lia).
  now destruct (CellToPixel_spec idx W cs).
Qed.

End Mapper.

Section MapperClaims.
Import GoIntFacts.

Lemma guard_nonzero (q : Z) : (if q =? 0 then 1 else q) <> 0.
Proof. destruct (Z.eqb_spec q 0); lia. Qed.

Lemma quo_returns (a b : Z) : b <> 0 -> quo a b = Returns (wrap (Z.quot a b)).
Proof. intros Hb. unfold quo. now destruct (Z.eqb_spec b 0). Qed.

Lemma rem_returns (a b : Z) : b <> 0 -> rem a b = Returns (Z.rem a b).
Proof. intros Hb. unfold rem. now destruct (Z.eqb_spec b 0). Qed.

(** With a non-zero cell size [PixelToCell] returns, for all arguments. *)
Lemma PixelToCell_returns (x y W cs : Z) :
  cs <> 0 ->
  PixelToCell x y W cs =
  Returns (add (mul (wrap (Z.quot y cs))
                    (if wrap (Z.quot W cs) =? 0 then 1 else wrap (Z.quot W cs)))
               (wrap (Z.quot x cs))).
Proof.
  intros Hcs. unfold PixelToCell. now rewrite !quo_returns by assumption.
Qed.

(** With a non-zero cell size and a valid index [CellToPixel] returns
    coordinates and no error. *)
Lemma CellToPixel_returns (idx W cs : Z) :
  cs <> 0 -> 0 <= idx ->
  exists x y, CellToPixel idx W cs = Returns (x, y, None).
Proof.
  intros Hcs Hidx. unfold CellToPixel.
  destruct (Z.ltb_spec idx 0) as [? | _]; [lia |].
  rewrite quo_returns by assumption. cbn [bind].
  rewrite rem_returns by apply guard_nonzero. cbn [bind].
  rewrite quo_returns by apply guard_nonzero. cbn [bind].
  eauto.
Qed.

Lemma CellToPixel_negative (idx W cs : Z) :
  idx < 0 ->
  CellToPixel idx W cs =
  Returns (0, 0, Some ("invalid cell number: " ++ Sprintf_d idx)%string).
Proof.
  intros Hidx. unfold CellToPixel.
  destruct (Z.ltb_spec idx 0) as [_ | ?]; [reflexivity | lia].
Qed.

(** For a negative width the x coordinate is still non-negative. *)
Lemma CellToPixel_negative_width_x (idx W cs x y : Z) (e : option string) :
  in_int idx -> in_int W -> in_int cs -> 0 <= idx -> 0 < cs -> W < 0 ->
  CellToPixel idx W cs = Returns (x, y, e) -> 0 <= x.
Proof.
  intros Hidx HW Hcs Hidx0 Hcs0 HW0. unfold CellToPixel.
  destruct (Z.ltb_spec idx 0) as [? | _]; [lia |].
  rewrite quo_positive_divisor by assumption. cbn [bind].
  rewrite rem_returns by apply guard_nonzero. cbn [bind].
  rewrite quo_returns by apply guard_nonzero. cbn [bind].
  intros [= <- _ _].
  unfold add, mul. rewrite wrap_add_l, quo_lit_2 by assumption.
  pose proof (half_bounds cs Hcs0) as Hh.
  destruct (quot_between W cs Hcs0) as [_ Hq]. specialize (Hq ltac:(lia)).
  assert (Hfit : - Z.quot W cs * cs <= - W).
  { replace W with (- (- W)) at 1 by lia.
    rewrite Z.quot_opp_l, Z.opp_involutive by lia.
    rewrite Z.quot_div_nonneg by lia.
    pose proof (Z.mul_div_le (- W) cs Hcs0). lia. }
  set (q := Z.quot W cs) in *.
  assert (Hr : 0 <= Z.rem idx (if q =? 0 then 1 else q) /\
               (Z.rem idx (if q =? 0 then 1 else q) + 1) * cs <= Z.max cs (- q * cs)).
  { destruct (Z.eqb_spec q 0) as [E | NE].
    - rewrite Z.rem_1_r. lia.
    - replace q with (- (- q)) at 1 2 by lia. rewrite Z.rem_opp_r by lia.
      pose proof (Z.rem_bound_pos idx (- q) Hidx0 ltac:(lia)). nia. }
  destruct Hr as [Hr0 Hr1].
  rewrite wrap_id; [nia |].
  unfold in_int, min_int, max_int, half_modulus in *. nia.
Qed.

End MapperClaims.

Section MapperTheorems.
Import GoIntFacts.

(** Claim C3, amended.  For a valid index, a positive cell size and a
    non-negative image width, [CellToPixel] returns exactly the pair of the
    specification's formula, [(col*cellSize + cellSize/2, row*cellSize +
    cellSize/2)] with [columnsPerRow = max(1, imageWidth / cellSize)], as long
    as the y coordinate of that formula fits an [int]; and it returns (25, 25),
    (75, 25) and (25, 75) for the cells 0, 1 and 2 of a width of 100 and a
    cell size of 50. *)
Theorem CellToPixel_formula :
  (forall idx W cs : Z,
      in_int idx -> in_int W -> in_int cs ->
      0 <= idx -> 0 < cs -> 0 <= W ->
      snd (CellToPixel_spec idx W cs) <= max_int ->
      CellToPixel idx W cs = Returns (CellToPixel_spec idx W cs, None)) /\
  CellToPixel 0 100 50 = Returns (25, 25, None) /\
  CellToPixel 1 100 50 = Returns (75, 25, None) /\
  CellToPixel 2 100 50 = Returns (25, 75, None).
Proof.
  split; [exact CellToPixel_exact | repeat split; reflexivity].
Qed.

Lemma CellToPixel_formula_witness :
  CellToPixel 13 600 100 = Returns (CellToPixel_spec 13 600 100, None).
Proof.
  apply (proj1 CellToPixel_formula 13 600 100);
    unfold in_int, min_int, max_int, half_modulus; cbn; lia.
Defined.

(** Claim C3 as stated fails: with a negative image width the code keeps the
    negative quotient as [columnsPerRow] (only a zero quotient is replaced by
    1), and for a large index the y coordinate wraps around. *)
Lemma CellToPixel_formula_counterexample :
  CellToPixel 3 (-200) 100 <> Returns (CellToPixel_spec 3 (-200) 100, None) /\
  CellToPixel 4611686018427387904 100 50
    <> Returns (CellToPixel_spec 4611686018427387904 100 50, None).
Proof. split; vm_compute; discriminate. Qed.

Lemma PixelToCell_exact (x y W cs : Z) :
  in_int x -> in_int y -> in_int W -> in_int cs ->
  0 < cs -> 0 <= W ->
  in_int (PixelToCell_spec x y W cs) ->
  PixelToCell x y W cs = Returns (PixelToCell_spec x y W cs).
Proof.
  intros Hx Hy HW Hcs Hcs0 HW0 Hres.
  rewrite PixelToCell_returns by lia.
  rewrite !wrap_id by (apply quot_in_int; assumption).
  rewrite guard_is_max by (apply quot_between; lia).
  fold (columnsPerRow_spec W cs).
  unfold add, mul. rewrite wrap_add_l. fold (PixelToCell_spec x y W cs).
  now rewrite wrap_id.
Qed.

(** Claim C4, amended.  [PixelToCell] has no error result; for every [x], [y]
    (negative ones included, and [x] beyond the width), every positive cell
    size and every non-negative image width it returns
    [row*columnsPerRow + col] with [columnsPerRow = max(1, imageWidth /
    cellSize)], [col = x / cellSize], [row = y / cellSize] (truncated), as long
    as that number fits an [int]; and [PixelToCell(250, 150, 600, 100) = 8]. *)
Theorem PixelToCell_formula :
  (forall x y W cs : Z,
      in_int x -> in_int y -> in_int W -> in_int cs ->
      0 < cs -> 0 <= W ->
      in_int (PixelToCell_spec x y W cs) ->
      PixelToCell x y W cs = Returns (PixelToCell_spec x y W cs)) /\
  PixelToCell 250 150 600 100 = Returns 8.
Proof.
  split; [exact PixelToCell_exact | reflexivity].
Qed.

Lemma PixelToCell_formula_witness :
  PixelToCell (-250) 150 600 100 = Returns (PixelToCell_spec (-250) 150 600 100).
Proof.
  apply (proj1 PixelToCell_formula (-250) 150 600 100);
    unfold in_int, min_int, max_int, half_modulus; cbn; lia.
Defined.

(** Claim C4 as stated fails: for a negative image width the code's
    [columnsPerRow] is the negative quotient, not 1, and for a large row the
    product wraps around. *)
Lemma PixelToCell_formula_counterexample :
  PixelToCell 0 100 (-200) 100 <> Returns (PixelToCell_spec 0 100 (-200) 100) /\
  PixelToCell 0 9223372036854775807 2 1
    <> Returns (PixelToCell_spec 0 9223372036854775807 2 1).
Proof. split; vm_compute; discriminate. Qed.

(** Claim C10.  With a cell size of at least 1, [CellToPixel] and
    [PixelToCell] return for all values of their other arguments: no division
    or remainder panics, the divisors being the cell size and a
    [columnsPerRow] that is never zero. *)
Theorem mappers_never_divide_by_zero (idx x y W cs : Z) :
  1 <= cs ->
  (exists r, CellToPixel idx W cs = Returns r) /\
  (exists n, PixelToCell x y W cs = Returns n) /\
  (forall q, (if q =? 0 then 1 else q) <> 0).
Proof.
  intros Hcs. split; [| split].
  - destruct (Z.lt_ge_cases idx 0) as [Hneg | Hge].
    + rewrite CellToPixel_negative by assumption. eauto.
    + destruct (CellToPixel_returns idx W cs ltac:(lia) Hge) as (px & py & E).
      eauto.
  - rewrite PixelToCell_returns by lia. eauto.
  - apply guard_nonzero.
Qed.

Lemma mappers_never_divide_by_zero_witness :
  (exists r, CellToPixel 7 0 1 = Returns r) /\
  (exists n, PixelToCell (-3) 5 0 1 = Returns n).
Proof.
  destruct (mappers_never_divide_by_zero 7 (-3) 5 0 1 ltac:(lia)) as (H1 & H2 & _).
  exact (conj H1 H2).
Defined.

(** Claim C2, amended.  If [CellToPixel] succeeds on a non-negative index
    with a pixel whose [x] lies below the image width, and the y coordinate of
    the formula did not overflow, then [PixelToCell] maps that pixel back to
    the index. *)
Theorem round_trip (idx W cs x y : Z) :
  in_int idx -> in_int W -> in_int cs ->
  0 <= idx -> 0 < cs ->
  CellToPixel idx W cs = Returns (x, y, None) ->
  x < W ->
  snd (CellToPixel_spec idx W cs) <= max_int ->
  PixelToCell x y W cs = Returns idx.
Proof.
  intros Hidx HW Hcs Hidx0 Hcs0 E Hx Hy.
  destruct (Z.lt_ge_cases W 0) as [Hneg | HW0].
  { pose proof (CellToPixel_negative_width_x idx W cs x y None
                  Hidx HW Hcs Hidx0 Hcs0 Hneg E). lia. }
  rewrite CellToPixel_exact in E by assumption.
  pose proof (CellToPixel_spec_x_bounds idx W cs HW Hcs Hidx0 Hcs0 HW0) as Hxb.
  pose proof (CellToPixel_spec_y_nonneg idx W cs Hidx0 Hcs0) as Hy0.
  unfold CellToPixel_spec in *. cbn [fst snd] in *.
  injection E as Ex Ey.
  pose proof (columnsPerRow_spec_pos W cs) as Hc.
  set (c := columnsPerRow_spec W cs) in *.
  pose proof (half_bounds cs Hcs0) as Hh.
  pose proof (Z.mod_pos_bound idx c ltac:(lia)) as Hm.
  assert (Hrow : 0 <= Z.quot idx c) by (apply quot_between; lia).
  assert (Hqx : Z.quot x cs = idx mod c).
  { rewrite Z.quot_div_nonneg by lia. symmetry.
    apply (Z.div_unique_pos x cs (idx mod c) (Z.quot cs 2)); lia. }
  assert (Hqy : Z.quot y cs = Z.quot idx c).
  { rewrite Z.quot_div_nonneg by lia. symmetry.
    apply (Z.div_unique_pos y cs (Z.quot idx c) (Z.quot cs 2)); lia. }
  rewrite PixelToCell_exact; try assumption.
  - f_equal. unfold PixelToCell_spec. fold c. rewrite Hqx, Hqy.
    rewrite Z.quot_div_nonneg by lia.
    pose proof (Z.div_mod idx c ltac:(lia)). lia.
  - subst x. unfold in_int, min_int, max_int, half_modulus in *. lia.
  - subst y. unfold in_int, min_int, max_int, half_modulus in *. lia.
  - unfold PixelToCell_spec. fold c. rewrite Hqx, Hqy.
    rewrite Z.quot_div_nonneg by lia.
    pose proof (Z.div_mod idx c ltac:(lia)).
    replace (idx / c * c + idx mod c) with idx by lia. assumption.
Qed.

Lemma round_trip_witness : PixelToCell 150 250 600 100 = Returns 13.
Proof.
  apply (round_trip 13 600 100 150 250);
    try (unfold in_int, min_int, max_int, half_modulus; cbn; lia);
    reflexivity.
Defined.

(** Claim C2 as stated fails: for the index 2^62, a width of 100 and a cell
    size of 50, [CellToPixel] succeeds with [x = 25 < 100], its [y] has
    wrapped around, and [PixelToCell] does not give the index back. *)
Lemma round_trip_counterexample :
  exists x y,
    CellToPixel 4611686018427387904 100 50 = Returns (x, y, None) /\
    x < 100 /\
    PixelToCell x y 100 50 <> Returns 4611686018427387904.
Proof.
  exists 25, 4611686018427387929. repeat split.
  vm_compute. discriminate.
Qed.

End MapperTheorems.

(** ** Loops *)

Section LoopFacts.
Context {St : Type}.
Variables (cond : Z -> bool) (post : Z -> Z) (body : Z -> St -> outcome St).

(** A loop whose counter runs through [f 0, f 1, ..., f n] and whose body
    always returns is a fold over the [n] rounds, given fuel for them. *)
Lemma for_loop_unroll (g : Z -> St -> St) (n : nat) :
  forall (f : nat -> Z) (fuel : nat) (s : St),
    (forall k, (k < n)%nat -> cond (f k) = true) ->
    (forall k, (k < n)%nat -> post (f k) = f (S k)) ->
    cond (f n) = false ->
    (forall k s', (k < n)%nat -> body (f k) s' = Returns (g (f k) s')) ->
    (n < fuel)%nat ->
    for_loop fuel cond post body (f 0%nat) s =
    Returns (fold_left (fun s' k => g (f k) s') (seq 0 n) s).
Proof.
  induction n as [| n IH]; intros f fuel s Hc Hp Hend Hb Hfuel.
  - destruct fuel as [| fuel]; [lia |]. cbn. now rewrite Hend.
  - destruct fuel as [| fuel]; [lia |]. cbn [for_loop].
    rewrite Hc, Hb by lia. cbn [bind]. rewrite Hp by lia.
    rewrite (IH (fun k => f (S k))).
    + cbn [seq fold_left]. rewrite <- seq_shift.
      f_equal. generalize (g (f 0%nat) s). generalize (seq 0 n).
      intros l. induction l as [| a l IHl]; intros s0; [reflexivity |].
      cbn. apply IHl.
    + intros k Hk. apply Hc. lia.
    + intros k Hk. apply Hp. lia.
    + assumption.
    + intros k s' Hk. apply Hb. lia.
    + lia.
Qed.

(** The same loop with too little fuel does not return. *)
Lemma for_loop_starved (g : Z -> St -> St) (n : nat) :
  forall (f : nat -> Z) (fuel : nat) (s : St),
    (forall k, (k < n)%nat -> cond (f k) = true) ->
    (forall k, (k < n)%nat -> post (f k) = f (S k)) ->
    (forall k s', (k < n)%nat -> body (f k) s' = Returns (g (f k) s')) ->
    (fuel <= n)%nat ->
    for_loop fuel cond post body (f 0%nat) s = OutOfFuel.
Proof.
  induction n as [| n IH]; intros f fuel s Hc Hp Hb Hfuel.
  - assert (fuel = 0%nat) by lia. now subst.
  - destruct fuel as [| fuel]; [reflexivity |]. cbn [for_loop].
    rewrite Hc, Hb by lia. cbn [bind]. rewrite Hp by lia.
    apply (IH (fun k => f (S k))).
    + intros k Hk. apply Hc. lia.
    + intros k Hk. apply Hp. lia.
    + intros k s' Hk. apply Hb. lia.
    + lia.
Qed.

(** The first round of a loop that has fuel. *)
Lemma for_loop_first (fuel : nat) (i : Z) (s : St) :
  (0 < fuel)%nat ->
  for_loop fuel cond post body i s =
  if cond i then
    s' <- body i s ;; for_loop (Nat.pred fuel) cond post body (post i) s'
  else Returns s.
Proof. destruct fuel; [lia | reflexivity]. Qed.

End LoopFacts.

Section CeilDiv.

Lemma ceil_div_gt (a b k : Z) : 0 < b -> k < ceil_div a b <-> k * b < a.
Proof.
  intros Hb. unfold ceil_div. split; intros H.
  - assert (Hle : k + 1 <= (a + b - 1) / b) by lia.
    pose proof (Z.mul_div_le (a + b - 1) b Hb). nia.
  - assert (k + 1 <= (a + b - 1) / b); [| lia].
    apply Z.div_le_lower_bound; [assumption | nia].
Qed.

Lemma ceil_div_reaches (a b : Z) : 0 < b -> a <= ceil_div a b * b.
Proof.
  intros Hb. destruct (Z.le_gt_cases a (ceil_div a b * b)); [assumption |].
  assert (ceil_div a b < ceil_div a b) by (apply ceil_div_gt; assumption). lia.
Qed.

Lemma ceil_div_nonneg (a b : Z) : 0 < b -> 0 <= a -> 0 <= ceil_div a b.
Proof.
  intros Hb Ha. unfold ceil_div. apply Z.div_pos; lia.
Qed.

Lemma ceil_div_le (a b : Z) : 0 < b -> 0 <= a -> ceil_div a b <= a.
Proof.
  intros Hb Ha. destruct (Z.le_gt_cases (ceil_div a b) a); [assumption |].
  assert (a * b < a) by (apply ceil_div_gt; assumption). nia.
Qed.

Lemma ceil_div_one (a b : Z) : 0 < a -> a <= b -> ceil_div a b = 1.
Proof.
  intros Ha Hb.
  assert (0 < ceil_div a b) by (apply ceil_div_gt; lia).
  assert (~ 1 < ceil_div a b) by (rewrite ceil_div_gt by lia; lia).
  lia.
Qed.

End CeilDiv.

(** ** The errors of [CellToPixel] *)

Section MapperErrors.
Import GoIntFacts.

(** Claim C5, amended.  With a cell size other than zero, [CellToPixel]
    returns an error exactly when the cell index is negative: every negative
    index gives the error "invalid cell number", every non-negative index,
    however large, gives coordinates and no error.  For a positive cell size,
    a non-negative width and an index whose y coordinate does not overflow,
    the coordinates are those of the formula, and the y coordinate is at or
    beyond the height [H] of an image as soon as the index is at least
    [columnsPerRow * ceil(H/cellSize)]. *)
Theorem CellToPixel_error_iff_negative (idx W cs : Z) :
  cs <> 0 ->
  (idx < 0 ->
   CellToPixel idx W cs =
   Returns (0, 0, Some ("invalid cell number: " ++ Sprintf_d idx)%string)) /\
  (0 <= idx -> exists x y, CellToPixel idx W cs = Returns (x, y, None)) /\
  ((exists x y msg, CellToPixel idx W cs = Returns (x, y, Some msg)) <-> idx < 0) /\
  (forall H,
      in_int idx -> in_int W -> in_int cs ->
      0 <= idx -> 0 < cs -> 0 <= W ->
      snd (CellToPixel_spec idx W cs) <= max_int ->
      columnsPerRow_spec W cs * ceil_div H cs <= idx ->
      exists x y,
        CellToPixel idx W cs = Returns (x, y, None) /\
        (x, y) = CellToPixel_spec idx W cs /\
        H <= y).
Proof.
  intros Hcs. split; [apply CellToPixel_negative |].
  split; [apply CellToPixel_returns; assumption |].
  split.
  - split.
    + intros (x & y & msg & E).
      destruct (Z.lt_ge_cases idx 0) as [? | Hge]; [assumption |].
      destruct (CellToPixel_returns idx W cs Hcs Hge) as (x' & y' & E').
      congruence.
    + intros Hneg. rewrite CellToPixel_negative by assumption. eauto.
  - intros H Hidx HW Hcsi Hidx0 Hcs0 HW0 Hfit Hbig.
    exists (fst (CellToPixel_spec idx W cs)), (snd (CellToPixel_spec idx W cs)).
    split; [| split].
    + rewrite CellToPixel_exact by assumption.
      now destruct (CellToPixel_spec idx W cs).
    + now destruct (CellToPixel_spec idx W cs).
    + unfold CellToPixel_spec. cbn [snd].
      pose proof (columnsPerRow_spec_pos W cs) as Hc.
      set (c := columnsPerRow_spec W cs) in *.
      rewrite Z.quot_div_nonneg by lia.
      assert (Hrow : ceil_div H cs <= idx / c)
        by (apply Z.div_le_lower_bound; lia).
      pose proof (ceil_div_reaches H cs Hcs0) as Hreach.
      pose proof (half_bounds cs Hcs0) as Hhalf.
      assert (ceil_div H cs * cs <= idx / c * cs)
        by (apply Z.mul_le_mono_nonneg_r; lia).
      lia.
Qed.

Lemma CellToPixel_error_iff_negative_witness :
  CellToPixel (-1) 600 (-100)
  = Returns (0, 0, Some "invalid cell number: -1"%string) /\
  (exists x y, CellToPixel 9223372036854775807 600 100 = Returns (x, y, None)) /\
  (exists x y,
      CellToPixel 24 600 100 = Returns (x, y, None) /\
      (x, y) = CellToPixel_spec 24 600 100 /\ 400 <= y).
Proof.
  split; [| split].
  - apply (CellToPixel_error_iff_negative (-1) 600 (-100)); lia.
  - apply (CellToPixel_error_iff_negative 9223372036854775807 600 100); lia.
  - apply (CellToPixel_error_iff_negative 24 600 100 ltac:(lia));
      try (unfold in_int, min_int, max_int, half_modulus; cbn; lia).
Defined.

(** Claim C5 as stated fails twice.  With a cell size of zero a valid index
    neither fails with the error nor succeeds: the division panics.  And a
    large index can yield a coordinate inside a real image: for the index
    2^62, a width of 60 and a cell size of 100 the y coordinate wraps around
    to 50, and the result is the centre (50, 50) of cell 0. *)
Lemma CellToPixel_error_iff_negative_counterexample :
  CellToPixel 0 600 0 = Panics "runtime error: integer divide by zero" /\
  CellToPixel 4611686018427387904 60 100 = Returns (50, 50, None) /\
  CellToPixel 0 60 100 = Returns (50, 50, None).
Proof. repeat split; reflexivity. Qed.

End MapperErrors.

(** ** The numbering loop *)

Section Numbering.
Import GoIntFacts.
Variable config : Config.
Variables width height : Z.

Local Abbreviation cs := (CellSize config).

(** The rounds of a loop [for g := 0; g*cs < limit; g++] when the guard does
    not overflow: [g] runs through [0 .. ceil(limit/cs) - 1]. *)
Lemma index_guard_true (limit : Z) (k : nat) :
  0 < cs -> in_int limit ->
  (k < Z.to_nat (ceil_div limit cs))%nat ->
  (mul (Z.of_nat k) cs <? limit) = true.
Proof.
  intros Hcs Hl Hk.
  assert (Hlt : Z.of_nat k * cs < limit) by (apply ceil_div_gt; lia).
  rewrite mul_exact by (unfold in_int, min_int, max_int, half_modulus in *; nia).
  now apply Z.ltb_lt.
Qed.

Lemma index_guard_false (limit : Z) :
  0 < cs -> 0 <= limit ->
  ceil_div limit cs * cs <= max_int ->
  (mul (Z.of_nat (Z.to_nat (ceil_div limit cs))) cs <? limit) = false.
Proof.
  intros Hcs Hl Hfit.
  pose proof (ceil_div_nonneg limit cs Hcs Hl) as Hn.
  pose proof (ceil_div_reaches limit cs Hcs) as Hr.
  rewrite Z2Nat.id by assumption.
  rewrite mul_exact by (unfold in_int, min_int, max_int, half_modulus in *; nia).
  now apply Z.ltb_ge.
Qed.

Lemma index_step (limit : Z) (k : nat) :
  0 < cs -> 0 <= limit -> in_int limit ->
  (k < Z.to_nat (ceil_div limit cs))%nat ->
  add (Z.of_nat k) 1 = Z.of_nat (S k).
Proof.
  intros Hcs Hl0 Hl Hk.
  pose proof (ceil_div_le limit cs Hcs Hl0).
  rewrite add_exact by (unfold in_int, min_int, max_int, half_modulus in *; lia).
  lia.
Qed.

(** One row of the numbering loop, as a fold over its columns. *)
Lemma number_row_unroll (fuel : nat) (gridY : Z) (st : numbering) :
  0 < cs -> 0 <= width -> in_int width ->
  ceil_div width cs * cs <= max_int ->
  (Z.to_nat (ceil_div width cs) < fuel)%nat ->
  for_loop fuel (fun gridX => mul gridX cs <? width) (fun gridX => add gridX 1)
    (fun gridX st => Returns (number_cell config width height gridX gridY st))
    0 st =
  Returns (fold_left
             (fun st k => number_cell config width height (Z.of_nat k) gridY st)
             (seq 0 (Z.to_nat (ceil_div width cs))) st).
Proof.
  intros Hcs Hw0 Hw Hfit Hfuel.
  apply (for_loop_unroll _ _ _
           (fun gridX st => number_cell config width height gridX gridY st)
           (Z.to_nat (ceil_div width cs)) Z.of_nat).
  - intros k Hk. now apply index_guard_true.
  - intros k Hk. now apply (index_step width).
  - now apply index_guard_false.
  - reflexivity.
  - assumption.
Qed.

(** The whole numbering loop, as a fold over the rows of folds over the
    columns. *)
Lemma number_cells_unroll (fuel : nat) (ov : Canvas) :
  0 < cs ->
  0 <= width -> in_int width -> ceil_div width cs * cs <= max_int ->
  0 <= height -> in_int height -> ceil_div height cs * cs <= max_int ->
  (Z.to_nat (ceil_div width cs) < fuel)%nat ->
  (Z.to_nat (ceil_div height cs) < fuel)%nat ->
  number_cells fuel config width height ov =
  Returns (fold_left
             (fun st r =>
                fold_left
                  (fun st k =>
                     number_cell config width height (Z.of_nat k) (Z.of_nat r) st)
                  (seq 0 (Z.to_nat (ceil_div width cs))) st)
             (seq 0 (Z.to_nat (ceil_div height cs)))
             {| overlay := ov; cellNumber := 0; visited := [] |}).
Proof.
  intros Hcs Hw0 Hw Hwfit Hh0 Hh Hhfit Hfw Hfh.
  unfold number_cells.
  apply (for_loop_unroll _ _ _
           (fun gridY st =>
              fold_left
                (fun st k => number_cell config width height (Z.of_nat k) gridY st)
                (seq 0 (Z.to_nat (ceil_div width cs))) st)
           (Z.to_nat (ceil_div height cs)) Z.of_nat).
  - intros k Hk. now apply index_guard_true.
  - intros k Hk. now apply (index_step height).
  - now apply index_guard_false.
  - intros k st Hk. now apply number_row_unroll.
  - assumption.
Qed.

(** Each round adds one to the counter and one entry to the history. *)
Lemma number_row_count (gridY : Z) (l : list nat) (st : numbering) :
  let st' := fold_left
               (fun st k => number_cell config width height (Z.of_nat k) gridY st)
               l st in
  wrap (cellNumber st') = wrap (cellNumber st + Z.of_nat (List.length l)) /\
  List.length (visited st') = (List.length (visited st) + List.length l)%nat.
Proof.
  revert st. induction l as [| k l IH]; intros st; cbn zeta.
  - cbn. split; [f_equal; lia | lia].
  - cbn [fold_left List.length]. destruct (IH (number_cell config width height (Z.of_nat k) gridY st)) as [IHc IHv].
    cbn zeta in IHc, IHv. rewrite IHc, IHv. cbn [number_cell cellNumber visited List.length].
    unfold add. rewrite wrap_add_l. split; [f_equal; lia | lia].
Qed.

Lemma number_rows_count (ncols : nat) (rows : list nat) (st : numbering) :
  let st' := fold_left
               (fun st r =>
                  fold_left
                    (fun st k =>
                       number_cell config width height (Z.of_nat k) (Z.of_nat r) st)
                    (seq 0 ncols) st)
               rows st in
  wrap (cellNumber st') =
    wrap (cellNumber st + Z.of_nat (List.length rows) * Z.of_nat ncols) /\
  List.length (visited st') = (List.length (visited st) + List.length rows * ncols)%nat.
Proof.
  revert st. induction rows as [| r rows IH]; intros st; cbn zeta.
  - cbn. split; [f_equal; lia | lia].
  - cbn [fold_left List.length].
    match goal with |- context [fold_left _ rows ?s] => destruct (IH s) as [IHc IHv] end.
    cbn zeta in IHc, IHv. rewrite IHc, IHv.
    destruct (number_row_count (Z.of_nat r) (seq 0 ncols) st) as [Hc Hv].
    cbn zeta in Hc, Hv. rewrite Hv, length_seq.
    rewrite <- wrap_add_l, Hc, wrap_add_l, length_seq.
    split; [f_equal; lia | lia].
Qed.

(** The counter is an [int] throughout. *)
Lemma number_row_in_int (gridY : Z) (l : list nat) (st : numbering) :
  in_int (cellNumber st) ->
  in_int (cellNumber
            (fold_left
               (fun st k => number_cell config width height (Z.of_nat k) gridY st)
               l st)).
Proof.
  revert st. induction l as [| k l IH]; intros st Hst; [assumption |].
  cbn [fold_left]. apply IH. cbn. apply wrap_in_int.
Qed.

Lemma number_rows_in_int (ncols : nat) (rows : list nat) (st : numbering) :
  in_int (cellNumber st) ->
  in_int (cellNumber
            (fold_left
               (fun st r =>
                  fold_left
                    (fun st k =>
                       number_cell config width height (Z.of_nat k) (Z.of_nat r) st)
                    (seq 0 ncols) st)
               rows st)).
Proof.
  revert st. induction rows as [| r rows IH]; intros st Hst; [assumption |].
  cbn [fold_left]. apply IH. now apply number_row_in_int.
Qed.

End Numbering.

Section NumberingTheorems.
Import GoIntFacts.

(** For a positive cell size, a width [W >= 0] and a height [H >= 0], when
    the loop guards and the counter do not overflow (the first multiple of
    the cell size at or beyond each side, and the product of the two counts,
    fit an [int]), the numbering loop returns and has enumerated
    [ceil(H/cellSize) * ceil(W/cellSize)] cells: that is the final value of
    [cellNumber] and the number of rounds made. *)
Lemma number_cells_count (config : Config) (W H : Z) (ov : Canvas) (fuel : nat) :
  0 < CellSize config ->
  0 <= W -> 0 <= H ->
  ceil_div W (CellSize config) * CellSize config <= max_int ->
  ceil_div H (CellSize config) * CellSize config <= max_int ->
  cell_count_spec W H (CellSize config) <= max_int ->
  (Z.to_nat (Z.max W H) < fuel)%nat ->
  exists st,
    number_cells fuel config W H ov = Returns st /\
    cellNumber st = cell_count_spec W H (CellSize config) /\
    Z.of_nat (List.length (visited st)) = cell_count_spec W H (CellSize config).
Proof.
  intros Hcs HW0 HH0 HWfit HHfit Hcount Hfuel.
  pose proof (ceil_div_reaches W _ Hcs) as HWr.
  pose proof (ceil_div_reaches H _ Hcs) as HHr.
  pose proof (ceil_div_le W _ Hcs HW0) as HWle.
  pose proof (ceil_div_le H _ Hcs HH0) as HHle.
  pose proof (ceil_div_nonneg W _ Hcs HW0) as HWn.
  pose proof (ceil_div_nonneg H _ Hcs HH0) as HHn.
  eexists. split.
  - apply number_cells_unroll; try assumption;
      unfold in_int, min_int, max_int, half_modulus in *; lia.
  - match goal with |- context [fold_left ?f ?rows ?s] =>
      destruct (number_rows_count config W H
                  (Z.to_nat (ceil_div W (CellSize config))) rows s) as [Hc Hv];
      pose proof (number_rows_in_int config W H
                    (Z.to_nat (ceil_div W (CellSize config))) rows s) as Hi
    end.
    cbn zeta in Hc, Hv. cbn [cellNumber visited List.length] in Hc, Hv, Hi.
    rewrite length_seq in Hc, Hv.
    specialize (Hi ltac:(unfold in_int, min_int, max_int, half_modulus; lia)).
    rewrite wrap_id in Hc by assumption.
    unfold cell_count_spec in *.
    rewrite wrap_id in Hc
      by (unfold in_int, min_int, max_int, half_modulus in *; nia).
    split; [rewrite Hc | rewrite Hv]; nia.
Qed.

(** The loop guards and the counter of the numbering loop do not overflow
    for any image with pixels whose buffer [image.NewRGBA] can allocate
    ([4*W*H] fits an [int]). *)
Lemma allocatable_image_fits (cs W H : Z) :
  0 < cs -> in_int cs -> 0 < W -> 0 < H -> 4 * W * H <= max_int ->
  ceil_div W cs * cs <= max_int /\
  ceil_div H cs * cs <= max_int /\
  cell_count_spec W H cs <= max_int.
Proof.
  intros Hcs Hcsi HW HH Hfit.
  assert (Hside : forall a, 0 < a -> 2 * a <= max_int -> ceil_div a cs * cs <= max_int).
  { intros a Ha Hb. destruct (Z.le_gt_cases a cs) as [Hle | Hgt].
    - rewrite ceil_div_one by assumption.
      unfold in_int, min_int, max_int, half_modulus in *. lia.
    - assert (Hlast : (ceil_div a cs - 1) * cs < a) by (apply ceil_div_gt; lia).
      lia. }
  pose proof (ceil_div_le W cs Hcs ltac:(lia)).
  pose proof (ceil_div_le H cs Hcs ltac:(lia)).
  pose proof (ceil_div_nonneg W cs Hcs ltac:(lia)).
  pose proof (ceil_div_nonneg H cs Hcs ltac:(lia)).
  unfold cell_count_spec.
  repeat split; try (apply Hside; [assumption |]);
    unfold max_int, half_modulus in *; nia.
Qed.

(** Claim C6, amended.  For an image with positive width and height and a
    cell size at least as large as both, the numbering loop enumerates exactly
    one cell, cell 0, and its label, drawn when the point lies within the
    image, is centred at [(cellSize/2, cellSize/2)]. *)
Theorem single_cell (config : Config) (W H : Z) (ov : Canvas) (fuel : nat) :
  0 < W -> 0 < H ->
  W <= CellSize config -> H <= CellSize config ->
  in_int (CellSize config) ->
  (2 <= fuel)%nat ->
  let c := Z.quot (CellSize config) 2 in
  let drawn := (c <? W) && (c <? H) in
  number_cells fuel config W H ov =
  Returns {| overlay := if drawn then drawLargeNumber ov c c 0 config else ov;
             cellNumber := 1;
             visited := [mkVisit 0 0 c c 0 drawn] |}.
Proof.
  intros HW HH HWc HHc Hcs Hfuel c drawn.
  assert (E1 : ceil_div W (CellSize config) = 1) by (apply ceil_div_one; lia).
  assert (E2 : ceil_div H (CellSize config) = 1) by (apply ceil_div_one; lia).
  pose proof (number_cells_unroll config W H fuel ov) as U.
  rewrite E1, E2 in U.
  rewrite U by (unfold in_int, min_int, max_int, half_modulus in *;
                first [lia | cbn; lia]).
  change (Z.to_nat 1) with 1%nat.
  cbn [seq fold_left].
  unfold number_cell. cbn [overlay cellNumber visited Z.of_nat].
  assert (Ec : add (mul 0 (CellSize config)) (quo_lit (CellSize config) 2) = c).
  { unfold add, mul. cbn [Z.mul]. rewrite wrap_add_l. cbn [Z.add].
    rewrite quo_lit_2 by assumption. apply wrap_id, quot_in_int; [assumption | lia]. }
  rewrite Ec. reflexivity.
Qed.

Lemma single_cell_witness :
  number_cells 2 DefaultConfig 80 60
    {| Rect := mkRect 0 0 80 60; Pix := fun _ _ => transparent; Calls := [] |} =
  Returns {| overlay :=
               drawLargeNumber
                 {| Rect := mkRect 0 0 80 60;
                    Pix := fun _ _ => transparent; Calls := [] |}
                 50 50 0 DefaultConfig;
             cellNumber := 1;
             visited := [mkVisit 0 0 50 50 0 true] |}.
Proof.
  apply (single_cell DefaultConfig 80 60);
    try (unfold in_int, min_int, max_int, half_modulus; cbn; lia).
Defined.

(** Claim C6 as stated fails: in an image of 100 by 100 with a cell size of
    150 the single label is drawn, and centred at (75, 75), not at the centre
    (50, 50) of the image. *)
Lemma single_cell_counterexample :
  rounds_of
    (number_cells 5
       (mkConfig 150 (GridColor DefaultConfig) (NumberColor DefaultConfig)
          (NumberBG DefaultConfig) 2 3)
       100 100
       {| Rect := mkRect 0 0 100 100; Pix := fun _ _ => transparent; Calls := [] |})
  = [mkVisit 0 0 75 75 0 true] /\
  (75, 75) <> (Z.quot 100 2, Z.quot 100 2).
Proof.
  split; [vm_compute; reflexivity | vm_compute; discriminate].
Qed.

(** Claim C1 fails on the code.  On an image of 250 by 200 with the default
    configuration (cell size 100) [AddGrid] numbers three cells per row, the
    third label of each row being skipped; it draws the label 3 at (50, 150),
    and [PixelToCell] maps that point to cell 2. *)
Theorem numbering_disagrees_with_PixelToCell :
  rounds_of
    (AddGrid_canvas 300 (mkImage (mkRect 0 0 250 200) (fun _ _ => transparent))
       DefaultConfig)
  = [mkVisit 0 0 50 50 0 true; mkVisit 1 0 150 50 1 true;
     mkVisit 2 0 250 50 2 false;
     mkVisit 0 1 50 150 3 true; mkVisit 1 1 150 150 4 true;
     mkVisit 2 1 250 150 5 false] /\
  PixelToCell 50 150 250 100 = Returns 2 /\
  CellToPixel 3 250 100 = Returns (150, 150, None).
Proof.
  split; [vm_compute; reflexivity | split; reflexivity].
Qed.

End NumberingTheorems.

(** ** When the two layouts agree *)

Section NumberingConsistency.
Import GoIntFacts.
Variable config : Config.
Variables width height : Z.

Local Abbreviation cs := (CellSize config).

(** The round the numbering loop makes at column [k] of row [r] when the
    counter is [n]. *)
Local Abbreviation round_at k r n :=
  (mkVisit k r
     (add (mul k cs) (quo_lit cs 2)) (add (mul r cs) (quo_lit cs 2)) n
     ((add (mul k cs) (quo_lit cs 2) <? width)
      && (add (mul r cs) (quo_lit cs 2) <? height))).

Lemma row_rounds (r : Z) (n : nat) :
  forall (a : nat) (st : numbering) (v : visit),
    in_int (cellNumber st) ->
    In v (visited
            (fold_left
               (fun st k => number_cell config width height (Z.of_nat k) r st)
               (seq a n) st)) ->
    In v (visited st) \/
    exists k, (a <= k < a + n)%nat /\
              v = round_at (Z.of_nat k) r
                    (wrap (cellNumber st + (Z.of_nat k - Z.of_nat a))).
Proof.
  induction n as [| n IH]; intros a st v Hc Hin; cbn [seq fold_left] in Hin.
  - now left.
  - apply IH in Hin; [| apply wrap_in_int].
    destruct Hin as [Hin | (k & Hk & ->)].
    + cbn [number_cell visited] in Hin. destruct Hin as [<- | Hin]; [| now left].
      right. exists a. split; [lia |].
      replace (Z.of_nat a - Z.of_nat a) with 0 by lia.
      now rewrite Z.add_0_r, wrap_id by assumption.
    + right. exists k. split; [lia |].
      f_equal. cbn [number_cell cellNumber]. unfold add.
      rewrite wrap_add_l. f_equal. lia.
Qed.

Lemma grid_rounds (ncols : nat) (m : nat) :
  forall (b : nat) (st : numbering) (v : visit),
    in_int (cellNumber st) ->
    In v (visited
            (fold_left
               (fun st r =>
                  fold_left
                    (fun st k =>
                       number_cell config width height (Z.of_nat k) (Z.of_nat r) st)
                    (seq 0 ncols) st)
               (seq b m) st)) ->
    In v (visited st) \/
    exists r k, (b <= r < b + m)%nat /\ (k < ncols)%nat /\
                v = round_at (Z.of_nat k) (Z.of_nat r)
                      (wrap (cellNumber st
                             + (Z.of_nat r - Z.of_nat b) * Z.of_nat ncols
                             + Z.of_nat k)).
Proof.
  induction m as [| m IH]; intros b st v Hc Hin; cbn [seq fold_left] in Hin.
  - now left.
  - apply IH in Hin; [| now apply number_row_in_int].
    destruct (number_row_count config width height (Z.of_nat b) (seq 0 ncols) st)
      as [Hcount _].
    cbn zeta in Hcount. rewrite length_seq in Hcount.
    destruct Hin as [Hin | (r & k & Hr & Hk & ->)].
    + apply row_rounds in Hin; [| assumption].
      destruct Hin as [Hin | (k & Hk & ->)]; [now left |].
      right. exists b, k. split; [lia |]. split; [lia |].
      do 2 f_equal. lia.
    + right. exists r, k. split; [lia |]. split; [assumption |].
      f_equal.
      rewrite <- wrap_add_ll, Hcount, wrap_add_ll. f_equal. lia.
Qed.

(** Property X7.  When the renderer's columns per row, [ceil(width/cellSize)],
    equal the mappers' [max(1, width/cellSize)] -- the cell size divides the
    width or exceeds it -- every round of the numbering loop, drawn or not,
    has a centre that [PixelToCell] maps to its number. *)
Theorem numbering_consistent_when_layouts_agree (fuel : nat) (ov : Canvas)
  (st : numbering) (v : visit) :
  0 < cs -> 0 < width -> 0 <= height ->
  ceil_div width cs = columnsPerRow_spec width cs ->
  ceil_div width cs * cs <= max_int ->
  ceil_div height cs * cs <= max_int ->
  number_cells fuel config width height ov = Returns st ->
  In v (visited st) ->
  PixelToCell (v_centerX v) (v_centerY v) width cs = Returns (v_number v).
Proof.
  intros Hcs Hw Hh Hagree Hwfit Hhfit Hrun Hin.
  pose proof (ceil_div_reaches width cs Hcs) as Hwr.
  pose proof (ceil_div_reaches height cs Hcs) as Hhr.
  pose proof (ceil_div_nonneg width cs Hcs ltac:(lia)) as Hwn.
  pose proof (ceil_div_nonneg height cs Hcs Hh) as Hhn.
  assert (Hwi : in_int width)
    by (unfold in_int, min_int, max_int, half_modulus in *; lia).
  assert (Hhi : in_int height)
    by (unfold in_int, min_int, max_int, half_modulus in *; lia).
  assert (Hcsi : in_int cs).
  { assert (1 <= ceil_div width cs) by (rewrite Hagree; apply columnsPerRow_spec_pos).
    unfold in_int, min_int, max_int, half_modulus in *. nia. }
  destruct (Nat.le_gt_cases fuel (Z.to_nat (ceil_div width cs))) as [Hlow | Hfw].
  { (* too little fuel for the columns of a row *)
    exfalso. unfold number_cells in Hrun.
    destruct (Nat.eq_dec fuel 0) as [-> | Hpos]; [discriminate |].
    rewrite for_loop_first in Hrun by lia.
    destruct (mul 0 cs <? height) eqn:Hg.
    - assert (U : for_loop fuel (fun gridX => mul gridX cs <? width)
                    (fun gridX => add gridX 1)
                    (fun gridX st =>
                       Returns (number_cell config width height gridX 0 st))
                    (Z.of_nat 0)
                    {| overlay := ov; cellNumber := 0; visited := [] |}
                  = OutOfFuel).
      { apply (for_loop_starved _ _ _
                 (fun gridX st => number_cell config width height gridX 0 st)
                 (Z.to_nat (ceil_div width cs)) Z.of_nat); [| | | assumption].
        - intros k Hk. now apply index_guard_true.
        - intros k Hk. apply (index_step config width); try assumption. lia.
        - reflexivity. }
      cbn [Z.of_nat] in U. rewrite U in Hrun. discriminate.
    - injection Hrun as <-. destruct Hin. }
  destruct (Nat.le_gt_cases fuel (Z.to_nat (ceil_div height cs))) as [Hlow | Hfh].
  { (* too little fuel for the rows *)
    exfalso.
    assert (U : number_cells fuel config width height ov = OutOfFuel).
    { unfold number_cells. change 0 with (Z.of_nat 0) at 3.
      apply (for_loop_starved _ _ _
               (fun gridY st =>
                  fold_left
                    (fun st k => number_cell config width height (Z.of_nat k) gridY st)
                    (seq 0 (Z.to_nat (ceil_div width cs))) st)
               (Z.to_nat (ceil_div height cs)) Z.of_nat); [| | | assumption].
      - intros k Hk. now apply index_guard_true.
      - intros k Hk. now apply (index_step config height).
      - intros k s' Hk. apply number_row_unroll; try assumption. lia. }
    rewrite U in Hrun. discriminate. }
  rewrite number_cells_unroll in Hrun by (assumption || lia).
  injection Hrun as <-.
  apply grid_rounds in Hin;
    [| cbn; unfold in_int, min_int, max_int, half_modulus; lia].
  destruct Hin as [[] | (r & k & Hr & Hk & ->)].
  cbn [v_centerX v_centerY v_number cellNumber].
  replace (Z.of_nat r - Z.of_nat 0) with (Z.of_nat r) by lia.
  rewrite Z.add_0_l.
  set (K := Z.of_nat k) in *. set (Rw := Z.of_nat r) in *.
  set (C := ceil_div width cs) in *.
  assert (HK : 0 <= K < C) by (unfold K; lia).
  assert (HR : 0 <= Rw < ceil_div height cs) by (unfold Rw; lia).
  rewrite Z2Nat.id by lia.
  pose proof (half_bounds cs Hcs) as Hhalf.
  assert (Hq : Z.quot width cs = C \/ (Z.quot width cs = 0 /\ C = 1)).
  { unfold columnsPerRow_spec in Hagree.
    assert (0 <= Z.quot width cs) by (apply quot_between; lia).
    destruct (Z.max_spec 1 (Z.quot width cs)) as [[_ E] | [_ E]]; rewrite E in Hagree.
    - now left.
    - destruct (Z.eq_dec (Z.quot width cs) 0); [right; lia | left; lia]. }
  assert (Hguard : (if wrap (Z.quot width cs) =? 0 then 1
                    else wrap (Z.quot width cs)) = C).
  { rewrite wrap_id by (apply quot_in_int; assumption).
    destruct Hq as [-> | [-> ->]]; [| reflexivity].
    destruct (Z.eqb_spec C 0); lia. }
  assert (EX : add (mul K cs) (quo_lit cs 2) = K * cs + Z.quot cs 2).
  { unfold add, mul. rewrite wrap_add_l, quo_lit_2 by assumption.
    apply wrap_id. unfold in_int, min_int, max_int, half_modulus in *. nia. }
  assert (EY : add (mul Rw cs) (quo_lit cs 2) = Rw * cs + Z.quot cs 2).
  { unfold add, mul. rewrite wrap_add_l, quo_lit_2 by assumption.
    apply wrap_id. unfold in_int, min_int, max_int, half_modulus in *. nia. }
  rewrite EX, EY, PixelToCell_returns by lia. rewrite Hguard.
  assert (QX : Z.quot (K * cs + Z.quot cs 2) cs = K).
  { rewrite Z.quot_div_nonneg by nia. symmetry.
    apply (Z.div_unique_pos _ cs K (Z.quot cs 2)); lia. }
  assert (QY : Z.quot (Rw * cs + Z.quot cs 2) cs = Rw).
  { rewrite Z.quot_div_nonneg by nia. symmetry.
    apply (Z.div_unique_pos _ cs Rw (Z.quot cs 2)); lia. }
  rewrite QX, QY.
  rewrite (wrap_id K), (wrap_id Rw)
    by (unfold in_int, min_int, max_int, half_modulus in *; nia).
  unfold add, mul. now rewrite wrap_add_l.
Qed.

End NumberingConsistency.

(** ** Painting in one colour *)

Section Painting.
Variable c : RGBA.

Lemma paints_Set (s : Canvas) (x y : Z) :
  paints c (fun px py => (px =? x) && (py =? y)) s (RGBA_Set s x y c).
Proof.
  split; [reflexivity |]. intros px py. cbn [RGBA_Set Pix].
  destruct (Z.eqb_spec px x) as [-> | Nx]; cbn [andb].
  - destruct (Z.eqb_spec py y) as [-> | Ny].
    + destruct (In_rect x y (Rect s)); cbn [andb].
      * now rewrite !Z.eqb_refl.
      * reflexivity.
    + rewrite andb_false_r.
      destruct (In_rect x y (Rect s)); [| reflexivity].
      rewrite Z.eqb_refl. cbn [andb].
      now destruct (Z.eqb_spec py y).
  - rewrite andb_false_r.
    destruct (In_rect x y (Rect s)); [| reflexivity].
    now destruct (Z.eqb_spec px x).
Qed.

Lemma paints_refl (s : Canvas) : paints c (fun _ _ => false) s s.
Proof. split; [reflexivity |]. intros px py. now rewrite andb_false_r. Qed.

Lemma paints_trans (p q : Z -> Z -> bool) (s s' s'' : Canvas) :
  paints c p s s' -> paints c q s' s'' ->
  paints c (fun x y => p x y || q x y) s s''.
Proof.
  intros [R1 P1] [R2 P2]. split; [congruence |]. intros px py.
  rewrite P2, P1, R1.
  destruct (In_rect px py (Rect s)), (p px py), (q px py); reflexivity.
Qed.

Lemma paints_ext (p q : Z -> Z -> bool) (s s' : Canvas) :
  (forall x y, p x y = q x y) -> paints c p s s' -> paints c q s s'.
Proof.
  intros E [R1 P1]. split; [assumption |]. intros px py. now rewrite P1, E.
Qed.

Lemma count_loop_paints (p : Z -> Z -> Z -> bool) (guard : Z -> bool)
  (body : Z -> Canvas -> Canvas) :
  (forall j s, paints c (p j) s (body j s)) ->
  forall (n : nat) (i : Z) (s : Canvas),
    paints c (fun x y => count_any n i guard (fun j => p j x y)) s
      (count_loop n i guard body s).
Proof.
  intros Hb. induction n as [| n IH]; intros i s; cbn [count_loop count_any].
  - apply paints_refl.
  - destruct (guard i); cbn [andb].
    + apply (paints_trans _ _ s (body i s)); [apply Hb | apply IH].
    + apply paints_refl.
Qed.

Lemma fold_left_paints {K : Type} (p : K -> Z -> Z -> bool)
  (g : K -> Canvas -> Canvas) :
  (forall k s, paints c (p k) s (g k s)) ->
  forall (l : list K) (s : Canvas),
    paints c (fun x y => existsb (fun k => p k x y) l) s
      (fold_left (fun s k => g k s) l s).
Proof.
  intros Hg. induction l as [| k l IH]; intros s; cbn [fold_left existsb].
  - apply paints_refl.
  - apply (paints_trans _ _ s (g k s)); [apply Hg | apply IH].
Qed.

End Painting.

(** The rounds of a counting loop with a guard: round [j] runs when the guard
    held from the first round up to [j]. *)
Lemma count_any_true (n : nat) (guard p : Z -> bool) :
  forall i : Z,
    count_any n i guard p = true <->
    exists j, i <= j < i + Z.of_nat n /\
              (forall j', i <= j' <= j -> guard j' = true) /\
              p j = true.
Proof.
  induction n as [| n IH]; intros i; cbn [count_any].
  - split; [discriminate | intros (j & Hj & _); lia].
  - rewrite andb_true_iff, orb_true_iff, IH. split.
    + intros [Hg [Hp | (j & Hj & Hgs & Hp)]].
      * exists i. repeat split; try lia; [| assumption].
        intros j' Hj'. now replace j' with i by lia.
      * exists j. repeat split; try lia; [| assumption].
        intros j' Hj'. destruct (Z.eq_dec j' i) as [-> | NE]; [assumption |].
        apply Hgs. lia.
    + intros (j & Hj & Hgs & Hp). split; [apply Hgs; lia |].
      destruct (Z.eq_dec j i) as [-> | NE]; [now left | right].
      exists j. repeat split; try lia; [| assumption].
      intros j' Hj'. apply Hgs. lia.
Qed.

(** ** Grid lines *)

Section GridLines.
Import GoIntFacts.
Variable config : Config.

Local Abbreviation cs := (CellSize config).
Local Abbreviation lw := (LineWidth config).
Local Abbreviation gc := (GridColor config).

Lemma count_any_ext (n : nat) (guard p q : Z -> bool) :
  (forall j, p j = q j) ->
  forall i, count_any n i guard p = count_any n i guard q.
Proof.
  intros E. induction n as [| n IH]; intros i; cbn [count_any]; [reflexivity |].
  now rewrite E, IH.
Qed.

Lemma band_rounds (len x a b : Z) :
  0 <= x -> in_int x -> in_int lw ->
  count_any (Z.to_nat (len - 0)) 0 always
    (fun y =>
       count_any (Z.to_nat (lw - 0)) 0 (fun i => 0 <=? sub x i)
         (fun i => (a =? sub x i) && (b =? y)))
  = (0 <=? b) && (b <? len) && band_at lw x a.
Proof.
  intros Hx0 Hx Hlw. apply eq_iff_eq_true.
  assert (Hsub : forall i, 0 <= i < lw -> sub x i = x - i).
  { intros i Hi. apply sub_exact.
    unfold in_int, min_int, max_int, half_modulus in *. lia. }
  unfold band_at.
  rewrite count_any_true, !andb_true_iff, !Z.leb_le, !Z.ltb_lt.
  split.
  - intros (y & Hy & _ & Hin). apply count_any_true in Hin.
    destruct Hin as (i & Hi & Hg & Hp).
    apply andb_true_iff in Hp. destruct Hp as [Ea Eb].
    apply Z.eqb_eq in Ea, Eb.
    specialize (Hg i ltac:(lia)). apply Z.leb_le in Hg.
    rewrite Hsub in Ea, Hg by lia. lia.
  - intros [[Hb0 Hb1] [[Ha0 Ha1] Ha2]].
    exists b. split; [lia |]. split; [reflexivity |].
    apply count_any_true. exists (x - a). split; [lia |]. split.
    + intros j Hj. apply Z.leb_le. rewrite Hsub by lia. lia.
    + rewrite Hsub by lia. apply andb_true_iff.
      split; apply Z.eqb_eq; lia.
Qed.

Lemma vertical_line_paints (height x : Z) (s : Canvas) :
  0 <= x -> in_int x -> in_int lw ->
  paints gc (fun px py => (0 <=? py) && (py <? height) && band_at lw x px)
    s (draw_vertical_line config height x s).
Proof.
  intros Hx0 Hx Hlw. unfold draw_vertical_line, for_upto.
  eapply paints_ext;
    [| apply (count_loop_paints gc
                (fun y px py =>
                   count_any (Z.to_nat (lw - 0)) 0 (fun i => 0 <=? sub x i)
                     (fun i => (px =? sub x i) && (py =? y))));
       intros y s';
       apply (count_loop_paints gc (fun i px py => (px =? sub x i) && (py =? y)));
       intros i s''; apply paints_Set].
  intros px py. cbn beta. now apply band_rounds.
Qed.

Lemma horizontal_line_paints (width y : Z) (s : Canvas) :
  0 <= y -> in_int y -> in_int lw ->
  paints gc (fun px py => (0 <=? px) && (px <? width) && band_at lw y py)
    s (draw_horizontal_line config width y s).
Proof.
  intros Hy0 Hy Hlw. unfold draw_horizontal_line, for_upto.
  eapply paints_ext;
    [| apply (count_loop_paints gc
                (fun x px py =>
                   count_any (Z.to_nat (lw - 0)) 0 (fun i => 0 <=? sub y i)
                     (fun i => (px =? x) && (py =? sub y i))));
       intros x s';
       apply (count_loop_paints gc (fun i px py => (px =? x) && (py =? sub y i)));
       intros i s''; apply paints_Set].
  intros px py. cbn beta. rewrite <- (band_rounds width y py px) by assumption.
  apply count_any_ext. intros x. apply count_any_ext. intros i.
  apply andb_comm.
Qed.

Lemma fold_left_paints_in {K : Type} (c : RGBA) (p : K -> Z -> Z -> bool)
  (g : K -> Canvas -> Canvas) :
  forall (l : list K) (s : Canvas),
    (forall k s', In k l -> paints c (p k) s' (g k s')) ->
    paints c (fun x y => existsb (fun k => p k x y) l) s
      (fold_left (fun s k => g k s) l s).
Proof.
  induction l as [| k l IH]; intros s Hg; cbn [fold_left existsb].
  - apply paints_refl.
  - apply (paints_trans _ _ _ s (g k s)).
    + apply Hg. now left.
    + apply IH. intros k' s' Hk'. apply Hg. now right.
Qed.

(** The separators below [limit] stand at [cs, 2*cs, ...]; there are
    [ceil(limit/cs) - 1] of them. *)
Lemma separator_below (limit : Z) (k : nat) :
  0 < cs ->
  (k < Z.to_nat (ceil_div limit cs - 1))%nat ->
  (Z.of_nat k + 1) * cs < limit.
Proof. intros Hcs Hk. apply ceil_div_gt; lia. Qed.

Lemma separators_end (limit : Z) :
  0 < cs ->
  limit <= (Z.of_nat (Z.to_nat (ceil_div limit cs - 1)) + 1) * cs.
Proof.
  intros Hcs. destruct (Z.le_gt_cases 1 (ceil_div limit cs)) as [Hge | Hlt].
  - rewrite Z2Nat.id by lia.
    replace (ceil_div limit cs - 1 + 1) with (ceil_div limit cs) by lia.
    now apply ceil_div_reaches.
  - replace (Z.to_nat (ceil_div limit cs - 1)) with 0%nat by lia.
    assert (~ 0 * cs < limit) by (rewrite <- ceil_div_gt by assumption; lia).
    lia.
Qed.

Lemma stride_unroll {St : Type} (g : Z -> St -> St) (limit : Z) (fuel : nat)
  (s : St) :
  0 < cs -> in_int cs -> limit <= 4611686018427387904 ->
  for_loop fuel (fun x => x <? limit) (fun x => add x cs)
    (fun x s => Returns (g x s)) cs s =
  if (Z.to_nat (ceil_div limit cs - 1) <? fuel)%nat
  then Returns (fold_left (fun s k => g ((Z.of_nat k + 1) * cs) s)
                  (seq 0 (Z.to_nat (ceil_div limit cs - 1))) s)
  else OutOfFuel.
Proof.
  intros Hcs Hcsi Hlim.
  set (n := Z.to_nat (ceil_div limit cs - 1)).
  set (f := fun k : nat => (Z.of_nat k + 1) * cs).
  assert (Hcond : forall k, (k < n)%nat -> (f k <? limit) = true).
  { intros k Hk. apply Z.ltb_lt. now apply separator_below. }
  assert (Hpost : forall k, (k < n)%nat -> add (f k) cs = f (S k)).
  { intros k Hk. pose proof (separator_below limit k Hcs Hk) as Hb.
    unfold f in *. rewrite add_exact.
    - rewrite Nat2Z.inj_succ. ring.
    - unfold in_int, min_int, max_int, half_modulus in *. nia. }
  assert (Hbody : forall k s', (k < n)%nat ->
                    (fun x s => Returns (g x s)) (f k) s' = Returns (g (f k) s'))
    by reflexivity.
  assert (E0 : f 0%nat = cs) by (unfold f; cbn [Z.of_nat]; lia).
  destruct (Nat.ltb_spec n fuel) as [Hfuel | Hfuel].
  - assert (Hend : (f n <? limit) = false)
      by (apply Z.ltb_ge, separators_end; assumption).
    pose proof (for_loop_unroll (fun x => x <? limit) (fun x => add x cs)
                  (fun x s => Returns (g x s)) g n f fuel s
                  Hcond Hpost Hend Hbody Hfuel)
      as U.
    rewrite E0 in U. exact U.
  - pose proof (for_loop_starved (fun x => x <? limit) (fun x => add x cs)
                  (fun x s => Returns (g x s)) g n f fuel s
                  Hcond Hpost Hbody Hfuel) as U.
    rewrite E0 in U. exact U.
Qed.

Lemma bands_iff (limit len a b : Z) :
  0 < cs -> 0 <= a -> 0 <= b < len ->
  existsb (fun k => (0 <=? b) && (b <? len) && band_at lw ((Z.of_nat k + 1) * cs) a)
    (seq 0 (Z.to_nat (ceil_div limit cs - 1))) = true <->
  in_band cs lw limit a.
Proof.
  intros Hcs Ha Hb. rewrite existsb_exists. unfold in_band, band_at. split.
  - intros (k & Hin & Hk). apply in_seq in Hin.
    rewrite !andb_true_iff, !Z.leb_le, !Z.ltb_lt in Hk.
    pose proof (separator_below limit k Hcs ltac:(lia)).
    exists (Z.of_nat k + 1). lia.
  - intros (K & HK1 & HKl & HKb).
    assert (K < ceil_div limit cs) by (apply ceil_div_gt; assumption).
    exists (Z.to_nat (K - 1)). split; [apply in_seq; lia |].
    rewrite !andb_true_iff, !Z.leb_le, !Z.ltb_lt.
    rewrite Z2Nat.id by lia. replace (K - 1 + 1) with K by lia. lia.
Qed.

(** The canvas after the vertical separators. *)
Lemma vertical_lines_paint (width height : Z) (s : Canvas) :
  0 < cs -> in_int lw -> width <= 4611686018427387904 ->
  paints gc
    (fun px py =>
       existsb (fun k => (0 <=? py) && (py <? height)
                         && band_at lw ((Z.of_nat k + 1) * cs) px)
         (seq 0 (Z.to_nat (ceil_div width cs - 1))))
    s
    (fold_left (fun s k => draw_vertical_line config height ((Z.of_nat k + 1) * cs) s)
       (seq 0 (Z.to_nat (ceil_div width cs - 1))) s).
Proof.
  intros Hcs Hlw Hw.
  apply (fold_left_paints_in gc
           (fun k px py => (0 <=? py) && (py <? height)
                           && band_at lw ((Z.of_nat k + 1) * cs) px)
           (fun k s => draw_vertical_line config height ((Z.of_nat k + 1) * cs) s)).
  intros k s' Hin. apply in_seq in Hin.
  pose proof (separator_below width k Hcs ltac:(lia)).
  apply vertical_line_paints; try assumption; [nia |].
  unfold in_int, min_int, max_int, half_modulus. nia.
Qed.

(** The canvas after the horizontal separators. *)
Lemma horizontal_lines_paint (width height : Z) (s : Canvas) :
  0 < cs -> in_int lw -> height <= 4611686018427387904 ->
  paints gc
    (fun px py =>
       existsb (fun k => (0 <=? px) && (px <? width)
                         && band_at lw ((Z.of_nat k + 1) * cs) py)
         (seq 0 (Z.to_nat (ceil_div height cs - 1))))
    s
    (fold_left (fun s k => draw_horizontal_line config width ((Z.of_nat k + 1) * cs) s)
       (seq 0 (Z.to_nat (ceil_div height cs - 1))) s).
Proof.
  intros Hcs Hlw Hh.
  apply (fold_left_paints_in gc
           (fun k px py => (0 <=? px) && (px <? width)
                           && band_at lw ((Z.of_nat k + 1) * cs) py)
           (fun k s => draw_horizontal_line config width ((Z.of_nat k + 1) * cs) s)).
  intros k s' Hin. apply in_seq in Hin.
  pose proof (separator_below height k Hcs ltac:(lia)).
  apply horizontal_line_paints; try assumption; [nia |].
  unfold in_int, min_int, max_int, half_modulus. nia.
Qed.

End GridLines.

Section GridLinesTheorem.
Import GoIntFacts.

Lemma mul3NonNeg_fits (x y z : Z) :
  (mul3NonNeg x y z <? 0) = false <->
  0 <= x /\ 0 <= y /\ 0 <= z /\ x * y < modulus /\ x * y * z <= max_int.
Proof.
  unfold mul3NonNeg.
  destruct (Z.ltb_spec x 0), (Z.ltb_spec y 0), (Z.ltb_spec z 0); cbn [orb];
    try (split; [discriminate | lia]).
  destruct (Z.leb_spec modulus (x * y)); [split; [discriminate | lia] |].
  destruct (Z.leb_spec modulus (x * y * z));
    [split; [discriminate | unfold modulus, max_int, half_modulus in *; lia] |].
  destruct (Z.ltb_spec max_int (x * y * z)); [split; [discriminate | lia] |].
  split; [lia |]. intros _. apply Z.ltb_ge. nia.
Qed.

Lemma NewRGBA_origin (W H : Z) :
  in_int W -> in_int H ->
  0 <= W -> 0 <= H -> 4 * W < modulus -> 4 * W * H <= max_int ->
  NewRGBA (mkRect 0 0 W H) =
  Returns {| Rect := mkRect 0 0 W H; Pix := fun _ _ => transparent; Calls := [] |}.
Proof.
  intros HW HH HW0 HH0 HW4 Hfit. unfold NewRGBA, Dx, Dy. cbn [MaxX MinX MaxY MinY].
  rewrite !sub_exact by (now rewrite Z.sub_0_r). rewrite !Z.sub_0_r.
  assert (E : (mul3NonNeg 4 W H <? 0) = false).
  { apply mul3NonNeg_fits.
    unfold in_int, modulus, min_int, max_int, half_modulus in *. lia. }
  now rewrite E.
Qed.

Lemma NewRGBA_returned (W H : Z) (ov : Canvas) :
  in_int W -> in_int H ->
  NewRGBA (mkRect 0 0 W H) = Returns ov ->
  0 <= W /\ 0 <= H /\ 4 * W * H <= max_int.
Proof.
  intros HW HH. unfold NewRGBA, Dx, Dy. cbn [MaxX MinX MaxY MinY].
  rewrite !sub_exact by (now rewrite Z.sub_0_r). rewrite !Z.sub_0_r.
  destruct (mul3NonNeg 4 W H <? 0) eqn:E; [discriminate |].
  intros _. apply mul3NonNeg_fits in E. lia.
Qed.

(** The line-drawing phase on an image at the origin whose buffer can be
    allocated: it returns, given fuel for the separators of each direction,
    the copied image with the two families of bands folded over it. *)
Lemma AddGrid_lines_run (img : Image) (config : Config) (W H : Z) (fuel : nat) :
  Bounds img = mkRect 0 0 W H ->
  in_int W -> in_int H ->
  0 < CellSize config -> in_int (CellSize config) ->
  0 < W -> 0 < H -> 4 * W * H <= max_int ->
  AddGrid_lines fuel img config =
  if (Z.to_nat (ceil_div W (CellSize config) - 1) <? fuel)%nat
     && (Z.to_nat (ceil_div H (CellSize config) - 1) <? fuel)%nat
  then
    Returns
      (fold_left
         (fun s k =>
            draw_horizontal_line config W ((Z.of_nat k + 1) * CellSize config) s)
         (seq 0 (Z.to_nat (ceil_div H (CellSize config) - 1)))
         (fold_left
            (fun s k =>
               draw_vertical_line config H ((Z.of_nat k + 1) * CellSize config) s)
            (seq 0 (Z.to_nat (ceil_div W (CellSize config) - 1)))
            (Draw_Src
               {| Rect := mkRect 0 0 W H; Pix := fun _ _ => transparent;
                  Calls := [] |}
               (mkRect 0 0 W H) img)))
  else OutOfFuel.
Proof.
  intros HB HWi HHi Hcs Hcsi HW HH Hfit.
  assert (W <= 4611686018427387904 /\ H <= 4611686018427387904) as [HWb HHb]
    by (unfold max_int, half_modulus in *; nia).
  unfold AddGrid_lines. rewrite HB. cbn [MaxX MaxY].
  rewrite NewRGBA_origin
    by (assumption || unfold modulus, max_int, half_modulus in *; nia).
  cbn [bind].
  unfold draw_vertical_lines.
  rewrite (stride_unroll config (draw_vertical_line config H) W) by assumption.
  destruct (Z.to_nat (ceil_div W (CellSize config) - 1) <? fuel)%nat;
    cbn [bind andb]; [| reflexivity].
  unfold draw_horizontal_lines.
  now rewrite (stride_unroll config (draw_horizontal_line config W) H) by assumption.
Qed.

(** The pixels of the canvas after the line-drawing phase. *)
Lemma lines_pixels (img : Image) (config : Config) (W H px py : Z) :
  Bounds img = mkRect 0 0 W H ->
  0 < CellSize config -> in_int (LineWidth config) ->
  W <= 4611686018427387904 -> H <= 4611686018427387904 ->
  0 <= px < W -> 0 <= py < H ->
  let ov :=
    fold_left
      (fun s k =>
         draw_horizontal_line config W ((Z.of_nat k + 1) * CellSize config) s)
      (seq 0 (Z.to_nat (ceil_div H (CellSize config) - 1)))
      (fold_left
         (fun s k =>
            draw_vertical_line config H ((Z.of_nat k + 1) * CellSize config) s)
         (seq 0 (Z.to_nat (ceil_div W (CellSize config) - 1)))
         (Draw_Src
            {| Rect := mkRect 0 0 W H; Pix := fun _ _ => transparent; Calls := [] |}
            (mkRect 0 0 W H) img)) in
  (on_grid_line config W H px py -> Pix ov px py = GridColor config) /\
  (~ on_grid_line config W H px py -> Pix ov px py = ColorAt img px py).
Proof.
  intros HB Hcs Hlw HWb HHb Hpx Hpy ov.
  set (s0 := Draw_Src
               {| Rect := mkRect 0 0 W H; Pix := fun _ _ => transparent;
                  Calls := [] |}
               (mkRect 0 0 W H) img) in *.
  set (s1 := fold_left
               (fun s k =>
                  draw_vertical_line config H ((Z.of_nat k + 1) * CellSize config) s)
               (seq 0 (Z.to_nat (ceil_div W (CellSize config) - 1))) s0) in *.
  pose proof (paints_trans _ _ _ _ _ _
                (vertical_lines_paint config W H s0 Hcs Hlw HWb)
                (horizontal_lines_paint config W H s1 Hcs Hlw HHb)) as [_ HP].
  fold s1 in HP. fold ov in HP. rewrite HP. clear HP.
  pose proof (bands_iff config W H px py Hcs ltac:(lia) Hpy) as Hv.
  pose proof (bands_iff config H W py px Hcs ltac:(lia) Hpx) as Hh.
  assert (Hin : In_rect px py (mkRect 0 0 W H) = true).
  { unfold In_rect. cbn [MinX MinY MaxX MaxY].
    rewrite !andb_true_iff, !Z.leb_le, !Z.ltb_lt. lia. }
  unfold s0. cbn [Draw_Src Rect Pix]. rewrite HB, Hin. cbn [andb].
  unfold on_grid_line.
  match goal with
  | |- context [if ?a || ?b then _ else _] =>
      destruct a eqn:Ea; [| destruct b eqn:Eb]
  end; cbn [orb].
  - split; [reflexivity |]. intros Hn. exfalso. apply Hn. left. now apply Hv.
  - split; [reflexivity |]. intros Hn. exfalso. apply Hn. right. now apply Hh.
  - split; [| reflexivity].
    intros [Hb | Hb]; [apply Hv in Hb | apply Hh in Hb]; congruence.
Qed.

(** Claim C8, amended.  For a positive cell size and an image of width [W]
    and height [H] with bounds from the origin, after the line-drawing phase
    of [AddGrid] a canvas pixel [(px, py)] with [0 <= px < W] and
    [0 <= py < H] holds the grid colour when it lies on a band
    ([k*cellSize - lineWidth < px <= k*cellSize] for a [k >= 1] with
    [k*cellSize < W], or the same for [py] and [H]), and the copied source
    pixel otherwise; so it holds the grid colour if and only if it lies on a
    band or the source pixel has the grid colour.  The phase returns for
    every image with pixels whose buffer can be allocated. *)
Theorem grid_line_placement (img : Image) (config : Config) (W H : Z) :
  Bounds img = mkRect 0 0 W H ->
  in_int W -> in_int H ->
  0 < CellSize config -> in_int (CellSize config) ->
  in_int (LineWidth config) ->
  (forall fuel ov,
      AddGrid_lines fuel img config = Returns ov ->
      forall px py,
        0 <= px < W -> 0 <= py < H ->
        (on_grid_line config W H px py -> Pix ov px py = GridColor config) /\
        (~ on_grid_line config W H px py -> Pix ov px py = ColorAt img px py) /\
        (Pix ov px py = GridColor config <->
         on_grid_line config W H px py \/ ColorAt img px py = GridColor config)) /\
  (0 < W -> 0 < H -> 4 * W * H <= max_int ->
   forall fuel, (Z.to_nat (Z.max W H) < fuel)%nat ->
                exists ov, AddGrid_lines fuel img config = Returns ov).
Proof.
  intros HB HWi HHi Hcs Hcsi Hlw. split.
  - intros fuel ov E px py Hpx Hpy.
    assert (Halloc : 0 <= W /\ 0 <= H /\ 4 * W * H <= max_int).
    { unfold AddGrid_lines in E. rewrite HB in E.
      destruct (NewRGBA (mkRect 0 0 W H)) as [ov0 | msg |] eqn:EN;
        try discriminate.
      apply (NewRGBA_returned W H ov0); assumption. }
    destruct Halloc as (_ & _ & Hfit).
    rewrite (AddGrid_lines_run img config W H fuel) in E
      by (assumption || lia).
    match type of E with
    | (if ?b then _ else _) = _ => destruct b; [| discriminate]
    end.
    injection E as <-.
    assert (W <= 4611686018427387904 /\ H <= 4611686018427387904) as [HWb HHb]
      by (unfold max_int, half_modulus in *; nia).
    destruct (lines_pixels img config W H px py HB Hcs Hlw HWb HHb Hpx Hpy)
      as [Hon Hoff].
    split; [assumption |]. split; [assumption |].
    assert (Hdec : forall b : bool, (b = true <-> on_grid_line config W H px py) ->
                   on_grid_line config W H px py \/ ~ on_grid_line config W H px py).
    { intros [|] [H1 H2]; [left; now apply H1 | right; intros Hc].
      specialize (H2 Hc). discriminate. }
    pose proof (bands_iff config W H px py Hcs ltac:(lia) Hpy) as Hv.
    pose proof (bands_iff config H W py px Hcs ltac:(lia) Hpx) as Hh.
    destruct (Hdec (existsb _ _ || existsb _ _)%bool
                (conj (fun Hb => match orb_prop _ _ Hb with
                                 | or_introl H1 => or_introl (proj1 Hv H1)
                                 | or_intror H2 => or_intror (proj1 Hh H2)
                                 end)
                      (fun Hc => match Hc with
                                 | or_introl H1 =>
                                     orb_true_intro _ _ (or_introl (proj2 Hv H1))
                                 | or_intror H2 =>
                                     orb_true_intro _ _ (or_intror (proj2 Hh H2))
                                 end)))
      as [Hyes | Hno].
    + split; [intros _; now left | intros _; now apply Hon].
    + specialize (Hoff Hno). split.
      * intros Hgc. right. congruence.
      * intros [Hc | Hc]; [contradiction | congruence].
  - intros HW HH Hfit fuel Hfuel.
    rewrite (AddGrid_lines_run img config W H fuel) by assumption.
    pose proof (ceil_div_le W _ Hcs ltac:(lia)).
    pose proof (ceil_div_le H _ Hcs ltac:(lia)).
    assert (E1 : (Z.to_nat (ceil_div W (CellSize config) - 1) <? fuel)%nat = true)
      by (apply Nat.ltb_lt; lia).
    assert (E2 : (Z.to_nat (ceil_div H (CellSize config) - 1) <? fuel)%nat = true)
      by (apply Nat.ltb_lt; lia).
    rewrite E1, E2. cbn [andb]. eauto.
Qed.

End GridLinesTheorem.

Lemma grid_line_placement_witness :
  (exists ov,
      AddGrid_lines 300 (mkImage (mkRect 0 0 250 200) (fun _ _ => transparent))
        DefaultConfig = Returns ov) /\
  (forall ov,
      AddGrid_lines 300 (mkImage (mkRect 0 0 250 200) (fun _ _ => transparent))
        DefaultConfig = Returns ov ->
      Pix ov 99 10 = GridColor DefaultConfig /\ Pix ov 98 10 = transparent).
Proof.
  assert (Hi : forall z, 0 <= z <= 1000 -> in_int z)
    by (intros z Hz; unfold in_int, min_int, max_int, half_modulus; lia).
  destruct (grid_line_placement
              (mkImage (mkRect 0 0 250 200) (fun _ _ => transparent))
              DefaultConfig 250 200 eq_refl
              (Hi 250 ltac:(lia)) (Hi 200 ltac:(lia)) eq_refl
              (Hi 100 ltac:(lia)) (Hi 2 ltac:(lia))) as [HA HB].
  split.
  - apply HB; cbn; unfold max_int, half_modulus; lia.
  - intros ov E. split.
    + destruct (HA 300%nat ov E 99 10 ltac:(lia) ltac:(lia)) as (Hon & _ & _).
      apply Hon. left. exists 1. cbn. lia.
    + destruct (HA 300%nat ov E 98 10 ltac:(lia) ltac:(lia)) as (_ & Hoff & _).
      apply Hoff.
      intros [(k & Hk1 & Hk2 & Hk3) | (k & Hk1 & Hk2 & Hk3)]; cbn in *; lia.
Defined.

(** Claim C8 as stated fails where the source image already has the grid
    colour: on an image of 250 by 200 pixels filled with the grid colour, the
    pixel (1, 1) lies on no band of the default grid and holds the grid colour
    after the line-drawing phase. *)
Lemma grid_line_placement_counterexample :
  exists ov,
    AddGrid_lines 300
      (mkImage (mkRect 0 0 250 200) (fun _ _ => GridColor DefaultConfig))
      DefaultConfig = Returns ov /\
    Pix ov 1 1 = GridColor DefaultConfig /\
    ~ on_grid_line DefaultConfig 250 200 1 1.
Proof.
  assert (E : match
                AddGrid_lines 300
                  (mkImage (mkRect 0 0 250 200)
                     (fun _ _ => GridColor DefaultConfig))
                  DefaultConfig
              with
              | Returns ov => Some (Pix ov 1 1)
              | _ => None
              end = Some (GridColor DefaultConfig)) by (vm_compute; reflexivity).
  destruct (AddGrid_lines _ _ _) as [ov | msg |]; [| discriminate ..].
  exists ov. injection E as E.
  split; [reflexivity |]. split; [exact E |].
  intros [(k & Hk1 & Hk2 & Hk3) | (k & Hk1 & Hk2 & Hk3)]; cbn in *; lia.
Qed.

(** ** Labels *)

Section LoopInvariants.
Context {St : Type}.
Variable Inv : St -> Prop.

Lemma count_loop_inv (guard : Z -> bool) (body : Z -> St -> St) :
  forall (n : nat) (i : Z) (s : St),
    (forall j s', i <= j < i + Z.of_nat n -> Inv s' -> Inv (body j s')) ->
    Inv s -> Inv (count_loop n i guard body s).
Proof.
  induction n as [| n IH]; intros i s Hb Hs; cbn [count_loop]; [assumption |].
  destruct (guard i); [| assumption].
  apply IH.
  - intros j s' Hj. apply Hb. lia.
  - apply Hb; [lia | assumption].
Qed.

Lemma for_upto_inv (lo hi : Z) (guard : Z -> bool) (body : Z -> St -> St)
  (s : St) :
  (forall j s', lo <= j < hi -> Inv s' -> Inv (body j s')) ->
  Inv s -> Inv (for_upto lo hi guard body s).
Proof.
  intros Hb Hs. unfold for_upto. apply count_loop_inv; [| assumption].
  intros j s' Hj. apply Hb. lia.
Qed.

Lemma range_from_inv {E : Type} (body : Z -> E -> St -> St) :
  forall (l : list E) (i : Z) (s : St),
    (forall j e s',
        i <= j < i + Z.of_nat (List.length l) -> In e l ->
        Inv s' -> Inv (body j e s')) ->
    Inv s -> Inv (range_from i l body s).
Proof.
  induction l as [| e l IH]; intros i s Hb Hs; cbn [range_from]; [assumption |].
  apply IH.
  - intros j e' s' Hj Hin. apply Hb; [cbn [List.length]; lia | now right].
  - apply Hb; [cbn [List.length]; lia | now left | assumption].
Qed.

Lemma range_loop_inv {E : Type} (body : Z -> E -> St -> St) (l : list E)
  (s : St) :
  (forall j e s',
      0 <= j < Z.of_nat (List.length l) -> In e l -> Inv s' -> Inv (body j e s')) ->
  Inv s -> Inv (range_loop l body s).
Proof.
  intros Hb Hs. unfold range_loop. apply range_from_inv; [| assumption].
  intros j e s' Hj. apply Hb. lia.
Qed.

End LoopInvariants.

Section Frame.
Variable ok : Z -> Z -> Prop.

Lemma writes_within_refl (s : Canvas) : writes_within ok s s.
Proof.
  split; [reflexivity |]. split; [| reflexivity].
  exists []. split; [reflexivity | constructor].
Qed.

(** A clipped write whose point, when it passes the clip, satisfies [ok]. *)
Lemma set_clipped_within (s0 s : Canvas) (px py : Z) (c : RGBA) :
  writes_within ok s0 s ->
  (0 <= px < MaxX (Rect s0) -> 0 <= py < MaxY (Rect s0) -> ok px py) ->
  writes_within ok s0 (set_clipped s px py c).
Proof.
  intros (HR & (new & HC & HF) & HP) Hok. unfold set_clipped. rewrite HR.
  destruct ((0 <=? px) && (0 <=? py) && (px <? MaxX (Rect s0))
            && (py <? MaxY (Rect s0))) eqn:Eg.
  - rewrite !andb_true_iff, !Z.leb_le, !Z.ltb_lt in Eg.
    assert (Hin : ok px py) by (apply Hok; lia).
    split; [exact HR |]. split.
    + exists ((px, py, c) :: new). cbn [RGBA_Set Calls]. rewrite HC.
      split; [reflexivity | now constructor].
    + intros qx qy Hq. cbn [RGBA_Set Pix]. rewrite <- HP by assumption.
      destruct (In_rect px py (Rect s)); [| reflexivity].
      destruct (Z.eqb_spec qx px) as [-> | ?]; [| reflexivity].
      destruct (Z.eqb_spec qy py) as [-> | ?]; [| reflexivity].
      contradiction.
  - repeat split; eauto.
Qed.

End Frame.

Section LabelArithmetic.
Import GoIntFacts.

(** Adding a non-negative offset to an [int]: when the wrapped sum is not
    negative, it did not wrap. *)
Lemma add_offset (a d : Z) :
  in_int a -> 0 <= d <= max_int -> 0 <= wrap (a + d) -> wrap (a + d) = a + d.
Proof.
  intros Ha Hd Hw.
  pose proof (wrap_in_int (a + d)) as Hi.
  destruct (wrap_shift (a + d)) as [k Hk].
  unfold in_int, min_int, max_int, modulus, half_modulus in *. lia.
Qed.

Lemma background_pixel (s0 span d : Z) :
  in_int s0 -> in_int span -> 0 <= d < span ->
  0 <= add s0 d -> s0 <= add s0 d < s0 + span.
Proof.
  intros Hs Hspan Hd Hp. unfold add in *.
  rewrite (add_offset s0 d); try assumption;
    unfold in_int, min_int, max_int, half_modulus in *; lia.
Qed.

Lemma digit_pixel_x (sX s len i col sx : Z) :
  in_int sX -> 0 < s -> (7 * len + 2) * s <= max_int ->
  0 <= i < len -> 0 <= col < 5 -> 0 <= sx < s ->
  let px :=
    add (add (add (add sX (mul 2 s)) (mul i (add (mul 5 s) (mul 2 s)))) (mul col s))
      sx in
  0 <= px -> sX <= px < sX + (7 * len + 2) * s.
Proof.
  intros HsX Hs Hfit Hi Hcol Hsx px. subst px.
  assert (E5 : mul 5 s = 5 * s)
    by (apply mul_exact; unfold in_int, min_int, max_int, half_modulus in *; nia).
  assert (E2 : mul 2 s = 2 * s)
    by (apply mul_exact; unfold in_int, min_int, max_int, half_modulus in *; nia).
  rewrite E5, E2.
  assert (E7 : add (5 * s) (2 * s) = 7 * s)
    by (rewrite add_exact;
        [lia | unfold in_int, min_int, max_int, half_modulus in *; nia]).
  rewrite E7.
  assert (Ei : mul i (7 * s) = i * (7 * s))
    by (apply mul_exact; unfold in_int, min_int, max_int, half_modulus in *; nia).
  assert (Ec : mul col s = col * s)
    by (apply mul_exact; unfold in_int, min_int, max_int, half_modulus in *; nia).
  rewrite Ei, Ec. unfold add. rewrite ?wrap_add_l, ?wrap_add_ll, ?wrap_add_l.
  replace (sX + 2 * s + i * (7 * s) + col * s + sx)
    with (sX + (2 * s + i * (7 * s) + col * s + sx)) by ring.
  intros Hp.
  rewrite (add_offset sX (2 * s + i * (7 * s) + col * s + sx)); try assumption;
    unfold in_int, min_int, max_int, half_modulus in *; nia.
Qed.

Lemma digit_pixel_y (sY s row sy : Z) :
  in_int sY -> 0 < s -> 11 * s <= max_int ->
  0 <= row < 7 -> 0 <= sy < s ->
  let py := add (add (add sY (mul 2 s)) (mul row s)) sy in
  0 <= py -> sY <= py < sY + 11 * s.
Proof.
  intros HsY Hs Hfit Hrow Hsy py. subst py.
  assert (E2 : mul 2 s = 2 * s)
    by (apply mul_exact; unfold in_int, min_int, max_int, half_modulus in *; nia).
  assert (Er : mul row s = row * s)
    by (apply mul_exact; unfold in_int, min_int, max_int, half_modulus in *; nia).
  rewrite E2, Er. unfold add. rewrite ?wrap_add_l, ?wrap_add_ll, ?wrap_add_l.
  replace (sY + 2 * s + row * s + sy) with (sY + (2 * s + row * s + sy)) by ring.
  intros Hp.
  rewrite (add_offset sY (2 * s + row * s + sy)); try assumption;
    unfold in_int, min_int, max_int, half_modulus in *; nia.
Qed.

(** The size of the label when the scale does not overflow it. *)
Lemma label_size (x y : Z) (numStr : string) (config : Config) :
  let s := NumberScale config in
  let len := Z.of_nat (String.length numStr) in
  0 < s -> 11 * s <= max_int -> (7 * len + 2) * s <= max_int ->
  totalWidth (label_of x y numStr config) = (7 * len + 2) * s /\
  totalHeight (label_of x y numStr config) = 11 * s.
Proof.
  intros s len Hs Hh Hw. unfold label_of. cbn [totalWidth totalHeight].
  fold s. fold len.
  assert (Hlen : 0 <= len) by (unfold len; lia).
  assert (E5 : mul 5 s = 5 * s)
    by (apply mul_exact; unfold in_int, min_int, max_int, half_modulus in *; nia).
  assert (E7 : mul 7 s = 7 * s)
    by (apply mul_exact; unfold in_int, min_int, max_int, half_modulus in *; nia).
  assert (E2 : mul 2 s = 2 * s)
    by (apply mul_exact; unfold in_int, min_int, max_int, half_modulus in *; nia).
  rewrite E5, E7, E2.
  assert (E4 : mul 2 (2 * s) = 4 * s)
    by (rewrite mul_exact;
        [lia | unfold in_int, min_int, max_int, half_modulus in *; nia]).
  rewrite E4. unfold add, mul, sub.
  rewrite (wrap_id (len - 1))
    by (unfold in_int, min_int, max_int, half_modulus in *; nia).
  rewrite (wrap_id ((len - 1) * (2 * s)))
    by (unfold in_int, min_int, max_int, half_modulus in *; nia).
  rewrite (wrap_id (len * (5 * s)))
    by (unfold in_int, min_int, max_int, half_modulus in *; nia).
  rewrite (wrap_id (len * (5 * s) + (len - 1) * (2 * s)))
    by (unfold in_int, min_int, max_int, half_modulus in *; nia).
  split; apply wrap_id_eq; unfold in_int, min_int, max_int, half_modulus in *; nia.
Qed.

End LabelArithmetic.

Section LabelFrame.
Import GoIntFacts.

Lemma getDigitPattern_shape (d : ascii) :
  (List.length (getDigitPattern d) <= 7)%nat /\
  Forall (fun line => (String.length line <= 5)%nat) (getDigitPattern d).
Proof.
  destruct d as [[] [] [] [] [] [] [] []]; cbn;
    (split; [lia | repeat constructor]).
Qed.

Lemma length_list_ascii_of_string (s : string) :
  List.length (list_ascii_of_string s) = String.length s.
Proof. induction s as [| a s IH]; cbn; [reflexivity | now rewrite IH]. Qed.

(** The background phase writes inside the label rectangle, whatever the
    configuration. *)
Lemma draw_background_within (img s : Canvas) (x y : Z) (numStr : string)
  (config : Config) :
  let l := label_of x y numStr config in
  writes_within (label_target img l) img s ->
  writes_within (label_target img l) img (draw_background s l config).
Proof.
  intros l Hs.
  assert (HsX : in_int (startX l)) by apply wrap_in_int.
  assert (HsY : in_int (startY l)) by apply wrap_in_int.
  assert (HtW : in_int (totalWidth l)) by apply wrap_in_int.
  assert (HtH : in_int (totalHeight l)) by apply wrap_in_int.
  unfold draw_background.
  apply (for_upto_inv (writes_within (label_target img l) img)); [| assumption].
  intros dx s1 Hdx H1.
  apply (for_upto_inv (writes_within (label_target img l) img)); [| assumption].
  intros dy s2 Hdy H2.
  apply set_clipped_within; [assumption |].
  intros Hpx Hpy. unfold label_target, in_label_rect.
  split; [assumption |]. split; [assumption |]. split.
  - apply background_pixel; try assumption; lia.
  - apply background_pixel; try assumption; lia.
Qed.

(** The digit phase writes inside the label rectangle when the scale does not
    overflow the label (and writes nothing when the scale is not positive). *)
Lemma draw_digits_within (img s : Canvas) (x y : Z) (numStr : string)
  (config : Config) :
  let l := label_of x y numStr config in
  NumberScale config <= 0 \/
  (11 * NumberScale config <= max_int /\
   (7 * Z.of_nat (String.length numStr) + 2) * NumberScale config <= max_int) ->
  writes_within (label_target img l) img s ->
  writes_within (label_target img l) img (draw_digits s l numStr config).
Proof.
  intros l Hscale Hs.
  assert (HsX : in_int (startX l)) by apply wrap_in_int.
  assert (HsY : in_int (startY l)) by apply wrap_in_int.
  unfold draw_digits.
  apply (range_loop_inv (writes_within (label_target img l) img)); [| assumption].
  intros i digit s1 Hi _ H1. rewrite length_list_ascii_of_string in Hi.
  destruct (getDigitPattern_shape digit) as [Hrows Hcols].
  apply (range_loop_inv (writes_within (label_target img l) img)); [| assumption].
  intros row line s2 Hrow Hline H2.
  rewrite Forall_forall in Hcols. specialize (Hcols line Hline).
  apply (range_loop_inv (writes_within (label_target img l) img)); [| assumption].
  intros col char s3 Hcol _ H3. rewrite length_list_ascii_of_string in Hcol.
  destruct (Ascii.eqb char "#"); [| assumption].
  unfold draw_block.
  apply (for_upto_inv (writes_within (label_target img l) img)); [| assumption].
  intros sx s4 Hsx H4.
  apply (for_upto_inv (writes_within (label_target img l) img)); [| assumption].
  intros sy s5 Hsy H5.
  apply set_clipped_within; [assumption |].
  intros Hpx Hpy.
  destruct Hscale as [Hneg | [Hh Hw]]; [lia |].
  destruct (label_size x y numStr config ltac:(lia) Hh Hw) as [EW EH].
  fold l in EW, EH.
  unfold label_target, in_label_rect.
  split; [assumption |]. split; [assumption |].
  rewrite EW, EH. split.
  - apply (digit_pixel_x (startX l) (NumberScale config)
             (Z.of_nat (String.length numStr)) i col sx);
      try assumption; try lia. exact (proj1 Hpx).
  - apply (digit_pixel_y (startY l) (NumberScale config) row sy);
      try assumption; try lia. exact (proj1 Hpy).
Qed.

(** Claim C9, amended.  For every canvas, centre, number and configuration
    whose scale is not positive or does not overflow the size of the label
    (its height [11*scale] and width [(7*digits + 2)*scale] fit an [int]),
    [drawLargeNumber] keeps the canvas rectangle, issues [Set] calls only at
    points [(px, py)] with [0 <= px < Max.X], [0 <= py < Max.Y] inside the
    background rectangle of the label, and leaves every other pixel
    unchanged.  It is a total function: no write fails. *)
Theorem label_frame (img : Canvas) (x y number : Z) (config : Config) :
  NumberScale config <= 0 \/
  (11 * NumberScale config <= max_int /\
   (7 * Z.of_nat (String.length (Sprintf_d number)) + 2) * NumberScale config
   <= max_int) ->
  writes_within (label_target img (label_of x y (Sprintf_d number) config))
    img (drawLargeNumber img x y number config).
Proof.
  intros Hscale. unfold drawLargeNumber.
  apply draw_digits_within; [assumption |].
  apply draw_background_within. apply writes_within_refl.
Qed.

End LabelFrame.

Lemma label_frame_witness :
  writes_within
    (label_target
       {| Rect := mkRect 0 0 30 30; Pix := fun _ _ => transparent; Calls := [] |}
       (label_of 5 5 (Sprintf_d 12) DefaultConfig))
    {| Rect := mkRect 0 0 30 30; Pix := fun _ _ => transparent; Calls := [] |}
    (drawLargeNumber
       {| Rect := mkRect 0 0 30 30; Pix := fun _ _ => transparent; Calls := [] |}
       5 5 12 DefaultConfig).
Proof.
  apply label_frame. right. split; vm_compute; discriminate.
Defined.

Section LabelOverflow.

Lemma set_clipped_keeps (s : Canvas) (px py a b : Z) (c : RGBA) :
  Pix s a b = c -> Pix (set_clipped s px py c) a b = c.
Proof.
  intros H. unfold set_clipped.
  destruct ((0 <=? px) && (0 <=? py) && (px <? MaxX (Rect s))
            && (py <? MaxY (Rect s))); [| assumption].
  cbn [RGBA_Set Pix]. destruct (In_rect px py (Rect s)); [| assumption].
  now destruct ((a =? px) && (b =? py)).
Qed.

Lemma set_clipped_marks (s : Canvas) (px py : Z) (c : RGBA) :
  0 <= px < MaxX (Rect s) -> 0 <= py < MaxY (Rect s) ->
  In_rect px py (Rect s) = true ->
  Pix (set_clipped s px py c) px py = c.
Proof.
  intros Hx Hy Hin. unfold set_clipped.
  assert (E : (0 <=? px) && (0 <=? py) && (px <? MaxX (Rect s))
              && (py <? MaxY (Rect s)) = true)
    by (rewrite !andb_true_iff, !Z.leb_le, !Z.ltb_lt; lia).
  rewrite E. cbn [RGBA_Set Pix]. rewrite Hin. now rewrite !Z.eqb_refl.
Qed.

Lemma draw_block_keeps (img : Canvas) (digitX digitY row col a b : Z)
  (config : Config) :
  Pix img a b = NumberColor config ->
  Pix (draw_block img digitX digitY row col config) a b = NumberColor config.
Proof.
  intros H. unfold draw_block.
  apply (for_upto_inv (fun s => Pix s a b = NumberColor config)); [| assumption].
  intros sx s1 _ H1.
  apply (for_upto_inv (fun s => Pix s a b = NumberColor config)); [| assumption].
  intros sy s2 _ H2. now apply set_clipped_keeps.
Qed.

(** With a positive scale the block of a lit glyph cell starts with a write
    at its first pixel, which stays. *)
Lemma draw_block_marks (img : Canvas) (digitX digitY row col px0 py0 : Z)
  (config : Config) :
  0 < NumberScale config ->
  px0 = add (add digitX (mul col (NumberScale config))) 0 ->
  py0 = add (add digitY (mul row (NumberScale config))) 0 ->
  0 <= px0 < MaxX (Rect img) -> 0 <= py0 < MaxY (Rect img) ->
  In_rect px0 py0 (Rect img) = true ->
  Pix (draw_block img digitX digitY row col config) px0 py0 = NumberColor config.
Proof.
  intros Hs Epx Epy Hx Hy Hin. unfold draw_block, for_upto.
  replace (Z.to_nat (NumberScale config - 0))
    with (S (Z.to_nat (NumberScale config - 1))) by lia.
  cbn [count_loop]. change (always 0) with true. cbn iota.
  apply (count_loop_inv (fun s => Pix s px0 py0 = NumberColor config)).
  - intros sx s1 _ H1.
    apply (count_loop_inv (fun s => Pix s px0 py0 = NumberColor config)).
    + intros sy s2 _ H2. now apply set_clipped_keeps.
    + now apply set_clipped_keeps.
  - apply (count_loop_inv (fun s => Pix s px0 py0 = NumberColor config)).
    + intros sy s2 _ H2. now apply set_clipped_keeps.
    + rewrite <- Epx, <- Epy. now apply set_clipped_marks.
Qed.

Lemma range_from_nil {E St : Type} (i : Z) (body : Z -> E -> St -> St) (s : St) :
  range_from i [] body s = s.
Proof. reflexivity. Qed.

Lemma range_from_cons {E St : Type} (i : Z) (e : E) (l : list E)
  (body : Z -> E -> St -> St) (s : St) :
  range_from i (e :: l) body s = range_from (i + 1) l body (body i e s).
Proof. reflexivity. Qed.

Lemma range_loop_cons {E St : Type} (e : E) (l : list E)
  (body : Z -> E -> St -> St) (s : St) :
  range_loop (e :: l) body s = range_from (0 + 1) l body (body 0 e s).
Proof. reflexivity. Qed.

(** The digit 0 with a positive scale: the first lit cell of its glyph (row
    0, column 1) is written, whatever the label rectangle is. *)
Lemma draw_digits_zero_marks (img : Canvas) (l : label) (px0 py0 : Z)
  (config : Config) :
  0 < NumberScale config ->
  px0 = add (add (add (add (startX l) (padding l))
                    (mul 0 (add (digitWidth l) (spacing l))))
               (mul 1 (NumberScale config))) 0 ->
  py0 = add (add (add (startY l) (padding l)) (mul 0 (NumberScale config))) 0 ->
  0 <= px0 < MaxX (Rect img) -> 0 <= py0 < MaxY (Rect img) ->
  In_rect px0 py0 (Rect img) = true ->
  Pix (draw_digits img l "0" config) px0 py0 = NumberColor config.
Proof.
  intros Hs Epx Epy Hx Hy Hin. unfold draw_digits.
  change (list_ascii_of_string "0") with ["0"%char].
  rewrite range_loop_cons. rewrite range_from_nil. lazy beta.
  change (getDigitPattern "0")
    with [" ### "; "#   #"; "#   #"; "#   #"; "#   #"; "#   #"; " ### "]%string.
  rewrite range_loop_cons.
  apply (range_from_inv (fun s => Pix s px0 py0 = NumberColor config)).
  - intros row line s1 _ _ H1.
    apply (range_loop_inv (fun s => Pix s px0 py0 = NumberColor config));
      [| assumption].
    intros col char s2 _ _ H2.
    destruct (Ascii.eqb char "#"); [| assumption].
    now apply draw_block_keeps.
  - lazy beta.
    change (list_ascii_of_string " ### ") with [" "; "#"; "#"; "#"; " "]%char.
    rewrite range_loop_cons. lazy beta.
    change (Ascii.eqb " " "#") with false. cbv iota.
    rewrite range_from_cons. lazy beta.
    change (Ascii.eqb "#" "#") with true. cbv iota.
    apply (range_from_inv (fun s => Pix s px0 py0 = NumberColor config)).
    + intros col char s2 _ _ H2.
      destruct (Ascii.eqb char "#"); [| assumption].
      now apply draw_block_keeps.
    + now apply draw_block_marks.
Qed.

Lemma draw_background_skipped (img : Canvas) (l : label) (config : Config) :
  totalWidth l <= 0 -> draw_background img l config = img.
Proof.
  intros H. unfold draw_background, for_upto.
  now replace (Z.to_nat (totalWidth l - 0)) with 0%nat by lia.
Qed.

(** Claim C9 as stated fails: with a scale of 2^60 the size of the label
    overflows and its background rectangle is empty, yet the digit 0 drawn
    around the centre (-13*2^59, -9*2^59) writes the pixel (0, 0) of a canvas
    of one pixel. *)
Lemma label_frame_counterexample :
  Pix (drawLargeNumber
         {| Rect := mkRect 0 0 1 1; Pix := fun _ _ => transparent; Calls := [] |}
         (-7493989779944505344) (-5188146770730811392) 0
         (mkConfig 100 (mkRGBA 0 255 255 100) (mkRGBA 255 255 255 255)
            (mkRGBA 0 0 0 200) 2 1152921504606846976))
      0 0
  <> Pix {| Rect := mkRect 0 0 1 1; Pix := fun _ _ => transparent; Calls := [] |}
       0 0 /\
  ~ label_target
      {| Rect := mkRect 0 0 1 1; Pix := fun _ _ => transparent; Calls := [] |}
      (label_of (-7493989779944505344) (-5188146770730811392) (Sprintf_d 0)
         (mkConfig 100 (mkRGBA 0 255 255 100) (mkRGBA 255 255 255 255)
            (mkRGBA 0 0 0 200) 2 1152921504606846976))
      0 0.
Proof.
  set (img := {| Rect := mkRect 0 0 1 1; Pix := fun _ _ => transparent;
                 Calls := [] |}).
  set (config := mkConfig 100 (mkRGBA 0 255 255 100) (mkRGBA 255 255 255 255)
                   (mkRGBA 0 0 0 200) 2 1152921504606846976).
  set (l := mkLabel 5764607523034234880 8070450532247928832
              2305843009213693952 2305843009213693952
              (-8070450532247928832) (-5764607523034234880)
              (-3458764513820540928) (-2305843009213693952)).
  assert (El : label_of (-7493989779944505344) (-5188146770730811392) "0" config
               = l)
    by (vm_compute; reflexivity).
  assert (Hw : totalWidth l <= 0) by (cbn [totalWidth l]; lia).
  assert (Hs : 0 < NumberScale config) by (cbn [NumberScale config]; lia).
  assert (Hx : 0 <= 0 < MaxX (Rect img)) by (cbn [MaxX Rect img]; lia).
  assert (Hy : 0 <= 0 < MaxY (Rect img)) by (cbn [MaxY Rect img]; lia).
  assert (Hin : In_rect 0 0 (Rect img) = true) by reflexivity.
  pose proof (draw_digits_zero_marks img l 0 0 config Hs
                ltac:(vm_compute; reflexivity) ltac:(vm_compute; reflexivity)
                Hx Hy Hin) as Hmark.
  pose proof (draw_background_skipped img l config Hw) as Hskip.
  change (Sprintf_d 0) with "0"%string.
  split.
  - unfold drawLargeNumber. change (Sprintf_d 0) with "0"%string.
    rewrite El, Hskip, Hmark.
    cbn [NumberColor config Pix img]. discriminate.
  - rewrite El. unfold label_target, in_label_rect. cbn [startX totalWidth l].
    lia.
Qed.

End LabelOverflow.

(** ** The mapper at its edges *)

Section MapperEdges.
Import GoIntFacts.

(** Property X1.  The mappers panic exactly on a zero cell size: [PixelToCell]
    panics if and only if [cellSize] is 0, [CellToPixel] if and only if
    [cellSize] is 0 and the index is not negative (a negative index is rejected
    before the first division); the panic is the runtime's division by zero.
    A negative cell size does not panic. *)
Theorem mappers_panic_iff_zero_cell_size (idx x y W cs : Z) :
  ((exists msg, PixelToCell x y W cs = Panics msg) <-> cs = 0) /\
  ((exists msg, CellToPixel idx W cs = Panics msg) <-> cs = 0 /\ 0 <= idx) /\
  (forall msg,
      PixelToCell x y W cs = Panics msg \/ CellToPixel idx W cs = Panics msg ->
      msg = "runtime error: integer divide by zero"%string).
Proof.
  assert (HP : cs = 0 ->
               PixelToCell x y W cs
               = Panics "runtime error: integer divide by zero") by now intros ->.
  assert (HC : cs = 0 -> 0 <= idx ->
               CellToPixel idx W cs
               = Panics "runtime error: integer divide by zero").
  { intros -> Hidx. unfold CellToPixel.
    destruct (Z.ltb_spec idx 0) as [? | _]; [lia | reflexivity]. }
  split; [| split].
  - split.
    + intros [msg E]. destruct (Z.eq_dec cs 0) as [? | NE]; [assumption |].
      rewrite PixelToCell_returns in E by assumption. discriminate.
    + intros E. rewrite HP by assumption. eauto.
  - split.
    + intros [msg E]. destruct (Z.lt_ge_cases idx 0) as [Hneg | Hge].
      { rewrite CellToPixel_negative in E by assumption. discriminate. }
      destruct (Z.eq_dec cs 0) as [? | NE]; [now split |].
      destruct (CellToPixel_returns idx W cs NE Hge) as (px & py & E').
      congruence.
    + intros [E Hidx]. rewrite HC by assumption. eauto.
  - intros msg [E | E].
    + destruct (Z.eq_dec cs 0) as [E0 | NE].
      * rewrite HP in E by assumption. now injection E as <-.
      * rewrite PixelToCell_returns in E by assumption. discriminate.
    + destruct (Z.lt_ge_cases idx 0) as [Hneg | Hge].
      { rewrite CellToPixel_negative in E by assumption. discriminate. }
      destruct (Z.eq_dec cs 0) as [E0 | NE].
      * rewrite HC in E by assumption. now injection E as <-.
      * destruct (CellToPixel_returns idx W cs NE Hge) as (px & py & E').
        congruence.
Qed.

(** Property X2.  From a pixel to its cell and back to the centre of the
    cell.  For a positive cell size, a pixel with [0 <= x < columnsPerRow *
    cellSize] and [0 <= y], and no overflow, [PixelToCell] returns the cell
    [(y/cellSize) * columnsPerRow + x/cellSize], and [CellToPixel] maps that
    cell to the centre [((x/cellSize)*cellSize + cellSize/2,
    (y/cellSize)*cellSize + cellSize/2)] of the cell that contains the
    pixel. *)
Theorem pixel_to_cell_centre (x y W cs : Z) :
  in_int x -> in_int y -> in_int W -> in_int cs ->
  0 < cs -> 0 <= W ->
  0 <= x < columnsPerRow_spec W cs * cs -> 0 <= y ->
  (y / cs) * columnsPerRow_spec W cs + x / cs <= max_int ->
  (y / cs) * cs + Z.quot cs 2 <= max_int ->
  exists n,
    PixelToCell x y W cs = Returns n /\
    n = (y / cs) * columnsPerRow_spec W cs + x / cs /\
    CellToPixel n W cs =
    Returns ((x / cs) * cs + Z.quot cs 2, (y / cs) * cs + Z.quot cs 2, None).
Proof.
  intros Hx Hy HW Hcs Hcs0 HW0 Hxr Hy0 Hn Hyc.
  pose proof (columnsPerRow_spec_pos W cs) as Hc.
  set (c := columnsPerRow_spec W cs) in *.
  assert (Hcol : 0 <= x / cs < c).
  { split; [apply Z.div_pos; lia |]. apply Z.div_lt_upper_bound; lia. }
  assert (Hrow : 0 <= y / cs) by (apply Z.div_pos; lia).
  assert (Espec : PixelToCell_spec x y W cs = y / cs * c + x / cs).
  { unfold PixelToCell_spec. fold c. now rewrite !Z.quot_div_nonneg by lia. }
  exists (y / cs * c + x / cs). split; [| split; [reflexivity |]].
  - rewrite PixelToCell_exact; try assumption; [now rewrite Espec |].
    rewrite Espec. unfold in_int, min_int, max_int, half_modulus in *. nia.
  - assert (Em : (y / cs * c + x / cs) mod c = x / cs).
    { rewrite Z.add_comm, Z.mod_add by lia. apply Z.mod_small. lia. }
    assert (Ed : Z.quot (y / cs * c + x / cs) c = y / cs).
    { rewrite Z.quot_div_nonneg by nia.
      rewrite Z.add_comm, Z.div_add by lia. rewrite (Z.div_small (x / cs)) by lia.
      lia. }
    rewrite CellToPixel_exact; try assumption.
    + unfold CellToPixel_spec. fold c. now rewrite Em, Ed.
    + unfold in_int, min_int, max_int, half_modulus in *. nia.
    + nia.
    + unfold CellToPixel_spec. fold c. cbn [snd]. now rewrite Ed.
Qed.

Lemma pixel_to_cell_centre_witness :
  exists n,
    PixelToCell 250 150 600 100 = Returns n /\
    n = (150 / 100) * columnsPerRow_spec 600 100 + 250 / 100 /\
    CellToPixel n 600 100 =
    Returns ((250 / 100) * 100 + Z.quot 100 2, (150 / 100) * 100 + Z.quot 100 2, None).
Proof.
  apply (pixel_to_cell_centre 250 150 600 100);
    unfold in_int, min_int, max_int, half_modulus; cbn; lia.
Defined.

(** Property X3.  [PixelToCell] does not check [x] against the width: for
    non-negative coordinates a pixel one grid width ([columnsPerRow *
    cellSize]) to the right has the number of the pixel one row below. *)
Theorem PixelToCell_beyond_last_column (x y W cs : Z) :
  in_int x -> in_int y -> in_int W -> in_int cs ->
  0 < cs -> 0 <= W -> 0 <= x -> 0 <= y ->
  in_int (x + columnsPerRow_spec W cs * cs) -> in_int (y + cs) ->
  PixelToCell (x + columnsPerRow_spec W cs * cs) y W cs =
  PixelToCell x (y + cs) W cs.
Proof.
  intros Hx Hy HW Hcs Hcs0 HW0 Hx0 Hy0 Hxs Hys.
  pose proof (columnsPerRow_spec_pos W cs) as Hc.
  rewrite !PixelToCell_returns by lia. f_equal.
  rewrite !wrap_id by (apply quot_in_int; assumption).
  rewrite guard_is_max by (apply quot_between; lia).
  fold (columnsPerRow_spec W cs).
  set (c := columnsPerRow_spec W cs) in *.
  rewrite !Z.quot_div_nonneg by nia.
  rewrite Z.div_add by lia.
  replace (y + cs) with (y + 1 * cs) by lia. rewrite Z.div_add by lia.
  unfold add, mul. rewrite !wrap_add_l. f_equal. ring.
Qed.

Lemma PixelToCell_beyond_last_column_witness :
  PixelToCell (50 + columnsPerRow_spec 250 100 * 100) 50 250 100 =
  PixelToCell 50 (50 + 100) 250 100.
Proof.
  apply (PixelToCell_beyond_last_column 50 50 250 100);
    unfold in_int, min_int, max_int, half_modulus; cbn; lia.
Defined.

(** Property X4.  When at least one column fits in the width ([cellSize <=
    imageWidth]), the x coordinate [CellToPixel] returns for a valid index lies
    inside the image, [cellSize/2] into column [index mod
    (imageWidth/cellSize)], for every index, however large. *)
Theorem CellToPixel_x_in_image (idx W cs x y : Z) (e : option string) :
  in_int idx -> in_int W -> in_int cs ->
  0 <= idx -> 0 < cs -> cs <= W ->
  CellToPixel idx W cs = Returns (x, y, e) ->
  0 <= x < W /\ x mod cs = Z.quot cs 2 /\ x / cs = idx mod (W / cs).
Proof.
  intros Hidx HW Hcs Hidx0 Hcs0 HW0 E.
  rewrite CellToPixel_unfolded in E by (assumption || lia).
  injection E as Ex _ _.
  pose proof (CellToPixel_spec_x_bounds idx W cs HW Hcs Hidx0 Hcs0 ltac:(lia)) as Hb.
  unfold CellToPixel_spec in Hb. cbn [fst] in Hb.
  rewrite wrap_id in Ex
    by (unfold in_int, min_int, max_int, half_modulus in *; lia).
  assert (Ec : columnsPerRow_spec W cs = W / cs).
  { unfold columnsPerRow_spec. rewrite Z.quot_div_nonneg by lia.
    assert (1 <= W / cs) by (apply Z.div_le_lower_bound; lia). lia. }
  rewrite Ec in Ex.
  assert (H1 : 1 <= W / cs) by (apply Z.div_le_lower_bound; lia).
  pose proof (Z.mod_pos_bound idx (W / cs) ltac:(lia)) as Hm.
  pose proof (Z.mul_div_le W cs Hcs0) as Hfit.
  pose proof (half_bounds cs Hcs0) as Hh.
  assert (Hlast : (idx mod (W / cs) + 1) * cs <= W / cs * cs)
    by (apply Z.mul_le_mono_nonneg_r; lia).
  subst x. split; [lia |]. split.
  - rewrite Z.add_comm, Z.mod_add by lia. apply Z.mod_small. lia.
  - rewrite Z.add_comm, Z.div_add by lia. rewrite Z.div_small by lia. lia.
Qed.

Lemma CellToPixel_x_in_image_witness :
  0 <= 150 < 600 /\ 150 mod 100 = Z.quot 100 2 /\ 150 / 100 = 13 mod (600 / 100).
Proof.
  apply (CellToPixel_x_in_image 13 600 100 150 250 None);
    try (unfold in_int, min_int, max_int, half_modulus; cbn; lia).
  reflexivity.
Defined.

(** Property X5.  [CellToPixel] is injective: for a positive cell size and a
    non-negative width, two different valid indices whose coordinates do not
    overflow are mapped to different results. *)
Theorem CellToPixel_injective (i j W cs : Z) :
  in_int i -> in_int j -> in_int W -> in_int cs ->
  0 <= i -> 0 <= j -> 0 < cs -> 0 <= W ->
  snd (CellToPixel_spec i W cs) <= max_int ->
  snd (CellToPixel_spec j W cs) <= max_int ->
  i <> j ->
  CellToPixel i W cs <> CellToPixel j W cs.
Proof.
  intros Hi Hj HW Hcs Hi0 Hj0 Hcs0 HW0 Hyi Hyj Hne E. apply Hne.
  rewrite !CellToPixel_exact in E by assumption.
  injection E as Ex Ey.
  pose proof (columnsPerRow_spec_pos W cs) as Hc.
  set (c := columnsPerRow_spec W cs) in *.
  rewrite !Z.quot_div_nonneg in Ey by lia.
  assert (Em : i mod c = j mod c) by nia.
  assert (Ed : i / c = j / c) by nia.
  rewrite (Z.div_mod i c), (Z.div_mod j c) by lia. now rewrite Em, Ed.
Qed.

Lemma CellToPixel_injective_witness :
  CellToPixel 13 600 100 <> CellToPixel 7 600 100.
Proof.
  apply (CellToPixel_injective 13 7 600 100);
    unfold in_int, min_int, max_int, half_modulus; cbn; lia.
Defined.

End MapperEdges.

(** ** The order of the numbering *)

Section RowMajor.
Import GoIntFacts.
Variable config : Config.
Variables width height : Z.

Local Abbreviation cs := (CellSize config).

Local Abbreviation round_at k r n :=
  (mkVisit k r
     (add (mul k cs) (quo_lit cs 2)) (add (mul r cs) (quo_lit cs 2)) n
     ((add (mul k cs) (quo_lit cs 2) <? width)
      && (add (mul r cs) (quo_lit cs 2) <? height))).

(** The history one row of the numbering loop adds, in the order of the
    rounds. *)
Lemma row_history (r : Z) (n : nat) :
  forall (a : nat) (st : numbering),
    in_int (cellNumber st) ->
    rev (visited
           (fold_left
              (fun st k => number_cell config width height (Z.of_nat k) r st)
              (seq a n) st)) =
    rev (visited st) ++
    map (fun k => round_at (Z.of_nat k) r
                    (wrap (cellNumber st + (Z.of_nat k - Z.of_nat a))))
      (seq a n).
Proof.
  induction n as [| n IH]; intros a st Hc; cbn [seq fold_left map].
  - now rewrite app_nil_r.
  - rewrite IH by apply wrap_in_int.
    cbn [number_cell visited cellNumber rev]. rewrite <- app_assoc. f_equal.
    cbn [app]. f_equal.
    + replace (Z.of_nat a - Z.of_nat a) with 0 by lia.
      now rewrite Z.add_0_r, wrap_id by assumption.
    + apply map_ext_in. intros k Hk. apply in_seq in Hk. f_equal.
      unfold add. rewrite wrap_add_l. f_equal. lia.
Qed.

Lemma grid_history (ncols : nat) (m : nat) :
  forall (b : nat) (st : numbering),
    in_int (cellNumber st) ->
    rev (visited
           (fold_left
              (fun st r =>
                 fold_left
                   (fun st k =>
                      number_cell config width height (Z.of_nat k) (Z.of_nat r) st)
                   (seq 0 ncols) st)
              (seq b m) st)) =
    rev (visited st) ++
    flat_map
      (fun r =>
         map (fun k => round_at (Z.of_nat k) (Z.of_nat r)
                         (wrap (cellNumber st
                                + (Z.of_nat r - Z.of_nat b) * Z.of_nat ncols
                                + Z.of_nat k)))
           (seq 0 ncols))
      (seq b m).
Proof.
  induction m as [| m IH]; intros b st Hc; cbn [seq fold_left flat_map].
  - now rewrite app_nil_r.
  - rewrite IH by now apply number_row_in_int.
    rewrite row_history by assumption. rewrite <- app_assoc. f_equal. f_equal.
    + apply map_ext. intros k. do 2 f_equal. lia.
    + destruct (number_row_count config width height (Z.of_nat b) (seq 0 ncols) st)
        as [Hcount _].
      cbn zeta in Hcount. rewrite length_seq in Hcount.
      generalize (seq (S b) m). intros rows.
      induction rows as [| r rows IHr]; [reflexivity |].
      cbn [flat_map]. rewrite IHr. f_equal.
      apply map_ext. intros k. f_equal.
      rewrite <- wrap_add_ll, Hcount, wrap_add_ll. f_equal. lia.
Qed.

End RowMajor.

Section RowMajorTheorem.
Import GoIntFacts.

(** The centre of a cell along one axis, when the cell starts below the first
    multiple of the cell size that ends the loop. *)
Lemma centre_exact (cs n j : Z) :
  0 < cs -> n * cs <= max_int -> 0 <= j < n ->
  add (mul j cs) (quo_lit cs 2) = j * cs + Z.quot cs 2.
Proof.
  intros Hcs Hfit Hj.
  pose proof (half_bounds cs Hcs) as Hhalf.
  assert (Hlast : (j + 1) * cs <= n * cs)
    by (apply Z.mul_le_mono_nonneg_r; lia).
  assert (Hj0 : 0 <= j * cs) by (apply Z.mul_nonneg_nonneg; lia).
  assert (Hcsi : in_int cs)
    by (unfold in_int, min_int, max_int, half_modulus in *; lia).
  unfold add, mul. rewrite wrap_add_l, quo_lit_2 by assumption.
  apply wrap_id. unfold in_int, min_int, max_int, half_modulus in *. lia.
Qed.

Lemma flat_map_ext_in {A B : Type} (f g : A -> list B) (l : list A) :
  (forall a, In a l -> f a = g a) -> flat_map f l = flat_map g l.
Proof.
  induction l as [| a l IH]; intros H; [reflexivity |].
  cbn [flat_map]. rewrite H by now left. rewrite IH; [reflexivity |].
  intros b Hb. apply H. now right.
Qed.

Lemma fold_left_inv {A B : Type} (Inv : A -> Prop) (f : A -> B -> A) :
  (forall a b, Inv a -> Inv (f a b)) ->
  forall (l : list B) (a : A), Inv a -> Inv (fold_left f l a).
Proof.
  intros Hf. induction l as [| b l IH]; intros a Ha; [assumption |].
  cbn [fold_left]. apply IH, Hf, Ha.
Qed.

(** The numbering loop when its guards and its counter do not overflow: it
    returns, its rounds are those of the grid in row-major order, and its
    canvas is the one it was given with the label of each round drawn in that
    order. *)
Lemma number_cells_run (config : Config) (W H : Z) (ov : Canvas) (fuel : nat) :
  0 < CellSize config ->
  0 <= W -> 0 <= H ->
  ceil_div W (CellSize config) * CellSize config <= max_int ->
  ceil_div H (CellSize config) * CellSize config <= max_int ->
  cell_count_spec W H (CellSize config) <= max_int ->
  (Z.to_nat (Z.max W H) < fuel)%nat ->
  exists st,
    number_cells fuel config W H ov = Returns st /\
    rev (visited st) = row_major_rounds config W H /\
    overlay st = fold_left (draw_round config) (row_major_rounds config W H) ov.
Proof.
  intros Hcs HW0 HH0 HWfit HHfit Hcount Hfuel.
  pose proof (ceil_div_reaches W _ Hcs) as HWr.
  pose proof (ceil_div_reaches H _ Hcs) as HHr.
  pose proof (ceil_div_le W _ Hcs HW0) as HWle.
  pose proof (ceil_div_le H _ Hcs HH0) as HHle.
  pose proof (ceil_div_nonneg W _ Hcs HW0) as HWn.
  pose proof (ceil_div_nonneg H _ Hcs HH0) as HHn.
  pose proof (half_bounds _ Hcs) as Hhalf.
  eexists. split.
  { apply number_cells_unroll; try assumption;
      unfold in_int, min_int, max_int, half_modulus in *; lia. }
  match goal with |- context [fold_left ?f ?rows ?s0] =>
    set (st := fold_left f rows s0)
  end.
  assert (Hrounds : rev (visited st) = row_major_rounds config W H).
  { unfold st. rewrite grid_history
      by (cbn; unfold in_int, min_int, max_int, half_modulus; lia).
    cbn [visited rev app cellNumber]. unfold row_major_rounds.
    apply flat_map_ext_in. intros r Hr. apply in_seq in Hr.
    apply map_ext_in. intros k Hk. apply in_seq in Hk.
    unfold cell_count_spec in Hcount.
    set (C := ceil_div W (CellSize config)) in *.
    set (Rn := ceil_div H (CellSize config)) in *.
    unfold round_of.
    rewrite (centre_exact _ C (Z.of_nat k)) by (assumption || lia).
    rewrite (centre_exact _ Rn (Z.of_nat r)) by (assumption || lia).
    rewrite Z2Nat.id by lia. f_equal.
    assert (Hn : 0 <= Z.of_nat r * C + Z.of_nat k < Rn * C).
    { split; [apply Z.add_nonneg_nonneg; [apply Z.mul_nonneg_nonneg |]; lia |].
      assert ((Z.of_nat r + 1) * C <= Rn * C)
        by (apply Z.mul_le_mono_nonneg_r; lia).
      lia. }
    rewrite wrap_id by (unfold in_int, min_int, max_int, half_modulus in *; lia).
    lia. }
  split; [assumption |]. rewrite <- Hrounds. unfold st.
  apply (fold_left_inv
           (fun st => overlay st = fold_left (draw_round config) (rev (visited st)) ov));
    [| reflexivity].
  intros st1 r Hst1.
  apply (fold_left_inv
           (fun st => overlay st = fold_left (draw_round config) (rev (visited st)) ov));
    [| assumption].
  intros st2 k Hst2. cbn [number_cell overlay visited rev].
  rewrite fold_left_app. cbn [fold_left]. rewrite <- Hst2. reflexivity.
Qed.

(** Property X6.  The numbering is row-major.  For a positive cell size and
    an image of width [W >= 0] and height [H >= 0], when the loop guards and
    the counter do not overflow, the rounds of the numbering loop are, in
    order, the cells of a grid of [ceil(H/cellSize)] rows of
    [ceil(W/cellSize)] columns, row by row from the top left: the round at
    column [k] of row [r] has the number [r * ceil(W/cellSize) + k] and the
    centre [(k*cellSize + cellSize/2, r*cellSize + cellSize/2)], and its label
    is drawn when that centre lies in the image. *)
Theorem numbering_is_row_major (config : Config) (W H : Z) (ov : Canvas)
  (fuel : nat) :
  0 < CellSize config ->
  0 <= W -> 0 <= H ->
  ceil_div W (CellSize config) * CellSize config <= max_int ->
  ceil_div H (CellSize config) * CellSize config <= max_int ->
  cell_count_spec W H (CellSize config) <= max_int ->
  (Z.to_nat (Z.max W H) < fuel)%nat ->
  rounds_of (number_cells fuel config W H ov) = row_major_rounds config W H.
Proof.
  intros Hcs HW0 HH0 HWfit HHfit Hcount Hfuel.
  destruct (number_cells_run config W H ov fuel Hcs HW0 HH0 HWfit HHfit Hcount
              Hfuel) as (st & -> & Hrounds & _).
  exact Hrounds.
Qed.

Lemma numbering_is_row_major_witness :
  rounds_of
    (number_cells 300 DefaultConfig 250 200
       {| Rect := mkRect 0 0 250 200; Pix := fun _ _ => transparent; Calls := [] |})
  = row_major_rounds DefaultConfig 250 200.
Proof.
  apply (numbering_is_row_major DefaultConfig 250 200);
    try (cbn; unfold max_int, half_modulus; lia).
Defined.

Lemma numbering_consistent_when_layouts_agree_witness :
  PixelToCell 150 50 200 100 = Returns 1.
Proof.
  apply (numbering_consistent_when_layouts_agree DefaultConfig 200 100 3
           {| Rect := mkRect 0 0 200 100; Pix := fun _ _ => transparent;
              Calls := [] |}
           (number_cell DefaultConfig 200 100 1 0
              (number_cell DefaultConfig 200 100 0 0
                 {| overlay := {| Rect := mkRect 0 0 200 100;
                                  Pix := fun _ _ => transparent; Calls := [] |};
                    cellNumber := 0; visited := [] |}))
           (mkVisit 1 0 150 50 1 true));
    try (cbn; unfold max_int, half_modulus; lia).
  - reflexivity.
  - left. reflexivity.
Defined.

End RowMajorTheorem.

(** ** Whole runs of [AddGrid] *)

Section LoopRuns.
Context {St : Type}.
Variables (cond : Z -> bool) (post : Z -> Z) (body : Z -> St -> outcome St).

(** Partial correctness of a loop: a property [Inv] of the state that every
    round keeps holds of the state the loop returns, whatever the fuel; [P]
    is what is known of the counter. *)
Lemma for_loop_inv (P : Z -> Prop) (Inv : St -> Prop) :
  (forall i, P i -> cond i = true -> P (post i)) ->
  (forall i s s', P i -> cond i = true -> Inv s -> body i s = Returns s' -> Inv s') ->
  forall (fuel : nat) (i : Z) (s s' : St),
    P i -> Inv s -> for_loop fuel cond post body i s = Returns s' -> Inv s'.
Proof.
  intros HP Hb. induction fuel as [| fuel IH]; intros i s s' Hi Hs E;
    cbn [for_loop] in E; [discriminate |].
  destruct (cond i) eqn:Ec; [| now injection E as <-].
  destruct (body i s) as [s1 | msg |] eqn:Eb; cbn [bind] in E; try discriminate.
  apply (IH (post i) s1 s'); eauto.
Qed.

(** A loop whose counter does not move and whose condition holds never
    returns. *)
Lemma for_loop_stuck (g : Z -> St -> St) (i : Z) :
  cond i = true -> post i = i ->
  (forall s, body i s = Returns (g i s)) ->
  forall (fuel : nat) (s : St), for_loop fuel cond post body i s = OutOfFuel.
Proof.
  intros Hc Hp Hb. induction fuel as [| fuel IH]; intros s; cbn [for_loop];
    [reflexivity |].
  rewrite Hc, Hb. cbn [bind]. rewrite Hp. apply IH.
Qed.

End LoopRuns.

Section GuardedRounds.
Context {St : Type}.
Variable Inv : St -> Prop.

(** Round [j] of a counting loop runs only when the guard held at every
    round up to [j]. *)
Lemma count_loop_inv_guarded (guard : Z -> bool) (body : Z -> St -> St) :
  forall (n : nat) (i : Z) (s : St),
    (forall j s',
        i <= j < i + Z.of_nat n ->
        (forall j', i <= j' <= j -> guard j' = true) ->
        Inv s' -> Inv (body j s')) ->
    Inv s -> Inv (count_loop n i guard body s).
Proof.
  induction n as [| n IH]; intros i s Hb Hs; cbn [count_loop]; [assumption |].
  destruct (guard i) eqn:Eg; [| assumption].
  apply IH.
  - intros j s' Hj Hg. apply Hb; [lia |].
    intros j' Hj'. destruct (Z.eq_dec j' i) as [-> | NE]; [assumption |].
    apply Hg. lia.
  - apply Hb; [lia | | assumption].
    intros j' Hj'. now replace j' with i by lia.
Qed.

End GuardedRounds.

Section AddGridRuns.
Import GoIntFacts.

Lemma RGBA_Set_within (ok : Z -> Z -> Prop) (s0 s : Canvas) (x y : Z) (c : RGBA) :
  writes_within ok s0 s -> ok x y -> writes_within ok s0 (RGBA_Set s x y c).
Proof.
  intros (HR & (new & HC & HF) & HP) Hok.
  split; [exact HR |]. split.
  - exists ((x, y, c) :: new). cbn [RGBA_Set Calls]. rewrite HC.
    split; [reflexivity | now constructor].
  - intros qx qy Hq. cbn [RGBA_Set Pix]. rewrite <- HP by assumption.
    destruct (In_rect x y (Rect s)); [| reflexivity].
    destruct (Z.eqb_spec qx x) as [-> | ?]; [| reflexivity].
    destruct (Z.eqb_spec qy y) as [-> | ?]; [| reflexivity].
    contradiction.
Qed.

(** The band of a separator: the guard [0 <= x - i] of the loop keeps the
    writes at non-negative coordinates, not beyond [x]. *)
Lemma band_point (x lineWidth j : Z) :
  in_int x -> in_int lineWidth -> 0 <= j < lineWidth ->
  (forall j', 0 <= j' <= j -> (0 <=? sub x j') = true) ->
  0 <= sub x j <= x.
Proof.
  intros Hx Hlw Hj Hg.
  pose proof (Hg 0 ltac:(lia)) as H0. apply Z.leb_le in H0.
  pose proof (Hg j ltac:(lia)) as H1. apply Z.leb_le in H1.
  unfold sub in *. rewrite Z.sub_0_r, wrap_id in H0 by assumption.
  rewrite wrap_id in *
    by (unfold in_int, min_int, max_int, half_modulus in *; lia).
  lia.
Qed.

Variable img : Image.
Variable config : Config.

Local Abbreviation inside :=
  (fun px py => 0 <= px < MaxX (Bounds img) /\ 0 <= py < MaxY (Bounds img)).

Lemma draw_vertical_line_inside (s0 s : Canvas) (x : Z) :
  in_int x -> in_int (LineWidth config) -> x < MaxX (Bounds img) ->
  writes_within inside s0 s ->
  writes_within inside s0 (draw_vertical_line config (MaxY (Bounds img)) x s).
Proof.
  intros Hx Hlw Hlt Hs. unfold draw_vertical_line.
  apply (for_upto_inv (writes_within inside s0)); [| assumption].
  intros y s1 Hy H1. unfold for_upto.
  apply (count_loop_inv_guarded (writes_within inside s0)); [| assumption].
  intros j s2 Hj Hg H2. apply RGBA_Set_within; [assumption |].
  pose proof (band_point x (LineWidth config) j Hx Hlw ltac:(lia) Hg). lia.
Qed.

Lemma draw_horizontal_line_inside (s0 s : Canvas) (y : Z) :
  in_int y -> in_int (LineWidth config) -> y < MaxY (Bounds img) ->
  writes_within inside s0 s ->
  writes_within inside s0 (draw_horizontal_line config (MaxX (Bounds img)) y s).
Proof.
  intros Hy Hlw Hlt Hs. unfold draw_horizontal_line.
  apply (for_upto_inv (writes_within inside s0)); [| assumption].
  intros x s1 Hx H1. unfold for_upto.
  apply (count_loop_inv_guarded (writes_within inside s0)); [| assumption].
  intros j s2 Hj Hg H2. apply RGBA_Set_within; [assumption |].
  pose proof (band_point y (LineWidth config) j Hy Hlw ltac:(lia) Hg). lia.
Qed.

(** A label is drawn through the clipped write only. *)
Lemma drawLargeNumber_inside (s0 s : Canvas) (x y number : Z) :
  Rect s0 = Bounds img ->
  writes_within inside s0 s ->
  writes_within inside s0 (drawLargeNumber s x y number config).
Proof.
  intros HR Hs. unfold drawLargeNumber, draw_digits, draw_background, draw_block.
  apply (range_loop_inv (writes_within inside s0)).
  - intros i digit s1 _ _ H1.
    apply (range_loop_inv (writes_within inside s0)); [| assumption].
    intros row line s2 _ _ H2.
    apply (range_loop_inv (writes_within inside s0)); [| assumption].
    intros col char s3 _ _ H3.
    destruct (Ascii.eqb char "#"); [| assumption].
    apply (for_upto_inv (writes_within inside s0)); [| assumption].
    intros sx s4 _ H4.
    apply (for_upto_inv (writes_within inside s0)); [| assumption].
    intros sy s5 _ H5.
    apply set_clipped_within; [assumption |]. rewrite HR. tauto.
  - apply (for_upto_inv (writes_within inside s0)); [| assumption].
    intros dx s1 _ H1.
    apply (for_upto_inv (writes_within inside s0)); [| assumption].
    intros dy s2 _ H2.
    apply set_clipped_within; [assumption |]. rewrite HR. tauto.
Qed.

Lemma AddGrid_lines_inside (fuel : nat) (ov : Canvas) :
  in_int (CellSize config) -> in_int (LineWidth config) ->
  AddGrid_lines fuel img config = Returns ov ->
  writes_within inside
    (Draw_Src {| Rect := Bounds img; Pix := fun _ _ => transparent; Calls := [] |}
       (Bounds img) img)
    ov.
Proof.
  intros Hcs Hlw E. unfold AddGrid_lines in E. unfold NewRGBA in E.
  destruct (mul3NonNeg 4 (Dx (Bounds img)) (Dy (Bounds img)) <? 0);
    [discriminate |].
  cbn [bind] in E.
  set (s0 := Draw_Src _ _ _) in *.
  destruct (draw_vertical_lines fuel config (MaxX (Bounds img))
              (MaxY (Bounds img)) s0) as [s1 | msg |] eqn:Ev;
    cbn [bind] in E; try discriminate.
  assert (H1 : writes_within inside s0 s1).
  { revert Ev. unfold draw_vertical_lines.
    apply (for_loop_inv _ _ _ in_int (writes_within inside s0)).
    - intros i _ _. apply wrap_in_int.
    - intros x s s' Hx Hc Hs [= <-]. apply Z.ltb_lt in Hc.
      now apply draw_vertical_line_inside.
    - assumption.
    - apply writes_within_refl. }
  revert E. unfold draw_horizontal_lines.
  apply (for_loop_inv _ _ _ in_int (writes_within inside s0)).
  - intros i _ _. apply wrap_in_int.
  - intros y s s' Hy Hc Hs [= <-]. apply Z.ltb_lt in Hc.
    now apply draw_horizontal_line_inside.
  - assumption.
  - assumption.
Qed.

Lemma number_cells_inside (fuel : nat) (s0 ov : Canvas) (st : numbering) :
  Rect s0 = Bounds img ->
  writes_within inside s0 ov ->
  number_cells fuel config (MaxX (Bounds img)) (MaxY (Bounds img)) ov = Returns st ->
  writes_within inside s0 (overlay st).
Proof.
  intros HR Hov. unfold number_cells.
  apply (for_loop_inv _ _ _ (fun _ => True)
           (fun st => writes_within inside s0 (overlay st)));
    [trivial | | trivial | assumption].
  intros gridY st1 st2 _ _ H1.
  apply (for_loop_inv _ _ _ (fun _ => True)
           (fun st => writes_within inside s0 (overlay st)));
    [trivial | | trivial | assumption].
  intros gridX st3 st4 _ _ H3 [= <-]. cbn [number_cell overlay].
  match goal with |- context [if ?b then _ else _] => destruct b end;
    [| assumption].
  now apply drawLargeNumber_inside.
Qed.

End AddGridRuns.

Section AddGridTheorems.

(** Property X8.  [AddGrid] writes inside the image only.  For every image
    and every configuration (its cell size and line width being [int]s),
    whatever the fuel, when [AddGrid] reaches the canvas it encodes, that
    canvas has the bounds of the image, every [Set] call made on it since the
    image was copied was at a point [(x, y)] with [0 <= x < Max.X] and
    [0 <= y < Max.Y], and every other pixel is as [draw.Draw] left it. *)
Theorem AddGrid_writes_inside (fuel : nat) (img : Image) (config : Config)
  (st : numbering) :
  in_int (CellSize config) -> in_int (LineWidth config) ->
  AddGrid_canvas fuel img config = Returns st ->
  writes_within
    (fun px py => 0 <= px < MaxX (Bounds img) /\ 0 <= py < MaxY (Bounds img))
    (Draw_Src {| Rect := Bounds img; Pix := fun _ _ => transparent; Calls := [] |}
       (Bounds img) img)
    (overlay st).
Proof.
  intros Hcs Hlw E. unfold AddGrid_canvas in E.
  destruct (AddGrid_lines fuel img config) as [ov | msg |] eqn:El;
    cbn [bind] in E; try discriminate.
  apply (number_cells_inside img config fuel _ ov st); [reflexivity | | assumption].
  now apply (AddGrid_lines_inside img config fuel).
Qed.

Lemma AddGrid_writes_inside_witness :
  exists st,
    AddGrid_canvas 20 (mkImage (mkRect 0 0 12 8) (fun _ _ => transparent))
      (mkConfig 5 (mkRGBA 0 255 255 100) (mkRGBA 255 255 255 255)
         (mkRGBA 0 0 0 200) 1 1) = Returns st /\
    writes_within (fun px py => 0 <= px < 12 /\ 0 <= py < 8)
      (Draw_Src
         {| Rect := mkRect 0 0 12 8; Pix := fun _ _ => transparent; Calls := [] |}
         (mkRect 0 0 12 8) (mkImage (mkRect 0 0 12 8) (fun _ _ => transparent)))
      (overlay st).
Proof.
  eexists. split; [reflexivity |].
  apply (AddGrid_writes_inside 20
           (mkImage (mkRect 0 0 12 8) (fun _ _ => transparent))
           (mkConfig 5 (mkRGBA 0 255 255 100) (mkRGBA 255 255 255 255)
              (mkRGBA 0 0 0 200) 1 1));
    [unfold in_int, min_int, max_int, half_modulus; cbn; lia ..| reflexivity].
Defined.

(** Property X10.  [AddGrid] does not validate the cell size: with a cell size
    of zero, on an image whose canvas can be allocated and that has a positive
    [Max.X] or [Max.Y], the first line loop that is entered never advances,
    and [AddGrid] does not return, whatever the fuel. *)
Theorem AddGrid_zero_cell_size_never_returns (img : Image) (config : Config)
  (fuel : nat) :
  CellSize config = 0 ->
  0 <= mul3NonNeg 4 (Dx (Bounds img)) (Dy (Bounds img)) ->
  0 < MaxX (Bounds img) \/ 0 < MaxY (Bounds img) ->
  AddGrid_canvas fuel img config = OutOfFuel.
Proof.
  intros Hcs Halloc Hsize.
  unfold AddGrid_canvas, AddGrid_lines, NewRGBA.
  destruct (Z.ltb_spec (mul3NonNeg 4 (Dx (Bounds img)) (Dy (Bounds img))) 0)
    as [? | _]; [lia |].
  cbn [bind]. set (s0 := Draw_Src _ _ _).
  unfold draw_vertical_lines, draw_horizontal_lines. rewrite Hcs.
  destruct (Z.ltb_spec 0 (MaxX (Bounds img))) as [HW | HW].
  - rewrite (for_loop_stuck _ _ _
               (fun x ov => draw_vertical_line config (MaxY (Bounds img)) x ov));
      [reflexivity | now apply Z.ltb_lt | reflexivity | reflexivity].
  - destruct Hsize as [? | HH]; [lia |].
    destruct fuel as [| fuel]; [reflexivity |].
    rewrite for_loop_first by lia.
    destruct (Z.ltb_spec 0 (MaxX (Bounds img))) as [? | _]; [lia |].
    cbn [bind].
    rewrite (for_loop_stuck _ _ _
               (fun y ov => draw_horizontal_line config (MaxX (Bounds img)) y ov));
      [reflexivity | now apply Z.ltb_lt | reflexivity | reflexivity].
Qed.

Lemma AddGrid_zero_cell_size_never_returns_witness :
  AddGrid_canvas 1000 (mkImage (mkRect 0 0 600 400) (fun _ _ => transparent))
    (mkConfig 0 (mkRGBA 0 255 255 100) (mkRGBA 255 255 255 255)
       (mkRGBA 0 0 0 200) 2 3) = OutOfFuel.
Proof.
  apply (AddGrid_zero_cell_size_never_returns
           (mkImage (mkRect 0 0 600 400) (fun _ _ => transparent))
           (mkConfig 0 (mkRGBA 0 255 255 100) (mkRGBA 255 255 255 255)
              (mkRGBA 0 0 0 200) 2 3) 1000).
  - reflexivity.
  - vm_compute. discriminate.
  - left. cbn. lia.
Defined.

(** Property X11.  No grid line is drawn when the line width is not positive
    or the cell size is at least [Max.X] and [Max.Y]: the canvas after the
    line-drawing phase is the copy of the image, with no [Set] call made. *)
Theorem AddGrid_draws_no_line (fuel : nat) (img : Image) (config : Config)
  (ov : Canvas) :
  LineWidth config <= 0 \/
  (MaxX (Bounds img) <= CellSize config /\ MaxY (Bounds img) <= CellSize config) ->
  AddGrid_lines fuel img config = Returns ov ->
  ov = Draw_Src {| Rect := Bounds img; Pix := fun _ _ => transparent; Calls := [] |}
         (Bounds img) img.
Proof.
  intros Hcase E. unfold AddGrid_lines, NewRGBA in E.
  destruct (mul3NonNeg 4 (Dx (Bounds img)) (Dy (Bounds img)) <? 0);
    [discriminate |].
  cbn [bind] in E. set (s0 := Draw_Src _ _ _) in *.
  destruct (draw_vertical_lines fuel config (MaxX (Bounds img))
              (MaxY (Bounds img)) s0) as [s1 | msg |] eqn:Ev;
    cbn [bind] in E; try discriminate.
  destruct Hcase as [Hlw | [HW HH]].
  - assert (Hline : forall (body : Z -> Z -> Canvas -> Canvas)
                      (guard : Z -> Z -> bool) (len : Z) (s : Canvas),
               for_upto 0 len always
                 (fun a s => for_upto 0 (LineWidth config) (guard a) (body a) s) s
               = s).
    { intros body guard len s.
      apply (for_upto_inv (fun s' => s' = s)); [| reflexivity].
      intros a s' _ ->. unfold for_upto.
      now replace (Z.to_nat (LineWidth config - 0)) with 0%nat by lia. }
    assert (E1 : s1 = s0).
    { revert Ev. unfold draw_vertical_lines.
      apply (for_loop_inv _ _ _ (fun _ => True) (fun s => s = s0));
        [trivial | | trivial | reflexivity].
      intros x s s' _ _ -> [= <-]. unfold draw_vertical_line.
      apply (Hline (fun y i ov => RGBA_Set ov (sub x i) y (GridColor config))
               (fun _ i => 0 <=? sub x i)). }
    subst s1. revert E. unfold draw_horizontal_lines.
    apply (for_loop_inv _ _ _ (fun _ => True) (fun s => s = s0));
      [trivial | | trivial | reflexivity].
    intros y s s' _ _ -> [= <-]. unfold draw_horizontal_line.
    apply (Hline (fun x i ov => RGBA_Set ov x (sub y i) (GridColor config))
             (fun _ i => 0 <=? sub y i)).
  - unfold draw_vertical_lines in Ev. unfold draw_horizontal_lines in E.
    destruct fuel as [| fuel]; [discriminate |].
    cbn [for_loop] in Ev, E.
    destruct (Z.ltb_spec (CellSize config) (MaxX (Bounds img))) as [? | _];
      [lia |].
    destruct (Z.ltb_spec (CellSize config) (MaxY (Bounds img))) as [? | _];
      [lia |].
    congruence.
Qed.

Lemma AddGrid_draws_no_line_witness :
  exists ov,
    AddGrid_lines 5 (mkImage (mkRect 0 0 100 100) (fun _ _ => transparent))
      (mkConfig 150 (mkRGBA 0 255 255 100) (mkRGBA 255 255 255 255)
         (mkRGBA 0 0 0 200) 2 3) = Returns ov /\
    ov = Draw_Src {| Rect := mkRect 0 0 100 100; Pix := fun _ _ => transparent;
                     Calls := [] |}
           (mkRect 0 0 100 100)
           (mkImage (mkRect 0 0 100 100) (fun _ _ => transparent)).
Proof.
  eexists. split; [reflexivity |].
  apply (AddGrid_draws_no_line 5
           (mkImage (mkRect 0 0 100 100) (fun _ _ => transparent))
           (mkConfig 150 (mkRGBA 0 255 255 100) (mkRGBA 255 255 255 255)
              (mkRGBA 0 0 0 200) 2 3)).
  - right. cbn. lia.
  - reflexivity.
Defined.

End AddGridTheorems.

(** ** The number of cells [AddGrid] numbers *)

Section CellCount.
Import GoIntFacts.

(** A run of the numbering loop that returns, on an image with pixels, had
    fuel for its rows and columns: its result is the fold over the rounds. *)
Lemma number_cells_returned (config : Config) (W H : Z) (fuel : nat)
  (ov : Canvas) (st : numbering) :
  0 < CellSize config -> 0 < W -> 0 < H ->
  ceil_div W (CellSize config) * CellSize config <= max_int ->
  ceil_div H (CellSize config) * CellSize config <= max_int ->
  number_cells fuel config W H ov = Returns st ->
  (Z.to_nat (ceil_div W (CellSize config)) < fuel)%nat /\
  (Z.to_nat (ceil_div H (CellSize config)) < fuel)%nat.
Proof.
  intros Hcs HW HH HWfit HHfit Hrun.
  pose proof (ceil_div_reaches W _ Hcs) as HWr.
  pose proof (ceil_div_reaches H _ Hcs) as HHr.
  pose proof (ceil_div_nonneg W _ Hcs ltac:(lia)) as HWn.
  pose proof (ceil_div_nonneg H _ Hcs ltac:(lia)) as HHn.
  assert (HWi : in_int W)
    by (unfold in_int, min_int, max_int, half_modulus in *; lia).
  assert (HHi : in_int H)
    by (unfold in_int, min_int, max_int, half_modulus in *; lia).
  destruct (Nat.le_gt_cases fuel (Z.to_nat (ceil_div W (CellSize config))))
    as [Hlow | Hfw].
  { exfalso. unfold number_cells in Hrun.
    destruct (Nat.eq_dec fuel 0) as [-> | Hpos]; [discriminate |].
    rewrite for_loop_first in Hrun by lia.
    assert (Hg : (mul 0 (CellSize config) <? H) = true)
      by (apply Z.ltb_lt; unfold mul; cbn [Z.mul]; exact HH).
    rewrite Hg in Hrun.
    assert (U : for_loop fuel (fun gridX => mul gridX (CellSize config) <? W)
                  (fun gridX => add gridX 1)
                  (fun gridX st =>
                     Returns (number_cell config W H gridX 0 st))
                  (Z.of_nat 0)
                  {| overlay := ov; cellNumber := 0; visited := [] |}
                = OutOfFuel).
    { apply (for_loop_starved _ _ _
               (fun gridX st => number_cell config W H gridX 0 st)
               (Z.to_nat (ceil_div W (CellSize config))) Z.of_nat);
        [| | | assumption].
      - intros k Hk. now apply index_guard_true.
      - intros k Hk. apply (index_step config W); try assumption. lia.
      - reflexivity. }
    cbn [Z.of_nat] in U. rewrite U in Hrun. discriminate. }
  split; [assumption |].
  destruct (Nat.le_gt_cases fuel (Z.to_nat (ceil_div H (CellSize config))))
    as [Hlow | Hfh]; [exfalso | assumption].
  assert (U : number_cells fuel config W H ov = OutOfFuel).
  { unfold number_cells. change 0 with (Z.of_nat 0) at 3.
    apply (for_loop_starved _ _ _
             (fun gridY st =>
                fold_left
                  (fun st k => number_cell config W H (Z.of_nat k) gridY st)
                  (seq 0 (Z.to_nat (ceil_div W (CellSize config)))) st)
             (Z.to_nat (ceil_div H (CellSize config))) Z.of_nat);
      [| | | assumption].
    - intros k Hk. now apply index_guard_true.
    - intros k Hk. apply (index_step config H); try assumption. lia.
    - intros k s' Hk. apply number_row_unroll; try assumption. lia. }
  rewrite U in Hrun. discriminate.
Qed.

(** With no column or no row the numbering loop numbers no cell. *)
Lemma number_cells_empty (config : Config) (W H : Z) (fuel : nat)
  (ov : Canvas) (st : numbering) :
  W = 0 \/ H = 0 ->
  number_cells fuel config W H ov = Returns st ->
  cellNumber st = 0 /\ visited st = [].
Proof.
  intros [-> | ->]; unfold number_cells.
  - apply (for_loop_inv _ _ _ (fun _ => True)
             (fun st => cellNumber st = 0 /\ visited st = []));
      [trivial | | trivial | now split].
    intros gridY st1 st2 _ _ Hst1 Ein.
    destruct fuel as [| fuel]; [discriminate |]. cbn [for_loop] in Ein.
    change (mul 0 (CellSize config) <? 0) with false in Ein.
    now injection Ein as <-.
  - destruct fuel as [| fuel]; [discriminate |]. cbn [for_loop].
    change (mul 0 (CellSize config) <? 0) with false.
    intros [= <-]. now split.
Qed.

Lemma ceil_div_zero (b : Z) : 0 < b -> ceil_div 0 b = 0.
Proof. intros Hb. unfold ceil_div. apply Z.div_small. lia. Qed.

(** Claim C7, amended.  For a positive cell size and an image with bounds
    from the origin, of width [W >= 0] and height [H >= 0]: whenever [AddGrid]
    reaches the canvas it encodes, its numbering loop has enumerated
    [ceil(H/cellSize) * ceil(W/cellSize)] cells -- that is the final value of
    [cellNumber] and the number of rounds made; and it reaches that canvas
    for every such image with pixels whose buffer can be allocated ([4*W*H]
    fits an [int]), given fuel beyond the larger side. *)
Theorem cell_count (img : Image) (config : Config) (W H : Z) :
  Bounds img = mkRect 0 0 W H ->
  in_int W -> in_int H ->
  0 < CellSize config -> in_int (CellSize config) ->
  0 <= W -> 0 <= H ->
  (forall fuel st,
      AddGrid_canvas fuel img config = Returns st ->
      cellNumber st = cell_count_spec W H (CellSize config) /\
      Z.of_nat (List.length (visited st)) = cell_count_spec W H (CellSize config)) /\
  (0 < W -> 0 < H -> 4 * W * H <= max_int ->
   forall fuel, (Z.to_nat (Z.max W H) < fuel)%nat ->
                exists st, AddGrid_canvas fuel img config = Returns st).
Proof.
  intros HB HWi HHi Hcs Hcsi HW0 HH0. split.
  - intros fuel st E. unfold AddGrid_canvas in E.
    destruct (AddGrid_lines fuel img config) as [ov | msg |] eqn:El;
      cbn [bind] in E; try discriminate.
    rewrite HB in E. cbn [MaxX MaxY] in E.
    destruct (Z.eq_dec W 0) as [EW | NW];
      [| destruct (Z.eq_dec H 0) as [EH | NH]].
    + destruct (number_cells_empty config W H fuel ov st (or_introl EW) E)
        as [-> ->].
      unfold cell_count_spec. rewrite EW, ceil_div_zero by assumption.
      cbn [List.length Z.of_nat]. lia.
    + destruct (number_cells_empty config W H fuel ov st (or_intror EH) E)
        as [-> ->].
      unfold cell_count_spec. rewrite EH, ceil_div_zero by assumption.
      cbn [List.length Z.of_nat]. lia.
    + assert (Hfit : 4 * W * H <= max_int).
      { unfold AddGrid_lines in El. rewrite HB in El.
        destruct (NewRGBA (mkRect 0 0 W H)) as [ov0 | msg |] eqn:EN;
          try discriminate.
        now apply (NewRGBA_returned W H ov0). }
      destruct (allocatable_image_fits (CellSize config) W H Hcs Hcsi
                  ltac:(lia) ltac:(lia) Hfit) as (HWfit & HHfit & Hcount).
      destruct (number_cells_returned config W H fuel ov st Hcs
                  ltac:(lia) ltac:(lia) HWfit HHfit E) as [Hfw Hfh].
      pose proof (number_cells_unroll config W H fuel ov Hcs HW0 HWi HWfit
                    HH0 HHi HHfit Hfw Hfh) as U.
      set (big := S (Z.to_nat (Z.max W H))).
      destruct (number_cells_count config W H ov big Hcs HW0 HH0 HWfit HHfit
                  Hcount ltac:(unfold big; lia)) as (st' & E' & Hc & Hv).
      pose proof (ceil_div_le W _ Hcs HW0) as HWle.
      pose proof (ceil_div_le H _ Hcs HH0) as HHle.
      rewrite (number_cells_unroll config W H big ov Hcs HW0 HWi HWfit
                 HH0 HHi HHfit ltac:(unfold big; lia) ltac:(unfold big; lia))
        in E'.
      rewrite U in E. injection E as <-. injection E' as <-.
      now split.
  - intros HW HH Hfit fuel Hfuel.
    destruct (allocatable_image_fits (CellSize config) W H Hcs Hcsi HW HH Hfit)
      as (HWfit & HHfit & Hcount).
    pose proof (ceil_div_le W _ Hcs HW0) as HWle.
    pose proof (ceil_div_le H _ Hcs HH0) as HHle.
    pose proof (AddGrid_lines_run img config W H fuel HB HWi HHi Hcs Hcsi HW HH
                  Hfit) as El.
    assert (E1 : (Z.to_nat (ceil_div W (CellSize config) - 1) <? fuel)%nat = true)
      by (apply Nat.ltb_lt; lia).
    assert (E2 : (Z.to_nat (ceil_div H (CellSize config) - 1) <? fuel)%nat = true)
      by (apply Nat.ltb_lt; lia).
    rewrite E1, E2 in El. cbn [andb] in El.
    unfold AddGrid_canvas. rewrite El. cbn [bind]. rewrite HB. cbn [MaxX MaxY].
    destruct (number_cells_count config W H
                (fold_left
                   (fun s k =>
                      draw_horizontal_line config W
                        ((Z.of_nat k + 1) * CellSize config) s)
                   (seq 0 (Z.to_nat (ceil_div H (CellSize config) - 1)))
                   (fold_left
                      (fun s k =>
                         draw_vertical_line config H
                           ((Z.of_nat k + 1) * CellSize config) s)
                      (seq 0 (Z.to_nat (ceil_div W (CellSize config) - 1)))
                      (Draw_Src
                         {| Rect := mkRect 0 0 W H;
                            Pix := fun _ _ => transparent; Calls := [] |}
                         (mkRect 0 0 W H) img)))
                fuel Hcs HW0 HH0 HWfit HHfit Hcount Hfuel)
      as (st & Est & _).
    eauto.
Qed.

Lemma cell_count_witness :
  (exists st,
      AddGrid_canvas 601 (mkImage (mkRect 0 0 600 400) (fun _ _ => transparent))
        DefaultConfig = Returns st) /\
  (forall st,
      AddGrid_canvas 601 (mkImage (mkRect 0 0 600 400) (fun _ _ => transparent))
        DefaultConfig = Returns st ->
      cellNumber st = 24 /\ Z.of_nat (List.length (visited st)) = 24).
Proof.
  assert (Hi : forall z, 0 <= z <= 1000 -> in_int z)
    by (intros z Hz; unfold in_int, min_int, max_int, half_modulus; lia).
  destruct (cell_count (mkImage (mkRect 0 0 600 400) (fun _ _ => transparent))
              DefaultConfig 600 400 eq_refl
              (Hi 600 ltac:(lia)) (Hi 400 ltac:(lia)) eq_refl
              (Hi 100 ltac:(lia)) ltac:(lia) ltac:(lia)) as [HA HB].
  split.
  - apply HB; cbn; unfold max_int, half_modulus; lia.
  - intros st E. exact (HA 601%nat st E).
Defined.

(** Claim C7 as stated fails for an image whose bounds do not start at the
    origin.  On the image of one pixel with bounds (0, 7*2^60 - 1) - (1,
    7*2^60) and a cell size of 3*2^60, [AddGrid] takes [Max.Y = 7*2^60] for
    the height, the guard [gridY*cellSize < height] wraps around, and the
    numbering loop enumerates 13 cells; the formula gives 3 cells for a height
    of 7*2^60 and a width of 1, and 1 cell for the size 1 by 1 of the
    image. *)
Lemma cell_count_counterexample :
  exists st,
    AddGrid_canvas 20
      (mkImage (mkRect 0 8070450532247928831 1 8070450532247928832)
         (fun _ _ => transparent))
      (mkConfig 3458764513820540928 (GridColor DefaultConfig)
         (NumberColor DefaultConfig) (NumberBG DefaultConfig) 2 3)
    = Returns st /\
    cellNumber st = 13 /\
    List.length (visited st) = 13%nat /\
    cell_count_spec 1 8070450532247928832 3458764513820540928 = 3 /\
    cell_count_spec 1 1 3458764513820540928 = 1.
Proof.
  assert (E : match
                AddGrid_canvas 20
                  (mkImage (mkRect 0 8070450532247928831 1 8070450532247928832)
                     (fun _ _ => transparent))
                  (mkConfig 3458764513820540928 (GridColor DefaultConfig)
                     (NumberColor DefaultConfig) (NumberBG DefaultConfig) 2 3)
              with
              | Returns st => Some (cellNumber st, List.length (visited st))
              | _ => None
              end = Some (13, 13%nat)) by (vm_compute; reflexivity).
  destruct (AddGrid_canvas _ _ _) as [st | msg |]; [| discriminate ..].
  exists st. injection E as E1 E2.
  repeat split; assumption || reflexivity.
Qed.

End CellCount.

Section IndexedLoops.
Context {St : Type}.
Variable Inv : Z -> St -> Prop.

(** A counting loop whose rounds all run, with an invariant that follows the
    counter. *)
Lemma count_loop_ind (body : Z -> St -> St) :
  forall (n : nat) (i : Z) (s : St),
    (forall j s', i <= j < i + Z.of_nat n -> Inv j s' -> Inv (j + 1) (body j s')) ->
    Inv i s -> Inv (i + Z.of_nat n) (count_loop n i always body s).
Proof.
  induction n as [| n IH]; intros i s Hb Hs; cbn [count_loop].
  - now replace (i + Z.of_nat 0) with i by lia.
  - change (always i) with true. cbn iota.
    replace (i + Z.of_nat (S n)) with (i + 1 + Z.of_nat n) by lia.
    apply IH.
    + intros j s' Hj. apply Hb. lia.
    + apply Hb; [lia | assumption].
Qed.

Lemma for_upto_ind (lo hi : Z) (body : Z -> St -> St) (s : St) :
  lo <= hi ->
  (forall j s', lo <= j < hi -> Inv j s' -> Inv (j + 1) (body j s')) ->
  Inv lo s -> Inv hi (for_upto lo hi always body s).
Proof.
  intros Hle Hb Hs. unfold for_upto.
  replace hi with (lo + Z.of_nat (Z.to_nat (hi - lo))) at 1 by lia.
  apply count_loop_ind; [| assumption].
  intros j s' Hj. apply Hb. lia.
Qed.

(** A [range] loop, with the element of each round. *)
Lemma range_from_ind {E : Type} (body : Z -> E -> St -> St) :
  forall (l : list E) (i : Z) (s : St),
    (forall j e s',
        i <= j < i + Z.of_nat (List.length l) ->
        nth_error l (Z.to_nat (j - i)) = Some e ->
        Inv j s' -> Inv (j + 1) (body j e s')) ->
    Inv i s -> Inv (i + Z.of_nat (List.length l)) (range_from i l body s).
Proof.
  induction l as [| e l IH]; intros i s Hb Hs; cbn [range_from List.length].
  - now replace (i + Z.of_nat 0) with i by lia.
  - replace (i + Z.of_nat (S (List.length l)))
      with (i + 1 + Z.of_nat (List.length l)) by lia.
    apply IH.
    + intros j e' s' Hj Hn. apply Hb; [cbn [List.length]; lia |].
      replace (Z.to_nat (j - i)) with (S (Z.to_nat (j - (i + 1)))) by lia.
      exact Hn.
    + apply Hb; [cbn [List.length]; lia | | assumption].
      now replace (Z.to_nat (i - i)) with 0%nat by lia.
Qed.

Lemma range_loop_ind {E : Type} (body : Z -> E -> St -> St) (l : list E)
  (s : St) :
  (forall j e s',
      0 <= j < Z.of_nat (List.length l) ->
      nth_error l (Z.to_nat j) = Some e ->
      Inv j s' -> Inv (j + 1) (body j e s')) ->
  Inv 0 s -> Inv (Z.of_nat (List.length l)) (range_loop l body s).
Proof.
  intros Hb Hs. unfold range_loop.
  change (Z.of_nat (List.length l)) with (0 + Z.of_nat (List.length l)).
  apply range_from_ind; [| assumption].
  intros j e s' Hj Hn. apply Hb; [lia |].
  now rewrite Z.sub_0_r in Hn.
Qed.

End IndexedLoops.

(** ** One pixel through the loops of a label *)

Section PixelSteps.
Variables (c : RGBA) (R : Rectangle) (px py : Z).

Local Abbreviation keeps := (keeps c R px py).
Local Abbreviation hits := (hits c R px py).
Local Abbreviation misses := (misses R px py).

Lemma set_clipped_Rect (s : Canvas) (x y : Z) (c' : RGBA) :
  Rect (set_clipped s x y c') = Rect s.
Proof.
  unfold set_clipped.
  now destruct ((0 <=? x) && (0 <=? y) && (x <? MaxX (Rect s))
                && (y <? MaxY (Rect s))).
Qed.

Lemma set_clipped_keeps_pixel (x y : Z) : keeps (fun s => set_clipped s x y c).
Proof.
  intros s HR. split; [now rewrite set_clipped_Rect |].
  apply set_clipped_keeps.
Qed.

Lemma set_clipped_hits_pixel :
  0 <= px < MaxX R -> 0 <= py < MaxY R -> In_rect px py R = true ->
  hits (fun s => set_clipped s px py c).
Proof.
  intros Hx Hy Hin s HR. split; [now rewrite set_clipped_Rect |].
  apply set_clipped_marks; now rewrite HR.
Qed.

Lemma set_clipped_misses_pixel (x y : Z) (c' : RGBA) :
  ~ (x = px /\ y = py) -> misses (fun s => set_clipped s x y c').
Proof.
  intros Hne s HR. split; [now rewrite set_clipped_Rect |].
  unfold set_clipped.
  destruct ((0 <=? x) && (0 <=? y) && (x <? MaxX (Rect s))
            && (y <? MaxY (Rect s))); [| reflexivity].
  cbn [RGBA_Set Pix]. destruct (In_rect x y (Rect s)); [| reflexivity].
  destruct (Z.eqb_spec px x) as [-> | ?]; [| reflexivity].
  destruct (Z.eqb_spec py y) as [-> | ?]; [| reflexivity].
  now contradiction Hne.
Qed.

Lemma for_upto_keeps (lo hi : Z) (body : Z -> Canvas -> Canvas) :
  (forall j, lo <= j < hi -> keeps (body j)) ->
  keeps (for_upto lo hi always body).
Proof.
  intros Hb s HR.
  apply (for_upto_inv
           (fun s' => Rect s' = R /\ (Pix s px py = c -> Pix s' px py = c)));
    [| now split].
  intros j s' Hj [HR' Hk]. destruct (Hb j Hj s' HR') as [HR'' Hk'].
  split; [assumption | auto].
Qed.

Lemma for_upto_hits (lo hi j0 : Z) (body : Z -> Canvas -> Canvas) :
  lo <= j0 < hi ->
  (forall j, lo <= j < hi -> keeps (body j)) ->
  hits (body j0) ->
  hits (for_upto lo hi always body).
Proof.
  intros Hj0 Hk Hh s HR.
  pose proof (for_upto_ind
                (fun j s' => Rect s' = R /\ (j0 < j -> Pix s' px py = c))
                lo hi body s ltac:(lia)) as H.
  destruct H as [HR' Hc]; [| split; [assumption | lia] | split; [assumption | apply Hc; lia]].
  intros j s' Hj [HR' Hc]. destruct (Z.eq_dec j j0) as [-> | NE].
  - destruct (Hh s' HR') as [HR'' Hc']. now split.
  - destruct (Hk j Hj s' HR') as [HR'' Hc']. split; [assumption |].
    intros Hlt. apply Hc', Hc. lia.
Qed.

Lemma for_upto_misses (lo hi : Z) (body : Z -> Canvas -> Canvas) :
  (forall j, lo <= j < hi -> misses (body j)) ->
  misses (for_upto lo hi always body).
Proof.
  intros Hb s HR.
  apply (for_upto_inv
           (fun s' => Rect s' = R /\ Pix s' px py = Pix s px py));
    [| now split].
  intros j s' Hj [HR' Hk]. destruct (Hb j Hj s' HR') as [HR'' Hk'].
  split; [assumption | congruence].
Qed.

Lemma range_loop_keeps {E : Type} (l : list E) (body : Z -> E -> Canvas -> Canvas) :
  (forall j e, nth_error l (Z.to_nat j) = Some e -> 0 <= j -> keeps (body j e)) ->
  keeps (range_loop l body).
Proof.
  intros Hb s HR.
  apply (range_loop_ind
           (fun _ s' => Rect s' = R /\ (Pix s px py = c -> Pix s' px py = c)));
    [| now split].
  intros j e s' Hj Hn [HR' Hk].
  destruct (Hb j e Hn ltac:(lia) s' HR') as [HR'' Hk'].
  split; [assumption | auto].
Qed.

Lemma range_loop_hits {E : Type} (l : list E) (body : Z -> E -> Canvas -> Canvas)
  (j0 : Z) (e0 : E) :
  0 <= j0 -> nth_error l (Z.to_nat j0) = Some e0 ->
  (forall j e, nth_error l (Z.to_nat j) = Some e -> 0 <= j -> keeps (body j e)) ->
  hits (body j0 e0) ->
  hits (range_loop l body).
Proof.
  intros Hj0 Hn0 Hk Hh s HR.
  assert (Hlen : j0 < Z.of_nat (List.length l)).
  { assert (Z.to_nat j0 < List.length l)%nat
      by (apply nth_error_Some; congruence).
    lia. }
  pose proof (range_loop_ind
                (fun j s' => Rect s' = R /\ (j0 < j -> Pix s' px py = c))
                body l s) as H.
  destruct H as [HR' Hc];
    [| split; [assumption | lia] | split; [assumption | apply Hc; lia]].
  intros j e s' Hj Hn [HR' Hc]. destruct (Z.eq_dec j j0) as [-> | NE].
  - assert (e = e0) by congruence. subst e.
    destruct (Hh s' HR') as [HR'' Hc']. now split.
  - destruct (Hk j e Hn ltac:(lia) s' HR') as [HR'' Hc']. split; [assumption |].
    intros Hlt. apply Hc', Hc. lia.
Qed.

Lemma range_loop_misses {E : Type} (l : list E)
  (body : Z -> E -> Canvas -> Canvas) :
  (forall j e, nth_error l (Z.to_nat j) = Some e -> 0 <= j -> misses (body j e)) ->
  misses (range_loop l body).
Proof.
  intros Hb s HR.
  apply (range_loop_ind
           (fun _ s' => Rect s' = R /\ Pix s' px py = Pix s px py));
    [| now split].
  intros j e s' Hj Hn [HR' Hk].
  destruct (Hb j e Hn ltac:(lia) s' HR') as [HR'' Hk'].
  split; [assumption | congruence].
Qed.

End PixelSteps.

(** ** The glyphs *)

Section Glyphs.

(** Property X12.  The glyph table.  [getDigitPattern] returns, for each of the
    characters ['0'] to ['9'], 7 rows of 5 characters, each a space or a
    ['#'], and no row for any other character. *)
Theorem getDigitPattern_table (digit : ascii) :
  if is_digit digit
  then List.length (getDigitPattern digit) = 7%nat /\
       Forall (fun line =>
                 String.length line = 5%nat /\
                 Forall (fun c => c = " "%char \/ c = "#"%char)
                   (list_ascii_of_string line))
         (getDigitPattern digit)
  else getDigitPattern digit = [].
Proof.
  destruct digit as [[] [] [] [] [] [] [] []]; cbn; try reflexivity;
    (split; [reflexivity |]);
    repeat first [ apply Forall_nil | apply Forall_cons | split | reflexivity
                 | left; reflexivity | right; reflexivity ].
Qed.

End Glyphs.

(** ** The picture of a label *)

Section LabelPicture.
Import GoIntFacts.

(** The coordinates of a digit pixel, before the one reduction into [int]
    that remains. *)
Lemma digit_x_sum (sX s len i col sx : Z) :
  0 < s -> (7 * len + 2) * s <= max_int ->
  0 <= i < len -> 0 <= col < 5 -> 0 <= sx < s ->
  add (add (add (add sX (mul 2 s)) (mul i (add (mul 5 s) (mul 2 s)))) (mul col s))
    sx
  = wrap (sX + (2 * s + i * (7 * s) + col * s + sx)) /\
  0 <= 2 * s + i * (7 * s) + col * s + sx < (7 * len + 2) * s.
Proof.
  intros Hs Hfit Hi Hcol Hsx.
  assert (Hd : 0 <= 2 * s + i * (7 * s) + col * s + sx < (7 * len + 2) * s) by nia.
  split; [| assumption].
  assert (E5 : mul 5 s = 5 * s)
    by (apply mul_exact; unfold in_int, min_int, max_int, half_modulus in *; nia).
  assert (E2 : mul 2 s = 2 * s)
    by (apply mul_exact; unfold in_int, min_int, max_int, half_modulus in *; nia).
  rewrite E5, E2.
  assert (E7 : add (5 * s) (2 * s) = 7 * s)
    by (rewrite add_exact;
        [lia | unfold in_int, min_int, max_int, half_modulus in *; nia]).
  rewrite E7.
  assert (Ei : mul i (7 * s) = i * (7 * s))
    by (apply mul_exact; unfold in_int, min_int, max_int, half_modulus in *; nia).
  assert (Ec : mul col s = col * s)
    by (apply mul_exact; unfold in_int, min_int, max_int, half_modulus in *; nia).
  rewrite Ei, Ec. unfold add. rewrite ?wrap_add_l, ?wrap_add_ll, ?wrap_add_l.
  f_equal. ring.
Qed.

Lemma digit_y_sum (sY s row sy : Z) :
  0 < s -> 11 * s <= max_int -> 0 <= row < 7 -> 0 <= sy < s ->
  add (add (add sY (mul 2 s)) (mul row s)) sy
  = wrap (sY + (2 * s + row * s + sy)) /\
  0 <= 2 * s + row * s + sy < 11 * s.
Proof.
  intros Hs Hfit Hrow Hsy.
  assert (Hd : 0 <= 2 * s + row * s + sy < 11 * s) by nia.
  split; [| assumption].
  assert (E2 : mul 2 s = 2 * s)
    by (apply mul_exact; unfold in_int, min_int, max_int, half_modulus in *; nia).
  assert (Er : mul row s = row * s)
    by (apply mul_exact; unfold in_int, min_int, max_int, half_modulus in *; nia).
  rewrite E2, Er. unfold add. rewrite ?wrap_add_l, ?wrap_add_ll, ?wrap_add_l.
  f_equal. ring.
Qed.

(** A lit glyph cell lies in the 7 rows and 5 columns of a glyph. *)
Lemma glyph_cell_bounds (digit : ascii) (row col : Z) (line : string)
  (char : ascii) :
  0 <= row -> 0 <= col ->
  nth_error (getDigitPattern digit) (Z.to_nat row) = Some line ->
  nth_error (list_ascii_of_string line) (Z.to_nat col) = Some char ->
  row < 7 /\ col < 5.
Proof.
  intros Hrow Hcol Hl Hc.
  destruct (getDigitPattern_shape digit) as [Hrows Hcols].
  assert (Hin : In line (getDigitPattern digit)) by (eapply nth_error_In; eassumption).
  rewrite Forall_forall in Hcols. specialize (Hcols line Hin).
  assert (Z.to_nat row < List.length (getDigitPattern digit))%nat
    by (apply nth_error_Some; congruence).
  assert (Z.to_nat col < List.length (list_ascii_of_string line))%nat
    by (apply nth_error_Some; congruence).
  rewrite length_list_ascii_of_string in *. lia.
Qed.

Lemma label_lit_intro (numStr : string) (s i row col sx sy : Z)
  (digit char : ascii) (line : string) :
  0 < s -> 0 <= i -> 0 <= row -> 0 <= col ->
  nth_error (list_ascii_of_string numStr) (Z.to_nat i) = Some digit ->
  nth_error (getDigitPattern digit) (Z.to_nat row) = Some line ->
  nth_error (list_ascii_of_string line) (Z.to_nat col) = Some char ->
  Ascii.eqb char "#" = true ->
  0 <= sx < s -> 0 <= sy < s ->
  label_lit numStr s (i * (7 * s) + col * s + sx) (row * s + sy) = true.
Proof.
  intros Hs Hi Hrow Hcol Hd Hl Hc Heq Hsx Hsy.
  destruct (glyph_cell_bounds digit row col line char Hrow Hcol Hl Hc)
    as [Hrow7 Hcol5].
  assert (Hin : 0 <= col * s + sx < 7 * s) by nia.
  assert (Eq : (i * (7 * s) + col * s + sx) / (7 * s) = i).
  { symmetry. apply (Z.div_unique_pos _ (7 * s) i (col * s + sx)); lia. }
  assert (Em : (i * (7 * s) + col * s + sx) mod (7 * s) = col * s + sx).
  { symmetry. apply (Z.mod_unique_pos _ (7 * s) i (col * s + sx)); lia. }
  assert (Ec : (col * s + sx) / s = col).
  { symmetry. apply (Z.div_unique_pos _ s col sx); lia. }
  assert (Er : (row * s + sy) / s = row).
  { symmetry. apply (Z.div_unique_pos _ s row sy); lia. }
  unfold label_lit. rewrite Eq, Em, Ec, Er, Hd.
  unfold glyph_lit. rewrite Hl, Hc, Heq.
  rewrite !andb_true_iff, !Z.leb_le. repeat split; nia.
Qed.

Lemma label_lit_elim (numStr : string) (s u v : Z) :
  0 < s -> label_lit numStr s u v = true ->
  exists (i row col sx sy : Z) (digit char : ascii) (line : string),
    0 <= i /\ 0 <= row /\ 0 <= col /\
    nth_error (list_ascii_of_string numStr) (Z.to_nat i) = Some digit /\
    nth_error (getDigitPattern digit) (Z.to_nat row) = Some line /\
    nth_error (list_ascii_of_string line) (Z.to_nat col) = Some char /\
    Ascii.eqb char "#" = true /\
    0 <= sx < s /\ 0 <= sy < s /\
    u = i * (7 * s) + col * s + sx /\ v = row * s + sy.
Proof.
  intros Hs. unfold label_lit, glyph_lit.
  rewrite !andb_true_iff, !Z.leb_le. intros [[Hu Hv] H].
  destruct (nth_error (list_ascii_of_string numStr) (Z.to_nat (u / (7 * s))))
    as [digit |] eqn:Hd; [| discriminate].
  rewrite !andb_true_iff, !Z.leb_le in H. destruct H as [[Hrow Hcol] H].
  destruct (nth_error (getDigitPattern digit) (Z.to_nat (v / s)))
    as [line |] eqn:Hl; [| discriminate].
  destruct (nth_error (list_ascii_of_string line)
              (Z.to_nat (u mod (7 * s) / s))) as [char |] eqn:Hc;
    [| discriminate].
  exists (u / (7 * s)), (v / s), (u mod (7 * s) / s), (u mod (7 * s) mod s),
    (v mod s), digit, char, line.
  pose proof (Z.div_mod u (7 * s) ltac:(lia)) as E1.
  pose proof (Z.div_mod (u mod (7 * s)) s ltac:(lia)) as E2.
  pose proof (Z.div_mod v s ltac:(lia)) as E3.
  pose proof (Z.mod_pos_bound (u mod (7 * s)) s Hs).
  pose proof (Z.mod_pos_bound v s Hs).
  assert (0 <= u / (7 * s)) by (apply Z.div_pos; lia).
  repeat split; try assumption; lia.
Qed.

Variables (img : Canvas) (x y : Z) (numStr : string) (config : Config).
Variables px py : Z.

Local Abbreviation s := (NumberScale config).
Local Abbreviation len := (Z.of_nat (String.length numStr)).
Local Abbreviation l := (label_of x y numStr config).
Local Abbreviation bg := (NumberBG config).
Local Abbreviation nc := (NumberColor config).

Hypothesis HMX : in_int (MaxX (Rect img)).
Hypothesis HMY : in_int (MaxY (Rect img)).
Hypothesis Hpx : 0 <= px < MaxX (Rect img).
Hypothesis Hpy : 0 <= py < MaxY (Rect img).
Hypothesis Hin : In_rect px py (Rect img) = true.

Lemma pixel_in_int : in_int px /\ in_int py.
Proof. unfold in_int, min_int, max_int, half_modulus in *. lia. Qed.

(** The background phase gives every canvas pixel of the label rectangle
    the background colour. *)
Lemma background_hits :
  in_label_rect l px py ->
  hits bg (Rect img) px py (fun c => draw_background c l config).
Proof.
  intros [Hx Hy]. destruct pixel_in_int as [Hpxi Hpyi].
  unfold draw_background.
  apply (for_upto_hits bg (Rect img) px py 0 (totalWidth l) (px - startX l));
    [lia | |].
  - intros dx _. apply for_upto_keeps. intros dy _.
    apply set_clipped_keeps_pixel.
  - apply (for_upto_hits bg (Rect img) px py 0 (totalHeight l) (py - startY l));
      [lia | |].
    + intros dy _. apply set_clipped_keeps_pixel.
    + replace (add (startX l) (px - startX l)) with px
        by (unfold add; rewrite <- (wrap_id px) at 1 by assumption; f_equal; lia).
      replace (add (startY l) (py - startY l)) with py
        by (unfold add; rewrite <- (wrap_id py) at 1 by assumption; f_equal; lia).
      now apply set_clipped_hits_pixel.
Qed.

Lemma draw_block_keeps_pixel (c : RGBA) (digitX digitY row col : Z) :
  c = nc ->
  keeps c (Rect img) px py (fun c' => draw_block c' digitX digitY row col config).
Proof.
  intros ->. unfold draw_block. apply for_upto_keeps. intros sx _.
  apply for_upto_keeps. intros sy _. apply set_clipped_keeps_pixel.
Qed.

Lemma glyph_row_keeps (digitX digitY row : Z) (line : string) :
  keeps nc (Rect img) px py
    (fun c =>
       range_loop (list_ascii_of_string line)
         (fun col char img =>
            if Ascii.eqb char "#" then draw_block img digitX digitY row col config
            else img) c).
Proof.
  apply range_loop_keeps. intros col char _ _.
  destruct (Ascii.eqb char "#").
  - now apply draw_block_keeps_pixel.
  - intros c HR. now split.
Qed.

Lemma glyph_keeps (digitX digitY : Z) (pattern : list string) :
  keeps nc (Rect img) px py
    (fun c =>
       range_loop pattern
         (fun row line img =>
            range_loop (list_ascii_of_string line)
              (fun col char img =>
                 if Ascii.eqb char "#"
                 then draw_block img digitX digitY row col config
                 else img) img) c).
Proof.
  apply range_loop_keeps. intros row line _ _. apply glyph_row_keeps.
Qed.

Hypothesis Hs : 0 < s.
Hypothesis Hh : 11 * s <= max_int.
Hypothesis Hw : (7 * len + 2) * s <= max_int.

(** The digit phase gives the digit colour to the canvas pixels of the lit
    glyph cells. *)
Lemma digits_hit :
  label_lit numStr s (px - startX l - 2 * s) (py - startY l - 2 * s) = true ->
  hits nc (Rect img) px py (fun c => draw_digits c l numStr config).
Proof.
  intros Hlit. destruct pixel_in_int as [Hpxi Hpyi].
  destruct (label_lit_elim _ _ _ _ Hs Hlit)
    as (i & row & col & sx & sy & digit & char & line
        & Hi & Hrow & Hcol & Hd & Hl & Hc & Heq & Hsx & Hsy & Eu & Ev).
  destruct (glyph_cell_bounds digit row col line char Hrow Hcol Hl Hc)
    as [Hrow7 Hcol5].
  assert (Hilen : i < len).
  { assert (Z.to_nat i < List.length (list_ascii_of_string numStr))%nat
      by (apply nth_error_Some; congruence).
    rewrite length_list_ascii_of_string in *. lia. }
  unfold draw_digits.
  apply (range_loop_hits nc (Rect img) px py _ _ i digit Hi Hd).
  { intros j e _ _. apply glyph_keeps. }
  apply (range_loop_hits nc (Rect img) px py _ _ row line Hrow Hl).
  { intros j e _ _. apply glyph_row_keeps. }
  apply (range_loop_hits nc (Rect img) px py _ _ col char Hcol Hc).
  { intros j e _ _. destruct (Ascii.eqb e "#").
    - now apply draw_block_keeps_pixel.
    - intros c HR. now split. }
  rewrite Heq. unfold draw_block.
  apply (for_upto_hits nc (Rect img) px py 0 s sx _ Hsx).
  { intros j _. apply for_upto_keeps. intros k _. apply set_clipped_keeps_pixel. }
  apply (for_upto_hits nc (Rect img) px py 0 s sy _ Hsy).
  { intros k _. apply set_clipped_keeps_pixel. }
  set (sX := startX l) in *. set (sY := startY l) in *.
  change (padding l) with (mul 2 s). change (digitWidth l) with (mul 5 s).
  change (spacing l) with (mul 2 s).
  destruct (digit_x_sum sX s len i col sx Hs Hw ltac:(lia) ltac:(lia) Hsx)
    as [EX _].
  destruct (digit_y_sum sY s row sy Hs Hh ltac:(lia) Hsy) as [EY _].
  rewrite EX, EY.
  rewrite (wrap_id_eq (sX + _) px) by (split; [lia | assumption]).
  rewrite (wrap_id_eq (sY + _) py) by (split; [lia | assumption]).
  now apply set_clipped_hits_pixel.
Qed.

(** The digit phase leaves every other pixel as the background phase left
    it. *)
Lemma digits_miss :
  label_lit numStr s (px - startX l - 2 * s) (py - startY l - 2 * s) = false ->
  misses (Rect img) px py (fun c => draw_digits c l numStr config).
Proof.
  intros Hlit. destruct pixel_in_int as [Hpxi Hpyi].
  assert (HsX : in_int (startX l)) by apply wrap_in_int.
  assert (HsY : in_int (startY l)) by apply wrap_in_int.
  unfold draw_digits.
  apply range_loop_misses. intros i digit Hd Hi.
  assert (Hilen : i < len).
  { assert (Z.to_nat i < List.length (list_ascii_of_string numStr))%nat
      by (apply nth_error_Some; congruence).
    rewrite length_list_ascii_of_string in *. lia. }
  apply range_loop_misses. intros row line Hl Hrow.
  apply range_loop_misses. intros col char Hc Hcol.
  destruct (Ascii.eqb char "#") eqn:Heq; [| intros c HR; now split].
  destruct (glyph_cell_bounds digit row col line char Hrow Hcol Hl Hc)
    as [Hrow7 Hcol5].
  unfold draw_block.
  apply for_upto_misses. intros sx Hsx. apply for_upto_misses. intros sy Hsy.
  set (sX := startX l) in *. set (sY := startY l) in *.
  change (padding l) with (mul 2 s). change (digitWidth l) with (mul 5 s).
  change (spacing l) with (mul 2 s).
  destruct (digit_x_sum sX s len i col sx Hs Hw ltac:(lia) ltac:(lia) Hsx)
    as [EX HdX].
  destruct (digit_y_sum sY s row sy Hs Hh ltac:(lia) Hsy) as [EY HdY].
  rewrite EX, EY.
  apply set_clipped_misses_pixel. intros [Ex Ey].
  rewrite add_offset in Ex by (try assumption; lia).
  rewrite add_offset in Ey by (try assumption; lia).
  replace (px - sX - 2 * s) with (i * (7 * s) + col * s + sx) in Hlit by lia.
  replace (py - sY - 2 * s) with (row * s + sy) in Hlit by lia.
  rewrite (label_lit_intro numStr s i row col sx sy digit char line) in Hlit;
    try assumption. discriminate.
Qed.

End LabelPicture.

Section LabelTheorems.
Import GoIntFacts.

(** The size of a label, whatever the scale: the intermediate reductions
    into [int] do not change the final one. *)
Lemma label_size_wrap (x y : Z) (numStr : string) (config : Config) :
  totalWidth (label_of x y numStr config)
  = wrap ((7 * Z.of_nat (String.length numStr) + 2) * NumberScale config) /\
  totalHeight (label_of x y numStr config) = wrap (11 * NumberScale config).
Proof.
  unfold label_of. cbn [totalWidth totalHeight]. unfold add, mul, sub.
  set (len := Z.of_nat (String.length numStr)). set (s := NumberScale config).
  destruct (wrap_shift (5 * s)) as [k1 E1].
  destruct (wrap_shift (2 * s)) as [k2 E2].
  destruct (wrap_shift (7 * s)) as [k0 E0].
  destruct (wrap_shift (len - 1)) as [k3 E3].
  rewrite E1, E2, E0, E3.
  destruct (wrap_shift (len * (5 * s + k1 * modulus))) as [k4 E4].
  destruct (wrap_shift ((len - 1 + k3 * modulus) * (2 * s + k2 * modulus)))
    as [k5 E5].
  destruct (wrap_shift (2 * (2 * s + k2 * modulus))) as [k7 E7].
  rewrite E4, E5, E7.
  match goal with
  | |- context [wrap (?a + ?b) + _] => destruct (wrap_shift (a + b)) as [k6 E6]
  end.
  rewrite E6. split.
  - apply (wrap_congr _ _
             (len * k1 + k4 + (len - 1) * k2 + 2 * s * k3 + k3 * k2 * modulus
              + k5 + k6 + 2 * k2 + k7)).
    ring.
  - apply (wrap_congr _ _ (k0 + 2 * k2 + k7)). ring.
Qed.

(** The pixels of a canvas after a label is drawn on it. *)
Lemma drawLargeNumber_pixels (img : Canvas) (x y number : Z) (config : Config)
  (px py : Z) :
  let s := NumberScale config in
  let numStr := Sprintf_d number in
  let l := label_of x y numStr config in
  in_int (MaxX (Rect img)) -> in_int (MaxY (Rect img)) ->
  0 < s -> 11 * s <= max_int ->
  (7 * Z.of_nat (String.length numStr) + 2) * s <= max_int ->
  RGBA_At (drawLargeNumber img x y number config) px py =
  if In_rect px py (Rect img) && (0 <=? px) && (0 <=? py)
     && in_label_rectb l px py
  then if label_lit numStr s (px - startX l - 2 * s) (py - startY l - 2 * s)
       then NumberColor config
       else NumberBG config
  else RGBA_At img px py.
Proof.
  intros s numStr l HMX HMY Hs Hh Hw.
  assert (Hframe : writes_within (label_target img l) img
                     (drawLargeNumber img x y number config)).
  { unfold drawLargeNumber. apply draw_digits_within; [right; now split |].
    apply draw_background_within, writes_within_refl. }
  destruct Hframe as (HR & _ & HP).
  unfold RGBA_At. rewrite HR.
  destruct (In_rect px py (Rect img)) eqn:Hin; cbn [andb]; [| reflexivity].
  assert (Hmax : px < MaxX (Rect img) /\ py < MaxY (Rect img)).
  { unfold In_rect in Hin. rewrite !andb_true_iff, !Z.leb_le, !Z.ltb_lt in Hin.
    lia. }
  destruct (Z.leb_spec 0 px) as [Hpx | Hpx]; cbn [andb];
    [| apply HP; unfold label_target; lia].
  destruct (Z.leb_spec 0 py) as [Hpy | Hpy]; cbn [andb];
    [| apply HP; unfold label_target; lia].
  destruct (in_label_rectb l px py) eqn:Hrect.
  - unfold in_label_rectb in Hrect.
    rewrite !andb_true_iff, !Z.leb_le, !Z.ltb_lt in Hrect.
    assert (Hl : in_label_rect l px py) by (unfold in_label_rect; lia).
    destruct (background_hits img x y numStr config px py HMX HMY
                ltac:(lia) ltac:(lia) Hin Hl img eq_refl) as [HR1 HP1].
    unfold drawLargeNumber. fold numStr. fold l.
    destruct (label_lit numStr s (px - startX l - 2 * s)
                (py - startY l - 2 * s)) eqn:Hlit.
    + now destruct (digits_hit img x y numStr config px py HMX HMY
                      ltac:(lia) ltac:(lia) Hin Hs Hh Hw Hlit
                      (draw_background img l config) HR1).
    + destruct (digits_miss img x y numStr config px py HMX HMY
                  ltac:(lia) ltac:(lia) Hs Hh Hw Hlit
                  (draw_background img l config) HR1) as [_ HP2].
      exact (eq_trans HP2 HP1).
  - apply HP. unfold label_target, in_label_rect. intros (_ & _ & Hx & Hy).
    unfold in_label_rectb in Hrect.
    rewrite !andb_false_iff, !Z.leb_gt, !Z.ltb_ge in Hrect. lia.
Qed.

(** Property X13.  The picture of a label.  For a positive scale that does not
    overflow the size of the label, after [drawLargeNumber] a point of the
    canvas with non-negative coordinates inside the background rectangle of
    the label has the digit colour when it lies in a lit cell of the glyph of
    one of the digits (digit [i] starts [2*scale + 7*scale*i] right of the
    rectangle's left edge and [2*scale] below its top edge, each glyph cell
    is a block of [scale] by [scale] pixels), and the background colour
    otherwise; every other point is as it was. *)
Theorem label_picture (img : Canvas) (x y number : Z) (config : Config)
  (px py : Z) :
  let s := NumberScale config in
  let numStr := Sprintf_d number in
  let l := label_of x y numStr config in
  in_int (MaxX (Rect img)) -> in_int (MaxY (Rect img)) ->
  0 < s -> 11 * s <= max_int ->
  (7 * Z.of_nat (String.length numStr) + 2) * s <= max_int ->
  RGBA_At (drawLargeNumber img x y number config) px py =
  if In_rect px py (Rect img) && (0 <=? px) && (0 <=? py)
     && in_label_rectb l px py
  then if label_lit numStr s (px - startX l - 2 * s) (py - startY l - 2 * s)
       then NumberColor config
       else NumberBG config
  else RGBA_At img px py.
Proof. exact (drawLargeNumber_pixels img x y number config px py). Qed.

Lemma label_picture_witness :
  RGBA_At
    (drawLargeNumber
       {| Rect := mkRect 0 0 30 30; Pix := fun _ _ => transparent; Calls := [] |}
       15 15 7 DefaultConfig) 8 5
  = NumberColor DefaultConfig.
Proof.
  exact (label_picture
           {| Rect := mkRect 0 0 30 30; Pix := fun _ _ => transparent;
              Calls := [] |}
           15 15 7 DefaultConfig 8 5
           ltac:(vm_compute; split; discriminate)
           ltac:(vm_compute; split; discriminate)
           ltac:(reflexivity)
           ltac:(vm_compute; discriminate)
           ltac:(vm_compute; discriminate)).
Defined.

(** With a scale that is not positive neither phase of a label runs a
    round, unless the width of the label overflows. *)
Lemma drawLargeNumber_skipped (img : Canvas) (x y number : Z)
  (config : Config) :
  NumberScale config <= 0 ->
  min_int <= (7 * Z.of_nat (String.length (Sprintf_d number)) + 2)
             * NumberScale config ->
  drawLargeNumber img x y number config = img.
Proof.
  intros Hs Hfit. unfold drawLargeNumber.
  destruct (label_size_wrap x y (Sprintf_d number) config) as [EW _].
  rewrite draw_background_skipped.
  - unfold draw_digits.
    apply (range_loop_inv (fun c => c = img)); [| reflexivity].
    intros i digit c _ _ ->.
    apply (range_loop_inv (fun c => c = img)); [| reflexivity].
    intros row line c _ _ ->.
    apply (range_loop_inv (fun c => c = img)); [| reflexivity].
    intros col char c _ _ ->.
    destruct (Ascii.eqb char "#"); [| reflexivity].
    unfold draw_block, for_upto.
    now replace (Z.to_nat (NumberScale config - 0)) with 0%nat by lia.
  - rewrite EW, wrap_id; [nia |].
    unfold in_int, min_int, max_int, half_modulus in *. nia.
Qed.

(** Property X14.  With a scale that is zero or negative (and a label width
    that does not overflow) [drawLargeNumber] draws nothing: it returns the
    canvas it was given, without a [Set] call. *)
Theorem nonpositive_scale_draws_nothing (img : Canvas) (x y number : Z)
  (config : Config) :
  NumberScale config <= 0 ->
  min_int <= (7 * Z.of_nat (String.length (Sprintf_d number)) + 2)
             * NumberScale config ->
  drawLargeNumber img x y number config = img.
Proof. exact (drawLargeNumber_skipped img x y number config). Qed.

Lemma nonpositive_scale_draws_nothing_witness :
  drawLargeNumber
    {| Rect := mkRect 0 0 30 30; Pix := fun _ _ => transparent; Calls := [] |}
    15 15 7
    (mkConfig 100 (mkRGBA 0 255 255 100) (mkRGBA 255 255 255 255)
       (mkRGBA 0 0 0 200) 2 0)
  = {| Rect := mkRect 0 0 30 30; Pix := fun _ _ => transparent; Calls := [] |}.
Proof.
  apply nonpositive_scale_draws_nothing; vm_compute; discriminate.
Defined.

End LabelTheorems.

(** ** The length of a printed [int] *)

Section SprintfLength.
Import NArith DecimalFacts DecimalPos.

Lemma string_of_uint_length (d : Decimal.uint) :
  String.length (NilEmpty.string_of_uint d) = Decimal.nb_digits d.
Proof. induction d; cbn; congruence. Qed.

Lemma usize_nb_digits (d : Decimal.uint) :
  Unsigned.usize d = N.of_nat (Decimal.nb_digits d).
Proof.
  induction d; cbn [Unsigned.usize Decimal.nb_digits];
    rewrite ?IHd, ?Nat2N.inj_succ; reflexivity.
Qed.

(** A decimal number that starts with a non-zero digit is at least the power
    of ten of its other digits. *)
Lemma of_uint_lower (u : Decimal.uint) :
  u <> Decimal.Nil -> Decimal.unorm u = u -> u <> Decimal.zero ->
  (10 ^ N.of_nat (Nat.pred (Decimal.nb_digits u)) <= Pos.of_uint u)%N.
Proof.
  intros Hnil Hnorm Hzero.
  destruct u as [| u | u | u | u | u | u | u | u | u | u];
    [congruence | | | | | | | | | |];
    cbn [Decimal.nb_digits Nat.pred Pos.of_uint];
    try (rewrite Unsigned.of_uint_acc_rev, usize_nb_digits;
         apply N.le_trans with (1 * 10 ^ N.of_nat (Decimal.nb_digits u))%N;
           [lia |];
         match goal with
         | |- (_ <= ?a + ?b * ?c)%N =>
             apply N.le_trans with (b * c)%N;
               [apply N.mul_le_mono_r; lia | lia]
         end).
  exfalso. unfold Decimal.unorm in Hnorm. cbn [Decimal.nzhead] in Hnorm.
  pose proof (nb_digits_nzhead u) as Hn.
  destruct (Decimal.nzhead u) eqn:E;
    try (rewrite Hnorm in Hn; cbn [Decimal.nb_digits] in Hn; lia).
  apply Hzero. congruence.
Qed.

Lemma to_uint_digits (p : positive) :
  (N.pos p < 10 ^ 19)%N -> (Decimal.nb_digits (Pos.to_uint p) <= 19)%nat.
Proof.
  intros Hp.
  pose proof (Unsigned.of_to p) as Hof.
  pose proof (Unsigned.to_of (Pos.to_uint p)) as Hto.
  rewrite Hof in Hto. cbn [N.to_uint] in Hto.
  pose proof (of_uint_lower (Pos.to_uint p) (Unsigned.to_uint_nonnil p)
                (eq_sym Hto) (Unsigned.to_uint_nonzero p)) as Hlow.
  rewrite Hof in Hlow.
  destruct (Nat.le_gt_cases (Decimal.nb_digits (Pos.to_uint p)) 19)
    as [Hle | Hgt]; [assumption | exfalso].
  assert (10 ^ 19 <= 10 ^ N.of_nat (Nat.pred (Decimal.nb_digits (Pos.to_uint p))))%N
    by (apply N.pow_le_mono_r; lia).
  lia.
Qed.

(** [fmt.Sprintf("%d", n)] of an [int] has at most 20 characters, 19 when the
    number is not negative. *)
Lemma Sprintf_d_length (n : Z) :
  in_int n ->
  (String.length (Sprintf_d n) <= 20)%nat /\
  (0 <= n -> (String.length (Sprintf_d n) <= 19)%nat).
Proof.
  intros Hn. unfold Sprintf_d.
  destruct n as [| p | p]; cbn [Z.to_int NilZero.string_of_int].
  - cbn. lia.
  - assert (Hd : (Decimal.nb_digits (Pos.to_uint p) <= 19)%nat).
    { apply to_uint_digits.
      unfold in_int, min_int, max_int, half_modulus in Hn.
      change (10 ^ 19)%N with 10000000000000000000%N. lia. }
    unfold NilZero.string_of_uint.
    pose proof (Unsigned.to_uint_nonnil p) as Hnil.
    destruct (Pos.to_uint p) eqn:E; try congruence;
      rewrite string_of_uint_length; lia.
  - assert (Hd : (Decimal.nb_digits (Pos.to_uint p) <= 19)%nat).
    { apply to_uint_digits.
      unfold in_int, min_int, max_int, half_modulus in Hn.
      change (10 ^ 19)%N with 10000000000000000000%N. lia. }
    unfold NilZero.string_of_uint.
    pose proof (Unsigned.to_uint_nonnil p) as Hnil.
    split; [| lia].
    destruct (Pos.to_uint p) eqn:E; try congruence;
      cbn [String.length]; rewrite string_of_uint_length; lia.
Qed.

End SprintfLength.


(** ** The picture [AddGrid] draws *)

Section AddGridPicture.
Import GoIntFacts.
Variable config : Config.
Variables W H : Z.

Local Abbreviation s := (NumberScale config).

Hypothesis HW : in_int W.
Hypothesis HH : in_int H.
Hypothesis Hscale : - max_int <= 135 * s <= max_int.

(** One round, at one pixel of the image. *)
Lemma draw_round_pixel (ov : Canvas) (v : visit) (px py : Z) :
  Rect ov = mkRect 0 0 W H ->
  0 <= v_number v -> in_int (v_number v) ->
  0 <= px < W -> 0 <= py < H ->
  Rect (draw_round config ov v) = mkRect 0 0 W H /\
  Pix (draw_round config ov v) px py = paint_round config px py (Pix ov px py) v.
Proof.
  intros HR Hn0 Hn Hpx Hpy. unfold draw_round, paint_round.
  destruct (v_drawn v); cbn [andb]; [| now split].
  destruct (Sprintf_d_length (v_number v) Hn) as [_ Hlen].
  specialize (Hlen Hn0).
  set (numStr := Sprintf_d (v_number v)) in *.
  fold (label_of_round config v).
  set (l := label_of_round config v).
  destruct (Z.lt_ge_cases 0 s) as [Hpos | Hneg].
  - assert (Hh : 11 * s <= max_int) by lia.
    assert (Hw : (7 * Z.of_nat (String.length numStr) + 2) * s <= max_int) by nia.
    assert (Hframe : writes_within (label_target ov l) ov
                       (drawLargeNumber ov (v_centerX v) (v_centerY v)
                          (v_number v) config)).
    { unfold drawLargeNumber. apply draw_digits_within; [right; now split |].
      apply draw_background_within, writes_within_refl. }
    destruct Hframe as (HR' & _ & _).
    split; [congruence |].
    pose proof (drawLargeNumber_pixels ov (v_centerX v) (v_centerY v)
                  (v_number v) config px py) as HP.
    cbv zeta in HP. rewrite HR in HP. cbn [MaxX MaxY] in HP.
    specialize (HP HW HH Hpos Hh Hw).
    unfold RGBA_At in HP. rewrite HR', HR in HP.
    assert (Hin : In_rect px py (mkRect 0 0 W H) = true).
    { unfold In_rect. cbn [MinX MinY MaxX MaxY].
      rewrite !andb_true_iff, !Z.leb_le, !Z.ltb_lt. lia. }
    rewrite Hin in HP.
    destruct (Z.leb_spec 0 px); [| lia]. destruct (Z.leb_spec 0 py); [| lia].
    cbn [andb] in HP. exact HP.
  - assert (Hw : -max_int <= (7 * Z.of_nat (String.length numStr) + 2) * s <= 0)
      by nia.
    rewrite drawLargeNumber_skipped
      by (fold numStr; unfold min_int, max_int, half_modulus in *; lia).
    split; [assumption |].
    destruct (label_size_wrap (v_centerX v) (v_centerY v) numStr config)
      as [EW _].
    rewrite wrap_id in EW
      by (unfold in_int, min_int, max_int, half_modulus in *; lia).
    unfold in_label_rectb.
    replace (totalWidth l)
      with ((7 * Z.of_nat (String.length numStr) + 2) * s)
      by (symmetry; exact EW).
    destruct (Z.leb_spec (startX l) px); cbn [andb]; [| reflexivity].
    destruct (Z.ltb_spec px (startX l + (7 * Z.of_nat (String.length numStr) + 2) * s));
      cbn [andb]; [lia | reflexivity].
Qed.

(** The rounds in order, at one pixel of the image. *)
Lemma draw_rounds_pixel (px py : Z) (rounds : list visit) :
  forall ov : Canvas,
    Rect ov = mkRect 0 0 W H ->
    Forall (fun v => 0 <= v_number v /\ in_int (v_number v)) rounds ->
    0 <= px < W -> 0 <= py < H ->
    Rect (fold_left (draw_round config) rounds ov) = mkRect 0 0 W H /\
    Pix (fold_left (draw_round config) rounds ov) px py
    = fold_left (paint_round config px py) rounds (Pix ov px py).
Proof.
  induction rounds as [| v rounds IH]; intros ov HR Hall Hpx Hpy;
    cbn [fold_left]; [now split |].
  inversion Hall as [| v' rounds' [Hn0 Hn] Hall']. subst.
  destruct (draw_round_pixel ov v px py HR Hn0 Hn Hpx Hpy) as [HR1 HP1].
  rewrite <- HP1. now apply IH.
Qed.

(** The numbers of the rounds of a grid are cell numbers. *)
Lemma row_major_numbers :
  0 < CellSize config -> 0 <= W -> 0 <= H ->
  cell_count_spec W H (CellSize config) <= max_int ->
  Forall (fun v => 0 <= v_number v /\ in_int (v_number v))
    (row_major_rounds config W H).
Proof.
  intros Hcs HW0 HH0 Hcount. rewrite Forall_forall. intros v Hv.
  unfold row_major_rounds in Hv. apply in_flat_map in Hv.
  destruct Hv as (r & Hr & Hv). apply in_map_iff in Hv.
  destruct Hv as (k & <- & Hk). apply in_seq in Hr, Hk.
  cbn [round_of v_number]. unfold cell_count_spec in Hcount.
  pose proof (ceil_div_nonneg W _ Hcs HW0) as HWn.
  pose proof (ceil_div_nonneg H _ Hcs HH0) as HHn.
  set (C := ceil_div W (CellSize config)) in *.
  set (Rn := ceil_div H (CellSize config)) in *.
  assert (Hn : 0 <= Z.of_nat r * C + Z.of_nat k < Rn * C).
  { split; [apply Z.add_nonneg_nonneg; [apply Z.mul_nonneg_nonneg |]; lia |].
    assert ((Z.of_nat r + 1) * C <= Rn * C)
      by (apply Z.mul_le_mono_nonneg_r; lia).
    lia. }
  unfold in_int, min_int, max_int, half_modulus in *. lia.
Qed.

End AddGridPicture.

Section AddGridPictureTheorems.

(** The run of [AddGrid] on an image with pixels whose buffer can be
    allocated: the canvas of the line-drawing phase, then the rounds of the
    grid in row-major order. *)
Lemma AddGrid_run (img : Image) (config : Config) (W H : Z) (fuel : nat) :
  Bounds img = mkRect 0 0 W H ->
  0 < CellSize config -> in_int (CellSize config) ->
  in_int (LineWidth config) ->
  0 < W -> 0 < H -> 4 * W * H <= max_int ->
  (Z.to_nat (Z.max W H) < fuel)%nat ->
  exists ov st,
    AddGrid_lines fuel img config = Returns ov /\
    AddGrid_canvas fuel img config = Returns st /\
    Rect ov = mkRect 0 0 W H /\
    rev (visited st) = row_major_rounds config W H /\
    overlay st = fold_left (draw_round config) (row_major_rounds config W H) ov.
Proof.
  intros HB Hcs Hcsi Hlw HW0 HH0 Hfit Hfuel.
  assert (HWi : in_int W) by (unfold in_int, min_int, max_int, half_modulus in *; nia).
  assert (HHi : in_int H) by (unfold in_int, min_int, max_int, half_modulus in *; nia).
  destruct (allocatable_image_fits (CellSize config) W H Hcs Hcsi HW0 HH0 Hfit)
    as (HWfit & HHfit & Hcount).
  pose proof (ceil_div_le W _ Hcs ltac:(lia)) as HWle.
  pose proof (ceil_div_le H _ Hcs ltac:(lia)) as HHle.
  pose proof (AddGrid_lines_run img config W H fuel HB HWi HHi Hcs Hcsi HW0 HH0
                Hfit) as El.
  assert (E1 : (Z.to_nat (ceil_div W (CellSize config) - 1) <? fuel)%nat = true)
    by (apply Nat.ltb_lt; lia).
  assert (E2 : (Z.to_nat (ceil_div H (CellSize config) - 1) <? fuel)%nat = true)
    by (apply Nat.ltb_lt; lia).
  rewrite E1, E2 in El. cbn [andb] in El.
  match type of El with _ = Returns ?c => set (ov := c) in * end.
  destruct (number_cells_run config W H ov fuel Hcs ltac:(lia) ltac:(lia)
              HWfit HHfit Hcount Hfuel) as (st & Est & Hrounds & Hov).
  exists ov, st. split; [assumption |]. split.
  { unfold AddGrid_canvas. rewrite El. cbn [bind]. rewrite HB. exact Est. }
  split; [| now split].
  destruct (AddGrid_lines_inside img config fuel ov Hcsi Hlw El) as (HR & _ & _).
  rewrite HR. cbn [Draw_Src Rect]. exact HB.
Qed.

(** Property X15.  [AddGrid] terminates.  For an image with bounds from the
    origin, with pixels, whose canvas can be allocated ([4*W*H] fits an
    [int]), and a positive cell size, [AddGrid] reaches the canvas it encodes
    without a panic, given fuel beyond the larger side of the image; the
    canvas has the bounds of the image.  This holds for every line width,
    scale and colour, also when the size of a label overflows. *)
Theorem AddGrid_returns (img : Image) (config : Config) (W H : Z) (fuel : nat) :
  Bounds img = mkRect 0 0 W H ->
  0 < CellSize config -> in_int (CellSize config) ->
  in_int (LineWidth config) ->
  0 < W -> 0 < H -> 4 * W * H <= max_int ->
  (Z.to_nat (Z.max W H) < fuel)%nat ->
  exists st,
    AddGrid_canvas fuel img config = Returns st /\
    Rect (overlay st) = Bounds img.
Proof.
  intros HB Hcs Hcsi Hlw HW0 HH0 Hfit Hfuel.
  destruct (AddGrid_run img config W H fuel HB Hcs Hcsi Hlw HW0 HH0 Hfit Hfuel)
    as (ov & st & El & Est & HR & _ & _).
  exists st. split; [assumption |].
  unfold AddGrid_canvas in Est. rewrite El in Est. cbn [bind] in Est.
  destruct (number_cells_inside img config fuel ov ov st) as (HR' & _ & _);
    [congruence | apply writes_within_refl | assumption | congruence].
Qed.

Lemma AddGrid_returns_witness :
  exists st,
    AddGrid_canvas 601 (mkImage (mkRect 0 0 600 400) (fun _ _ => transparent))
      DefaultConfig = Returns st /\
    Rect (overlay st) = mkRect 0 0 600 400.
Proof.
  apply (AddGrid_returns (mkImage (mkRect 0 0 600 400) (fun _ _ => transparent))
           DefaultConfig 600 400 601);
    try reflexivity;
    try (unfold in_int, min_int, max_int, half_modulus; cbn; lia).
Defined.

(** Property X16.  The picture [AddGrid] draws.  For an image with bounds from
    the origin, with pixels, whose canvas can be allocated, a positive cell
    size and a scale of at most [max_int / 135] in absolute value, the canvas
    [AddGrid] encodes is the canvas of the line-drawing phase with the labels
    of the rounds painted over it in row-major order: the colour of a pixel
    of the image is that of the last drawn label whose background rectangle
    contains it (the digit colour on the lit glyph cells, the background
    colour elsewhere), and the colour the line-drawing phase gave it when no
    drawn label contains it. *)
Theorem AddGrid_picture (img : Image) (config : Config) (W H : Z) (fuel : nat) :
  Bounds img = mkRect 0 0 W H ->
  0 < CellSize config -> in_int (CellSize config) ->
  in_int (LineWidth config) ->
  - max_int <= 135 * NumberScale config <= max_int ->
  0 < W -> 0 < H -> 4 * W * H <= max_int ->
  (Z.to_nat (Z.max W H) < fuel)%nat ->
  exists ov st,
    AddGrid_lines fuel img config = Returns ov /\
    AddGrid_canvas fuel img config = Returns st /\
    Rect (overlay st) = Bounds img /\
    forall px py,
      0 <= px < W -> 0 <= py < H ->
      Pix (overlay st) px py
      = fold_left (paint_round config px py) (row_major_rounds config W H)
          (Pix ov px py).
Proof.
  intros HB Hcs Hcsi Hlw Hscale HW0 HH0 Hfit Hfuel.
  assert (HWi : in_int W) by (unfold in_int, min_int, max_int, half_modulus in *; nia).
  assert (HHi : in_int H) by (unfold in_int, min_int, max_int, half_modulus in *; nia).
  destruct (AddGrid_run img config W H fuel HB Hcs Hcsi Hlw HW0 HH0 Hfit Hfuel)
    as (ov & st & El & Est & HR & _ & Hov).
  destruct (allocatable_image_fits (CellSize config) W H Hcs Hcsi HW0 HH0 Hfit)
    as (_ & _ & Hcount).
  pose proof (row_major_numbers config W H Hcs ltac:(lia) ltac:(lia) Hcount)
    as Hnum.
  exists ov, st. split; [assumption |]. split; [assumption |].
  rewrite Hov, HB. split.
  - now destruct (draw_rounds_pixel config W H HWi HHi Hscale 0 0
                    (row_major_rounds config W H) ov HR Hnum
                    ltac:(lia) ltac:(lia)).
  - intros px py Hpx Hpy.
    now destruct (draw_rounds_pixel config W H HWi HHi Hscale px py
                    (row_major_rounds config W H) ov HR Hnum Hpx Hpy).
Qed.

Lemma AddGrid_picture_witness :
  exists ov st,
    AddGrid_lines 13 (mkImage (mkRect 0 0 12 8) (fun _ _ => transparent))
      (mkConfig 5 (mkRGBA 0 255 255 100) (mkRGBA 255 255 255 255)
         (mkRGBA 0 0 0 200) 1 1) = Returns ov /\
    AddGrid_canvas 13 (mkImage (mkRect 0 0 12 8) (fun _ _ => transparent))
      (mkConfig 5 (mkRGBA 0 255 255 100) (mkRGBA 255 255 255 255)
         (mkRGBA 0 0 0 200) 1 1) = Returns st /\
    Rect (overlay st) = mkRect 0 0 12 8 /\
    forall px py,
      0 <= px < 12 -> 0 <= py < 8 ->
      Pix (overlay st) px py
      = fold_left
          (paint_round
             (mkConfig 5 (mkRGBA 0 255 255 100) (mkRGBA 255 255 255 255)
                (mkRGBA 0 0 0 200) 1 1) px py)
          (row_major_rounds
             (mkConfig 5 (mkRGBA 0 255 255 100) (mkRGBA 255 255 255 255)
                (mkRGBA 0 0 0 200) 1 1) 12 8)
          (Pix ov px py).
Proof.
  apply (AddGrid_picture (mkImage (mkRect 0 0 12 8) (fun _ _ => transparent))
           (mkConfig 5 (mkRGBA 0 255 255 100) (mkRGBA 255 255 255 255)
              (mkRGBA 0 0 0 200) 1 1) 12 8 13);
    try reflexivity;
    try (unfold in_int, min_int, max_int, half_modulus; cbn; lia).
Defined.

End AddGridPictureTheorems.

(** ** The circles of the example program *)

Section Circles.
Import GoIntFacts.

(** [for i := lo; i <= hi; i++] when [hi] is not the largest [int]: the
    rounds [lo .. hi]. *)
Lemma closed_range_unroll {St : Type} (g : Z -> St -> St) (lo hi : Z)
  (fuel : nat) (s : St) :
  in_int lo -> hi < max_int -> lo <= hi + 1 ->
  (Z.to_nat (hi - lo + 1) < fuel)%nat ->
  for_loop fuel (fun i => i <=? hi) (fun i => add i 1)
    (fun i s => Returns (g i s)) lo s =
  Returns (fold_left (fun s k => g (lo + Z.of_nat k) s)
             (seq 0 (Z.to_nat (hi - lo + 1))) s).
Proof.
  intros Hlo Hhi Hle Hfuel.
  pose proof (for_loop_unroll (fun i => i <=? hi) (fun i => add i 1)
                (fun i s => Returns (g i s)) g (Z.to_nat (hi - lo + 1))
                (fun k => lo + Z.of_nat k) fuel s) as U.
  cbn beta in U. rewrite Z.add_0_r in U. apply U.
  - intros k Hk. apply Z.leb_le. lia.
  - intros k Hk. rewrite add_exact.
    + lia.
    + unfold in_int, min_int, max_int, half_modulus in *. lia.
  - apply Z.leb_gt. lia.
  - reflexivity.
  - assumption.
Qed.

Lemma paints_set_clipped (c : RGBA) (s : Canvas) (x y : Z) :
  paints c (fun px py => (0 <=? px) && (0 <=? py) && (px =? x) && (py =? y))
    s (set_clipped s x y c).
Proof.
  split; [apply set_clipped_Rect |]. intros px py. unfold set_clipped.
  destruct (Z.eqb_spec px x) as [-> | Nx];
    [destruct (Z.eqb_spec py y) as [-> | Ny] |].
  - rewrite !andb_true_r.
    destruct ((0 <=? x) && (0 <=? y) && (x <? MaxX (Rect s))
              && (y <? MaxY (Rect s))) eqn:EG.
    + cbn [RGBA_Set Pix]. rewrite !andb_true_iff in EG.
      destruct EG as [[[-> ->] _] _]. cbn [andb]. rewrite andb_true_r.
      destruct (In_rect x y (Rect s)); [now rewrite !Z.eqb_refl | reflexivity].
    + unfold In_rect.
      destruct (0 <=? x), (0 <=? y), (x <? MaxX (Rect s)), (y <? MaxY (Rect s));
        cbn [andb] in *; rewrite ?andb_false_r; try reflexivity; discriminate.
  - rewrite !andb_false_r.
    destruct ((0 <=? x) && (0 <=? y) && (x <? MaxX (Rect s))
              && (y <? MaxY (Rect s))); [| reflexivity].
    cbn [RGBA_Set Pix]. destruct (In_rect x y (Rect s)); [| reflexivity].
    destruct (Z.eqb_spec py y); [lia |]. now rewrite andb_false_r.
  - rewrite andb_false_r. cbn [andb]. rewrite !andb_false_r.
    destruct ((0 <=? x) && (0 <=? y) && (x <? MaxX (Rect s))
              && (y <? MaxY (Rect s))); [| reflexivity].
    cbn [RGBA_Set Pix]. destruct (In_rect x y (Rect s)); [| reflexivity].
    destruct (Z.eqb_spec px x); [lia | reflexivity].
Qed.

(** The test of the disc, as the code computes it, at a point of the
    bounding square. *)
Lemma disc_test (cx cy r x y : Z) :
  0 <= r <= 2147483647 ->
  - 4611686018427387904 <= cx <= 4611686018427387904 ->
  - 4611686018427387904 <= cy <= 4611686018427387904 ->
  cx - r <= x <= cx + r -> cy - r <= y <= cy + r ->
  (add (mul (sub x cx) (sub x cx)) (mul (sub y cy) (sub y cy)) <=? mul r r)
  = ((x - cx) * (x - cx) + (y - cy) * (y - cy) <=? r * r).
Proof.
  intros Hr Hcx Hcy Hx Hy.
  rewrite !sub_exact by (unfold in_int, min_int, max_int, half_modulus; lia).
  assert (Hsq : forall d, - r <= d <= r -> 0 <= d * d <= r * r) by (intros; nia).
  assert (Hrr : 0 <= r * r <= 4611686014132420609).
  { split; [nia |]. change 4611686014132420609 with (2147483647 * 2147483647).
    apply Z.mul_le_mono_nonneg; lia. }
  pose proof (Hsq (x - cx) ltac:(lia)) as Hdx.
  pose proof (Hsq (y - cy) ltac:(lia)) as Hdy.
  rewrite !mul_exact by (unfold in_int, min_int, max_int, half_modulus; lia).
  rewrite add_exact by (unfold in_int, min_int, max_int, half_modulus; lia).
  reflexivity.
Qed.

(** Property X17.  [drawCircle] of the example program paints the filled disc,
    clipped.  For a radius of at most [2^31 - 1] and a centre within [2^62] of
    the origin it returns, given fuel for [2*radius + 1] rounds, and the
    pixels of the canvas it has set to [col] are those with non-negative
    coordinates and [(x - centerX)^2 + (y - centerY)^2 <= radius^2]; every
    other pixel is as it was. *)
Theorem drawCircle_paints_disc (fuel : nat) (img : Canvas)
  (centerX centerY radius : Z) (col : RGBA) :
  0 <= radius <= 2147483647 ->
  - 4611686018427387904 <= centerX <= 4611686018427387904 ->
  - 4611686018427387904 <= centerY <= 4611686018427387904 ->
  (Z.to_nat (2 * radius + 1) < fuel)%nat ->
  exists img',
    drawCircle fuel img centerX centerY radius col = Returns img' /\
    Rect img' = Rect img /\
    forall px py,
      Pix img' px py =
      if In_rect px py (Rect img) && (0 <=? px) && (0 <=? py)
         && ((px - centerX) * (px - centerX) + (py - centerY) * (py - centerY)
             <=? radius * radius)
      then col
      else Pix img px py.
Proof.
  intros Hr Hcx Hcy Hfuel. unfold drawCircle.
  rewrite !sub_exact, !add_exact
    by (unfold in_int, min_int, max_int, half_modulus; lia).
  set (n := Z.to_nat (2 * radius + 1)).
  set (body := fun (y x : Z) (s : Canvas) =>
                 if add (mul (sub x centerX) (sub x centerX))
                      (mul (sub y centerY) (sub y centerY)) <=? mul radius radius
                 then set_clipped s x y col else s).
  set (row := fun (y : Z) (s : Canvas) =>
                fold_left (fun s k => body y (centerX - radius + Z.of_nat k) s)
                  (seq 0 n) s).
  assert (Erow : forall y s,
             for_loop fuel (fun x => x <=? centerX + radius) (fun x => add x 1)
               (fun x s => Returns (body y x s)) (centerX - radius) s
             = Returns (row y s)).
  { intros y s. unfold row.
    rewrite (closed_range_unroll (body y) (centerX - radius) (centerX + radius))
      by (unfold in_int, min_int, max_int, half_modulus; lia).
    now replace (centerX + radius - (centerX - radius) + 1)
      with (2 * radius + 1) by lia. }
  assert (Eall :
            for_loop fuel (fun y => y <=? centerY + radius) (fun y => add y 1)
              (fun y s =>
                 for_loop fuel (fun x => x <=? centerX + radius)
                   (fun x => add x 1)
                   (fun x s => Returns (body y x s)) (centerX - radius) s)
              (centerY - radius) img
            = Returns (fold_left (fun s j => row (centerY - radius + Z.of_nat j) s)
                         (seq 0 n) img)).
  { pose proof (for_loop_unroll (fun y => y <=? centerY + radius)
                  (fun y => add y 1)
                  (fun y s =>
                     for_loop fuel (fun x => x <=? centerX + radius)
                       (fun x => add x 1)
                       (fun x s => Returns (body y x s)) (centerX - radius) s)
                  row n (fun j => centerY - radius + Z.of_nat j) fuel img) as U.
    cbn beta in U. rewrite Z.add_0_r in U. apply U.
    - intros k Hk. apply Z.leb_le. lia.
    - intros k Hk. rewrite add_exact.
      + lia.
      + unfold in_int, min_int, max_int, half_modulus in *. lia.
    - apply Z.leb_gt. lia.
    - intros k s _. apply Erow.
    - exact Hfuel. }
  eexists. split; [exact Eall |].
  set (p := fun (j k : nat) (px py : Z) =>
              ((centerX - radius + Z.of_nat k - centerX)
               * (centerX - radius + Z.of_nat k - centerX)
               + (centerY - radius + Z.of_nat j - centerY)
                 * (centerY - radius + Z.of_nat j - centerY) <=? radius * radius)
              && ((0 <=? px) && (0 <=? py)
                  && (px =? centerX - radius + Z.of_nat k)
                  && (py =? centerY - radius + Z.of_nat j))).
  assert (Hbody : forall j k s, (j < n)%nat -> (k < n)%nat ->
             paints col (p j k) s
               (body (centerY - radius + Z.of_nat j)
                  (centerX - radius + Z.of_nat k) s)).
  { intros j k s Hj Hk. unfold body, p.
    rewrite disc_test by lia.
    match goal with |- context [if ?b then _ else _] => destruct b end.
    - cbn [andb]. apply paints_set_clipped.
    - cbn [andb]. apply paints_refl. }
  assert (Hrow : forall j s, (j < n)%nat ->
             paints col (fun px py => existsb (fun k => p j k px py) (seq 0 n)) s
               (row (centerY - radius + Z.of_nat j) s)).
  { intros j s Hj. unfold row.
    apply (fold_left_paints_in col (p j)
             (fun k s => body (centerY - radius + Z.of_nat j)
                           (centerX - radius + Z.of_nat k) s)).
    intros k s' Hk. apply in_seq in Hk. apply Hbody; lia. }
  pose proof (fold_left_paints_in col
                (fun j px py => existsb (fun k => p j k px py) (seq 0 n))
                (fun j s => row (centerY - radius + Z.of_nat j) s)
                (seq 0 n) img
                (fun j s' Hj => Hrow j s' ltac:(apply in_seq in Hj; lia)))
    as [HR HP].
  split; [exact HR |]. intros px py. rewrite HP, <- !andb_assoc.
  replace (existsb (fun j => existsb (fun k => p j k px py) (seq 0 n)) (seq 0 n))
    with ((0 <=? px)
          && ((0 <=? py)
              && ((px - centerX) * (px - centerX)
                  + (py - centerY) * (py - centerY) <=? radius * radius)));
    [reflexivity |].
  symmetry. apply eq_iff_eq_true. rewrite existsb_exists. split.
  - intros (j & Hj & Hk). apply existsb_exists in Hk.
    destruct Hk as (k & Hk & Hp). unfold p in Hp.
    rewrite !andb_true_iff, !Z.leb_le, !Z.eqb_eq in Hp.
    destruct Hp as (Hd & ((Hx0 & Hy0) & Ex) & Ey). subst px py.
    rewrite !andb_true_iff, !Z.leb_le. repeat split; assumption.
  - rewrite !andb_true_iff, !Z.leb_le. intros (Hx0 & Hy0 & Hd).
    assert (Hsq : forall d e, d * d + e * e <= radius * radius ->
                              - radius <= d <= radius).
    { intros d e Hde. assert (0 <= e * e) by nia.
      destruct (Z.lt_ge_cases radius d); [nia |].
      destruct (Z.lt_ge_cases d (- radius)); [nia | lia]. }
    pose proof (Hsq _ _ Hd) as Hdx.
    rewrite Z.add_comm in Hd. pose proof (Hsq _ _ Hd) as Hdy.
    rewrite Z.add_comm in Hd.
    exists (Z.to_nat (py - centerY + radius)).
    split; [apply in_seq; lia |]. apply existsb_exists.
    exists (Z.to_nat (px - centerX + radius)).
    split; [apply in_seq; lia |]. unfold p.
    rewrite !Z2Nat.id by lia.
    rewrite !andb_true_iff, !Z.leb_le, !Z.eqb_eq.
    replace (centerX - radius + (px - centerX + radius) - centerX)
      with (px - centerX) by lia.
    replace (centerY - radius + (py - centerY + radius) - centerY)
      with (py - centerY) by lia.
    repeat split; try assumption; lia.
Qed.

Lemma drawCircle_paints_disc_witness :
  exists img',
    drawCircle 200
      {| Rect := mkRect 0 0 800 600; Pix := fun _ _ => mkRGBA 255 255 255 255;
         Calls := [] |}
      200 150 50 (mkRGBA 255 100 100 255) = Returns img' /\
    Rect img' = mkRect 0 0 800 600 /\
    forall px py,
      Pix img' px py =
      if In_rect px py (mkRect 0 0 800 600) && (0 <=? px) && (0 <=? py)
         && ((px - 200) * (px - 200) + (py - 150) * (py - 150) <=? 50 * 50)
      then mkRGBA 255 100 100 255
      else mkRGBA 255 255 255 255.
Proof.
  apply (drawCircle_paints_disc 200
           {| Rect := mkRect 0 0 800 600;
              Pix := fun _ _ => mkRGBA 255 255 255 255; Calls := [] |}
           200 150 50 (mkRGBA 255 100 100 255)); lia.
Defined.

End Circles.
